(** * The PocketSphinx recognizer channel of UniMRCP

    A shallow embedding of the recognizer plugin
    (plugins/mrcp-pocketsphinx: [pocketsphinx_define_grammar],
    [pocketsphinx_recognize], [pocketsphinx_stop],
    [pocketsphinx_recognition_complete], [pocketsphinx_request_dispatch],
    the body of [pocketsphinx_recognizer_run] and
    [pocketsphinx_stream_write]) as state-passing functions, and the
    properties of the channel proved about them.

    The recognizer structure is a record; the messages handed to
    [mrcp_engine_channel_message_send] are collected, oldest first, in the
    channel; the data directory is a finite map from paths to contents.
    The decoder library, the activity detector and the directory layout
    are interfaces (type classes): every theorem holds for all their
    implementations.  Calls to [apt_log], and [ps_get_prob] whose result is
    only logged, are left out.

    The three threads of a channel are interleaved at the grain of the
    functions: a request is stored, a frame is written or a turn of the
    recognition thread runs, one at a time.  The theorems about a single
    function hold in every state; the runs at the end of the file are
    executions of this interleaving. *)

From Stdlib Require Import ZArith String Ascii List Bool Lia.
From stdpp Require Import base option gmap strings list.

Import ListNotations.

(** ** Protocol enumerations *)

Inductive mrcp_message_type_e :=
  | MRCP_MESSAGE_TYPE_REQUEST
  | MRCP_MESSAGE_TYPE_RESPONSE
  | MRCP_MESSAGE_TYPE_EVENT.

Inductive mrcp_request_state_e :=
  | MRCP_REQUEST_STATE_COMPLETE
  | MRCP_REQUEST_STATE_INPROGRESS
  | MRCP_REQUEST_STATE_PENDING.

(** The status codes the plugin writes, and the one a fresh response
    carries. *)
Inductive mrcp_status_code_e :=
  | MRCP_STATUS_CODE_SUCCESS
  | MRCP_STATUS_CODE_MISSING_PARAM
  | MRCP_STATUS_CODE_METHOD_FAILED
  | MRCP_STATUS_CODE_UNSUPPORTED_PARAM_VALUE.

(** [RECOGNIZER_METHOD_COUNT] closes the C enumeration; it stands for
    every identifier the dispatcher sends to its [default] branch. *)
Inductive mrcp_recognizer_method_id :=
  | RECOGNIZER_SET_PARAMS
  | RECOGNIZER_GET_PARAMS
  | RECOGNIZER_DEFINE_GRAMMAR
  | RECOGNIZER_RECOGNIZE
  | RECOGNIZER_GET_RESULT
  | RECOGNIZER_START_INPUT_TIMERS
  | RECOGNIZER_STOP
  | RECOGNIZER_METHOD_COUNT.

Inductive mrcp_recognizer_event_id :=
  | RECOGNIZER_START_OF_INPUT
  | RECOGNIZER_RECOGNITION_COMPLETE.

(** The start line has one identifier field, read as a method for
    requests and responses and as an event name for events. *)
Inductive mrcp_method_id :=
  | MethodId (m : mrcp_recognizer_method_id)
  | EventId (e : mrcp_recognizer_event_id).

(** [RECOGNIZER_COMPLETION_CAUSE_COUNT] is the value of a header whose
    cause has not been set. *)
Inductive mrcp_recog_completion_cause_e :=
  | RECOGNIZER_COMPLETION_CAUSE_SUCCESS
  | RECOGNIZER_COMPLETION_CAUSE_NO_MATCH
  | RECOGNIZER_COMPLETION_CAUSE_NO_INPUT_TIMEOUT
  | RECOGNIZER_COMPLETION_CAUSE_RECOGNITION_TIMEOUT
  | RECOGNIZER_COMPLETION_CAUSE_COUNT.

Inductive mpf_detector_event_e :=
  | MPF_DETECTOR_EVENT_NONE
  | MPF_DETECTOR_EVENT_ACTIVITY
  | MPF_DETECTOR_EVENT_INACTIVITY
  | MPF_DETECTOR_EVENT_NOINPUT.

Inductive mrcp_generic_header_id :=
  | GENERIC_HEADER_CONTENT_ID
  | GENERIC_HEADER_CONTENT_TYPE
  | GENERIC_HEADER_CONTENT_LENGTH.

Inductive mrcp_recog_header_id :=
  | RECOGNIZER_HEADER_COMPLETION_CAUSE.

#[global] Instance mrcp_message_type_eq_dec : EqDecision mrcp_message_type_e.
Proof. solve_decision. Defined.
#[global] Instance mrcp_request_state_eq_dec : EqDecision mrcp_request_state_e.
Proof. solve_decision. Defined.
#[global] Instance mrcp_status_code_eq_dec : EqDecision mrcp_status_code_e.
Proof. solve_decision. Defined.
#[global] Instance mrcp_recognizer_method_eq_dec :
  EqDecision mrcp_recognizer_method_id.
Proof. solve_decision. Defined.
#[global] Instance mrcp_recognizer_event_eq_dec :
  EqDecision mrcp_recognizer_event_id.
Proof. solve_decision. Defined.
#[global] Instance mrcp_method_id_eq_dec : EqDecision mrcp_method_id.
Proof. solve_decision. Defined.
#[global] Instance mrcp_recog_completion_cause_eq_dec :
  EqDecision mrcp_recog_completion_cause_e.
Proof. solve_decision. Defined.
#[global] Instance mrcp_generic_header_id_eq_dec :
  EqDecision mrcp_generic_header_id.
Proof. solve_decision. Defined.
#[global] Instance mrcp_recog_header_id_eq_dec :
  EqDecision mrcp_recog_header_id.
Proof. solve_decision. Defined.

(** ** Messages *)

(** A header field of type [apt_str_t] is its buffer, [None] for a NULL
    buffer.  The property set records which fields are present. *)
Record mrcp_generic_header_t := {
  content_id : option string;
  content_type : option string;
  generic_properties : list mrcp_generic_header_id
}.

Record mrcp_recog_header_t := {
  completion_cause : mrcp_recog_completion_cause_e;
  recog_properties : list mrcp_recog_header_id
}.

(** [generic_header] is [None] when the accessor holds no data, which
    [pocketsphinx_define_grammar] tests for.  The resource header is read
    by the plugin without a test and is kept as a value. *)
Record mrcp_message_t := {
  message_type : mrcp_message_type_e;
  method_id : mrcp_method_id;
  request_id : Z;
  status_code : mrcp_status_code_e;
  request_state : mrcp_request_state_e;
  generic_header : option mrcp_generic_header_t;
  recog_header : mrcp_recog_header_t;
  body : string
}.

#[global] Instance mrcp_generic_header_eq_dec : EqDecision mrcp_generic_header_t.
Proof. solve_decision. Defined.
#[global] Instance mrcp_recog_header_eq_dec : EqDecision mrcp_recog_header_t.
Proof. solve_decision. Defined.
#[global] Instance mrcp_message_eq_dec : EqDecision mrcp_message_t.
Proof. solve_decision. Defined.

Definition set_status_code (c : mrcp_status_code_e) (m : mrcp_message_t) :=
  {| message_type := message_type m; method_id := method_id m;
     request_id := request_id m; status_code := c;
     request_state := request_state m; generic_header := generic_header m;
     recog_header := recog_header m; body := body m |}.

Definition set_request_state (s : mrcp_request_state_e) (m : mrcp_message_t) :=
  {| message_type := message_type m; method_id := method_id m;
     request_id := request_id m; status_code := status_code m;
     request_state := s; generic_header := generic_header m;
     recog_header := recog_header m; body := body m |}.

Definition set_generic_header (g : option mrcp_generic_header_t)
    (m : mrcp_message_t) :=
  {| message_type := message_type m; method_id := method_id m;
     request_id := request_id m; status_code := status_code m;
     request_state := request_state m; generic_header := g;
     recog_header := recog_header m; body := body m |}.

Definition set_recog_header (h : mrcp_recog_header_t) (m : mrcp_message_t) :=
  {| message_type := message_type m; method_id := method_id m;
     request_id := request_id m; status_code := status_code m;
     request_state := request_state m; generic_header := generic_header m;
     recog_header := h; body := body m |}.

Definition set_body (b : string) (m : mrcp_message_t) :=
  {| message_type := message_type m; method_id := method_id m;
     request_id := request_id m; status_code := status_code m;
     request_state := request_state m; generic_header := generic_header m;
     recog_header := recog_header m; body := b |}.

Definition mrcp_generic_header_get (m : mrcp_message_t) :
    option mrcp_generic_header_t :=
  generic_header m.

Definition mrcp_generic_header_property_check (m : mrcp_message_t)
    (id : mrcp_generic_header_id) : bool :=
  match generic_header m with
  | Some g => bool_decide (id ∈ generic_properties g)
  | None => false
  end.

Definition empty_generic_header : mrcp_generic_header_t :=
  {| content_id := None; content_type := None; generic_properties := [] |}.

Definition empty_recog_header : mrcp_recog_header_t :=
  {| completion_cause := RECOGNIZER_COMPLETION_CAUSE_COUNT;
     recog_properties := [] |}.

(** Modelled from the spec: [mrcp_response_create] of mrcp_message.c, which
    is not among the sources.  The response to a request: same method and
    request identifier, no headers, empty body; it reports success and a
    complete request until the plugin writes otherwise. *)
Definition mrcp_response_create (request : mrcp_message_t) : mrcp_message_t :=
  {| message_type := MRCP_MESSAGE_TYPE_RESPONSE;
     method_id := method_id request;
     request_id := request_id request;
     status_code := MRCP_STATUS_CODE_SUCCESS;
     request_state := MRCP_REQUEST_STATE_COMPLETE;
     generic_header := None;
     recog_header := empty_recog_header;
     body := EmptyString |}.

(** Modelled from the spec: [mrcp_event_create] of mrcp_message.c, which is
    not among the sources.  An event raised for a request: it carries the
    event name and the identifier of the request, no headers and an empty
    body.  The plugin writes the request state of every event it creates
    and never reads the status of one.  Allocation from the pool does not
    fail, so the result is always [Some]; the plugin tests it all the
    same. *)
Definition mrcp_event_create (request : mrcp_message_t)
    (event_id : mrcp_recognizer_event_id) : option mrcp_message_t :=
  Some {| message_type := MRCP_MESSAGE_TYPE_EVENT;
          method_id := EventId event_id;
          request_id := request_id request;
          status_code := MRCP_STATUS_CODE_SUCCESS;
          request_state := MRCP_REQUEST_STATE_COMPLETE;
          generic_header := None;
          recog_header := empty_recog_header;
          body := EmptyString |}.

(** [mrcp_generic_header_prepare]: the header of the message, allocated if
    it was absent. *)
Definition mrcp_generic_header_prepare (m : mrcp_message_t) :
    mrcp_generic_header_t :=
  match generic_header m with
  | Some g => g
  | None => empty_generic_header
  end.

(** ** C strings, sizes and tables *)

Definition dquote : string := String "034"%char EmptyString.
Definition newline : string := String "010"%char EmptyString.

(** [strstr]: the suffix of [haystack] at the first occurrence of
    [needle], [None] when there is none. *)
Fixpoint strstr (haystack needle : string) : option string :=
  if String.prefix needle haystack then Some haystack
  else match haystack with
       | EmptyString => None
       | String _ rest => strstr rest needle
       end.

(** A [%s] conversion prints a NULL string as (null). *)
Definition fmt_s (s : option string) : string :=
  match s with
  | Some x => x
  | None => "(null)"%string
  end.

Fixpoint string_drop (n : nat) (s : string) : string :=
  match n, s with
  | O, _ => s
  | S _, EmptyString => EmptyString
  | S n', String _ rest => string_drop n' rest
  end.

(** [apr_size_t] arithmetic: unsigned, 64 bits wide. *)
Definition APR_SIZE_MAX : Z := (2 ^ 64 - 1)%Z.

Definition size_add (a b : Z) : Z := ((a + b) mod (APR_SIZE_MAX + 1))%Z.

(** Modelled from the spec: the fixed per-frame duration by which the
    timers advance, the macro [CODEC_FRAME_TIME_BASE] of
    mpf_codec_descriptor.h (not among the sources): 10 milliseconds. *)
Definition CODEC_FRAME_TIME_BASE : Z := 10%Z.

(** An [apr_table_t] is an array of entries searched from the front, with
    keys compared without regard to case. *)
Definition apr_table_t := list (string * string).

Definition ascii_tolower (c : ascii) : ascii :=
  let n := nat_of_ascii c in
  if (Nat.leb 65 n && Nat.leb n 90)%bool then ascii_of_nat (n + 32) else c.

Fixpoint string_tolower (s : string) : string :=
  match s with
  | EmptyString => EmptyString
  | String c rest => String (ascii_tolower c) (string_tolower rest)
  end.

Definition strcasecmp_eq (a b : string) : bool :=
  String.eqb (string_tolower a) (string_tolower b).

Fixpoint apr_table_get (t : apr_table_t) (key : string) : option string :=
  match t with
  | [] => None
  | (k, v) :: rest =>
      if strcasecmp_eq k key then Some v else apr_table_get rest key
  end.

Definition apr_table_unset (t : apr_table_t) (key : string) : apr_table_t :=
  List.filter (fun e => negb (strcasecmp_eq (fst e) key)) t.

(** [apr_table_setn]: the first entry with the key gets the value and the
    later ones with the key go; without such an entry one is appended. *)
Fixpoint apr_table_setn (t : apr_table_t) (key val : string) : apr_table_t :=
  match t with
  | [] => [(key, val)]
  | (k, v) :: rest =>
      if strcasecmp_eq k key then (k, val) :: apr_table_unset rest key
      else (k, v) :: apr_table_setn rest key val
  end.

Definition apr_table_clear (t : apr_table_t) : apr_table_t := [].

(** ** The data directory *)

(** Files by path.  [apr_file_open] with [APR_CREATE|APR_WRITE] creates an
    absent file and keeps the contents of a present one; the write that
    follows starts at offset zero and does not truncate. *)
Definition file_create (fs : gmap string string) (path : string) :
    gmap string string :=
  match fs !! path with
  | Some _ => fs
  | None => <[path := EmptyString]> fs
  end.

Definition file_write (fs : gmap string string) (path data : string) :
    gmap string string :=
  match fs !! path with
  | Some old => <[path := (data ++ string_drop (String.length data) old)%string]> fs
  | None => fs
  end.

Definition apr_file_remove (fs : gmap string string) (path : string) :
    gmap string string :=
  delete path fs.

(** ** Collaborators *)

(** The frame of the media layer: the plugin reads the codec frame only. *)
Record mpf_frame_t := {
  codec_frame_buffer : list Z
}.

Definition codec_frame_size (f : mpf_frame_t) : Z :=
  Z.of_nat (List.length (codec_frame_buffer f)).

(** The PocketSphinx library.  [ps_init] and [ps_reinit] compile the
    grammar file named by the configuration, so they read the data
    directory; a negative status is a failure. *)
Class PocketSphinx := {
  cmd_ln_t : Type;
  ps_decoder_t : Type;
  cmd_ln_init : option cmd_ln_t -> list (string * string) -> option cmd_ln_t;
  ps_init : gmap string string -> cmd_ln_t -> option ps_decoder_t;
  ps_reinit : gmap string string -> ps_decoder_t -> cmd_ln_t -> ps_decoder_t * Z;
  ps_start_utt : ps_decoder_t -> ps_decoder_t * Z;
  ps_end_utt : ps_decoder_t -> ps_decoder_t;
  ps_process_raw : ps_decoder_t -> list Z -> Z -> ps_decoder_t * Z;
  ps_get_hyp : ps_decoder_t -> option string
}.

(** Modelled from the spec: the Activity Detector of section 4.1
    (mpf_activity_detector.c is not among the sources): [process] maps a
    frame to an event and updates the run-length state, [reset] clears it. *)
Class ActivityDetector := {
  mpf_activity_detector_t : Type;
  mpf_activity_detector_create : mpf_activity_detector_t;
  mpf_activity_detector_level_set :
    mpf_activity_detector_t -> Z -> mpf_activity_detector_t;
  mpf_activity_detector_reset :
    mpf_activity_detector_t -> mpf_activity_detector_t;
  mpf_activity_detector_process :
    mpf_activity_detector_t -> mpf_frame_t ->
    mpf_activity_detector_t * mpf_detector_event_e
}.

(** The directory layout of the server and the outcome of opening a file
    for writing ([true] for [APR_SUCCESS]). *)
Class DirLayout := {
  apt_datadir_filepath_get : string -> string;
  apr_file_open : gmap string string -> string -> bool
}.

(** A request that carries a grammar to define: a generic header with a
    content-id, a content-length and a content-type, each with its
    property set. *)
Definition grammar_definition (req : mrcp_message_t) (id type : string) : Prop :=
  ∃ hdr, generic_header req = Some hdr
         ∧ GENERIC_HEADER_CONTENT_ID ∈ generic_properties hdr
         ∧ content_id hdr = Some id
         ∧ GENERIC_HEADER_CONTENT_LENGTH ∈ generic_properties hdr
         ∧ GENERIC_HEADER_CONTENT_TYPE ∈ generic_properties hdr
         ∧ content_type hdr = Some type.

(** A request that names a grammar and carries none: a content-id and no
    content-length. *)
Definition grammar_unload (req : mrcp_message_t) (id : string) : Prop :=
  ∃ hdr, generic_header req = Some hdr
         ∧ GENERIC_HEADER_CONTENT_ID ∈ generic_properties hdr
         ∧ content_id hdr = Some id
         ∧ GENERIC_HEADER_CONTENT_LENGTH ∉ generic_properties hdr.

(** The events of the plugin as [pocketsphinx_start_of_input] and
    [pocketsphinx_end_of_input] leave them. *)
Definition start_of_input_event (req : mrcp_message_t) : mrcp_message_t :=
  {| message_type := MRCP_MESSAGE_TYPE_EVENT;
     method_id := EventId RECOGNIZER_START_OF_INPUT;
     request_id := request_id req;
     status_code := MRCP_STATUS_CODE_SUCCESS;
     request_state := MRCP_REQUEST_STATE_INPROGRESS;
     generic_header := None;
     recog_header := empty_recog_header;
     body := EmptyString |}.

Definition recognition_complete_event (req : mrcp_message_t)
    (cause : mrcp_recog_completion_cause_e) : mrcp_message_t :=
  {| message_type := MRCP_MESSAGE_TYPE_EVENT;
     method_id := EventId RECOGNIZER_RECOGNITION_COMPLETE;
     request_id := request_id req;
     status_code := MRCP_STATUS_CODE_SUCCESS;
     request_state := MRCP_REQUEST_STATE_COMPLETE;
     generic_header := None;
     recog_header :=
       {| completion_cause := cause;
          recog_properties := [RECOGNIZER_HEADER_COMPLETION_CAUSE] |};
     body := EmptyString |}.

(** ** The recognizer *)

Record pocketsphinx_properties_t := {
  dictionary : string;
  model_8k : string;
  model_16k : string;
  properties_noinput_timeout : Z;
  properties_recognition_timeout : Z;
  properties_partial_result_timeout : Z
}.

(** The engine channel base: its identifier and the messages passed to
    [mrcp_engine_channel_message_send], oldest first. *)
Record mrcp_engine_channel_t := {
  channel_id : string;
  sent : list mrcp_message_t
}.

Definition property_add {A} `{EqDecision A} (id : A) (set : list A) : list A :=
  if bool_decide (id ∈ set) then set else set ++ [id].

Section Recognizer.

Context `{PocketSphinx} `{ActivityDetector} `{DirLayout}.

(** [pocketsphinx_recognizer_t] without the thread, the mutex and the
    condition variable.  The four message fields are pointers in C; a
    [None] is NULL. *)
Record pocketsphinx_recognizer_t := {
  channel : mrcp_engine_channel_t;
  decoder : option ps_decoder_t;
  config : option cmd_ln_t;
  properties : pocketsphinx_properties_t;
  recognition_timeout : Z;
  partial_result_timeout : Z;
  last_result : option string;
  grammar_id : option string;
  grammar_table : apr_table_t;
  detector : option mpf_activity_detector_t;
  request : option mrcp_message_t;
  complete_event : option mrcp_message_t;
  inprogress_recog : option mrcp_message_t;
  stop_response : option mrcp_message_t;
  close_requested : bool
}.

Definition set_channel (v : mrcp_engine_channel_t)
    (r : pocketsphinx_recognizer_t) : pocketsphinx_recognizer_t :=
  {| channel := v; decoder := decoder r; config := config r;
     properties := properties r;
     recognition_timeout := recognition_timeout r;
     partial_result_timeout := partial_result_timeout r;
     last_result := last_result r; grammar_id := grammar_id r;
     grammar_table := grammar_table r; detector := detector r;
     request := request r; complete_event := complete_event r;
     inprogress_recog := inprogress_recog r;
     stop_response := stop_response r;
     close_requested := close_requested r |}.

Definition set_decoder (v : option ps_decoder_t)
    (r : pocketsphinx_recognizer_t) : pocketsphinx_recognizer_t :=
  {| channel := channel r; decoder := v; config := config r;
     properties := properties r;
     recognition_timeout := recognition_timeout r;
     partial_result_timeout := partial_result_timeout r;
     last_result := last_result r; grammar_id := grammar_id r;
     grammar_table := grammar_table r; detector := detector r;
     request := request r; complete_event := complete_event r;
     inprogress_recog := inprogress_recog r;
     stop_response := stop_response r;
     close_requested := close_requested r |}.

Definition set_config (v : option cmd_ln_t)
    (r : pocketsphinx_recognizer_t) : pocketsphinx_recognizer_t :=
  {| channel := channel r; decoder := decoder r; config := v;
     properties := properties r;
     recognition_timeout := recognition_timeout r;
     partial_result_timeout := partial_result_timeout r;
     last_result := last_result r; grammar_id := grammar_id r;
     grammar_table := grammar_table r; detector := detector r;
     request := request r; complete_event := complete_event r;
     inprogress_recog := inprogress_recog r;
     stop_response := stop_response r;
     close_requested := close_requested r |}.

Definition set_properties (v : pocketsphinx_properties_t)
    (r : pocketsphinx_recognizer_t) : pocketsphinx_recognizer_t :=
  {| channel := channel r; decoder := decoder r; config := config r;
     properties := v; recognition_timeout := recognition_timeout r;
     partial_result_timeout := partial_result_timeout r;
     last_result := last_result r; grammar_id := grammar_id r;
     grammar_table := grammar_table r; detector := detector r;
     request := request r; complete_event := complete_event r;
     inprogress_recog := inprogress_recog r;
     stop_response := stop_response r;
     close_requested := close_requested r |}.

Definition set_recognition_timeout (v : Z)
    (r : pocketsphinx_recognizer_t) : pocketsphinx_recognizer_t :=
  {| channel := channel r; decoder := decoder r; config := config r;
     properties := properties r; recognition_timeout := v;
     partial_result_timeout := partial_result_timeout r;
     last_result := last_result r; grammar_id := grammar_id r;
     grammar_table := grammar_table r; detector := detector r;
     request := request r; complete_event := complete_event r;
     inprogress_recog := inprogress_recog r;
     stop_response := stop_response r;
     close_requested := close_requested r |}.

Definition set_partial_result_timeout (v : Z)
    (r : pocketsphinx_recognizer_t) : pocketsphinx_recognizer_t :=
  {| channel := channel r; decoder := decoder r; config := config r;
     properties := properties r;
     recognition_timeout := recognition_timeout r;
     partial_result_timeout := v; last_result := last_result r;
     grammar_id := grammar_id r; grammar_table := grammar_table r;
     detector := detector r; request := request r;
     complete_event := complete_event r;
     inprogress_recog := inprogress_recog r;
     stop_response := stop_response r;
     close_requested := close_requested r |}.

Definition set_last_result (v : option string)
    (r : pocketsphinx_recognizer_t) : pocketsphinx_recognizer_t :=
  {| channel := channel r; decoder := decoder r; config := config r;
     properties := properties r;
     recognition_timeout := recognition_timeout r;
     partial_result_timeout := partial_result_timeout r; last_result := v;
     grammar_id := grammar_id r; grammar_table := grammar_table r;
     detector := detector r; request := request r;
     complete_event := complete_event r;
     inprogress_recog := inprogress_recog r;
     stop_response := stop_response r;
     close_requested := close_requested r |}.

Definition set_grammar_id (v : option string)
    (r : pocketsphinx_recognizer_t) : pocketsphinx_recognizer_t :=
  {| channel := channel r; decoder := decoder r; config := config r;
     properties := properties r;
     recognition_timeout := recognition_timeout r;
     partial_result_timeout := partial_result_timeout r;
     last_result := last_result r; grammar_id := v;
     grammar_table := grammar_table r; detector := detector r;
     request := request r; complete_event := complete_event r;
     inprogress_recog := inprogress_recog r;
     stop_response := stop_response r;
     close_requested := close_requested r |}.

Definition set_grammar_table (v : apr_table_t)
    (r : pocketsphinx_recognizer_t) : pocketsphinx_recognizer_t :=
  {| channel := channel r; decoder := decoder r; config := config r;
     properties := properties r;
     recognition_timeout := recognition_timeout r;
     partial_result_timeout := partial_result_timeout r;
     last_result := last_result r; grammar_id := grammar_id r;
     grammar_table := v; detector := detector r; request := request r;
     complete_event := complete_event r;
     inprogress_recog := inprogress_recog r;
     stop_response := stop_response r;
     close_requested := close_requested r |}.

Definition set_detector (v : option mpf_activity_detector_t)
    (r : pocketsphinx_recognizer_t) : pocketsphinx_recognizer_t :=
  {| channel := channel r; decoder := decoder r; config := config r;
     properties := properties r;
     recognition_timeout := recognition_timeout r;
     partial_result_timeout := partial_result_timeout r;
     last_result := last_result r; grammar_id := grammar_id r;
     grammar_table := grammar_table r; detector := v; request := request r;
     complete_event := complete_event r;
     inprogress_recog := inprogress_recog r;
     stop_response := stop_response r;
     close_requested := close_requested r |}.

Definition set_request (v : option mrcp_message_t)
    (r : pocketsphinx_recognizer_t) : pocketsphinx_recognizer_t :=
  {| channel := channel r; decoder := decoder r; config := config r;
     properties := properties r;
     recognition_timeout := recognition_timeout r;
     partial_result_timeout := partial_result_timeout r;
     last_result := last_result r; grammar_id := grammar_id r;
     grammar_table := grammar_table r; detector := detector r; request := v;
     complete_event := complete_event r;
     inprogress_recog := inprogress_recog r;
     stop_response := stop_response r;
     close_requested := close_requested r |}.

Definition set_complete_event (v : option mrcp_message_t)
    (r : pocketsphinx_recognizer_t) : pocketsphinx_recognizer_t :=
  {| channel := channel r; decoder := decoder r; config := config r;
     properties := properties r;
     recognition_timeout := recognition_timeout r;
     partial_result_timeout := partial_result_timeout r;
     last_result := last_result r; grammar_id := grammar_id r;
     grammar_table := grammar_table r; detector := detector r;
     request := request r; complete_event := v;
     inprogress_recog := inprogress_recog r;
     stop_response := stop_response r;
     close_requested := close_requested r |}.

Definition set_inprogress_recog (v : option mrcp_message_t)
    (r : pocketsphinx_recognizer_t) : pocketsphinx_recognizer_t :=
  {| channel := channel r; decoder := decoder r; config := config r;
     properties := properties r;
     recognition_timeout := recognition_timeout r;
     partial_result_timeout := partial_result_timeout r;
     last_result := last_result r; grammar_id := grammar_id r;
     grammar_table := grammar_table r; detector := detector r;
     request := request r; complete_event := complete_event r;
     inprogress_recog := v; stop_response := stop_response r;
     close_requested := close_requested r |}.

Definition set_stop_response (v : option mrcp_message_t)
    (r : pocketsphinx_recognizer_t) : pocketsphinx_recognizer_t :=
  {| channel := channel r; decoder := decoder r; config := config r;
     properties := properties r;
     recognition_timeout := recognition_timeout r;
     partial_result_timeout := partial_result_timeout r;
     last_result := last_result r; grammar_id := grammar_id r;
     grammar_table := grammar_table r; detector := detector r;
     request := request r; complete_event := complete_event r;
     inprogress_recog := inprogress_recog r; stop_response := v;
     close_requested := close_requested r |}.

Definition set_close_requested (v : bool)
    (r : pocketsphinx_recognizer_t) : pocketsphinx_recognizer_t :=
  {| channel := channel r; decoder := decoder r; config := config r;
     properties := properties r;
     recognition_timeout := recognition_timeout r;
     partial_result_timeout := partial_result_timeout r;
     last_result := last_result r; grammar_id := grammar_id r;
     grammar_table := grammar_table r; detector := detector r;
     request := request r; complete_event := complete_event r;
     inprogress_recog := inprogress_recog r;
     stop_response := stop_response r; close_requested := v |}.

Definition mrcp_engine_channel_message_send (r : pocketsphinx_recognizer_t)
    (message : mrcp_message_t) : pocketsphinx_recognizer_t :=
  set_channel {| channel_id := channel_id (channel r);
                 sent := sent (channel r) ++ [message] |} r.

(** The fields [pocketsphinx_engine_recognizer_create] writes.  The
    properties are not written there; they are loaded when the thread
    starts. *)
Definition pocketsphinx_engine_recognizer_create (id : string) :
    pocketsphinx_recognizer_t :=
  {| channel := {| channel_id := id; sent := [] |};
     decoder := None; config := None;
     properties := {| dictionary := EmptyString; model_8k := EmptyString;
                      model_16k := EmptyString;
                      properties_noinput_timeout := 0;
                      properties_recognition_timeout := 0;
                      properties_partial_result_timeout := 0 |};
     recognition_timeout := 0; partial_result_timeout := 0;
     last_result := None; grammar_id := None; grammar_table := [];
     detector := None; request := None; complete_event := None;
     inprogress_recog := None; stop_response := None;
     close_requested := false |}.

Definition pocketsphinx_recognizer_request_process
    (r : pocketsphinx_recognizer_t) (req : mrcp_message_t) :
    pocketsphinx_recognizer_t :=
  set_request (Some req) r.

Definition pocketsphinx_properties_load (r : pocketsphinx_recognizer_t) :
    pocketsphinx_recognizer_t * bool :=
  (set_properties
     {| dictionary := apt_datadir_filepath_get "pocketsphinx/default.dic";
        model_8k := apt_datadir_filepath_get "pocketsphinx/communicator";
        model_16k := apt_datadir_filepath_get "pocketsphinx/wsj1";
        properties_noinput_timeout := 5000;
        properties_recognition_timeout := 15000;
        properties_partial_result_timeout := 100 |} r, true).

Definition pocketsphinx_decoder_init (fs : gmap string string)
    (r : pocketsphinx_recognizer_t) (grammar : string) :
    pocketsphinx_recognizer_t * bool :=
  let cfg :=
    cmd_ln_init (config r)
      [("-samprate", "8000"); ("-hmm", model_8k (properties r));
       ("-jsgf", grammar); ("-dict", dictionary (properties r));
       ("-frate", "50"); ("-silprob", "0.005")]%string in
  let r := set_config cfg r in
  match cfg with
  | None => (r, false)
  | Some c =>
      let '(r, ok) :=
        match decoder r with
        | Some d =>
            let '(d', status) := ps_reinit fs d c in
            (set_decoder (Some d') r, negb (status <? 0)%Z)
        | None =>
            match ps_init fs c with
            | Some d => (set_decoder (Some d) r, true)
            | None => (set_decoder None r, false)
            end
        end in
      if ok then
        match detector r with
        | Some _ => (r, true)
        | None =>
            (set_detector
               (Some (mpf_activity_detector_level_set
                        mpf_activity_detector_create 50)) r, true)
        end
      else (r, false)
  end.

Definition pocketsphinx_grammars_clear (fs : gmap string string)
    (r : pocketsphinx_recognizer_t) :
    gmap string string * pocketsphinx_recognizer_t :=
  (fold_left (fun fs e => apr_file_remove fs (snd e)) (grammar_table r) fs,
   set_grammar_table (apr_table_clear (grammar_table r)) r).

Definition grammar_file_name (r : pocketsphinx_recognizer_t)
    (content_id : string) : string :=
  ("pocketsphinx/" ++ channel_id (channel r) ++ "-" ++ content_id
     ++ ".gram")%string.

(** The result is the data directory, the recognizer, the response as the
    function leaves it, and the value returned. *)
Definition pocketsphinx_define_grammar (fs : gmap string string)
    (r : pocketsphinx_recognizer_t) (req response : mrcp_message_t) :
    gmap string string * pocketsphinx_recognizer_t * mrcp_message_t * bool :=
  match mrcp_generic_header_get req with
  | None => (fs, r, response, false)
  | Some generic_header =>
      let content_id :=
        if mrcp_generic_header_property_check req GENERIC_HEADER_CONTENT_ID
        then content_id generic_header else None in
      match content_id with
      | None =>
          (fs, r, set_status_code MRCP_STATUS_CODE_MISSING_PARAM response, false)
      | Some content_id =>
          let grammar :=
            if mrcp_generic_header_property_check req
                 GENERIC_HEADER_CONTENT_LENGTH
            then Some (body req) else None in
          match grammar with
          | Some grammar =>
              let content_type :=
                if mrcp_generic_header_property_check req
                     GENERIC_HEADER_CONTENT_TYPE
                then content_type generic_header else None in
              match content_type with
              | None =>
                  (fs, r,
                   set_status_code MRCP_STATUS_CODE_MISSING_PARAM response,
                   false)
              | Some content_type =>
                  match strstr content_type "jsgf" with
                  | None =>
                      (fs, r,
                       set_status_code
                         MRCP_STATUS_CODE_UNSUPPORTED_PARAM_VALUE response,
                       false)
                  | Some _ =>
                      let grammar_file_path :=
                        apt_datadir_filepath_get
                          (grammar_file_name r content_id) in
                      if negb (apr_file_open fs grammar_file_path) then
                        (fs, r,
                         set_status_code MRCP_STATUS_CODE_METHOD_FAILED
                           response,
                         false)
                      else
                        let fs :=
                          file_write (file_create fs grammar_file_path)
                            grammar_file_path grammar in
                        let '(r, ok) :=
                          pocketsphinx_decoder_init fs r grammar_file_path in
                        if ok then
                          let r := set_grammar_id (Some content_id) r in
                          let r :=
                            set_grammar_table
                              (apr_table_setn (grammar_table r) content_id
                                 grammar_file_path) r in
                          (fs, mrcp_engine_channel_message_send r response,
                           response, true)
                        else
                          (apr_file_remove fs grammar_file_path, r,
                           set_status_code MRCP_STATUS_CODE_METHOD_FAILED
                             response,
                           false)
                  end
              end
          | None =>
              let '(fs, r) :=
                match apr_table_get (grammar_table r) content_id with
                | Some grammar_file_path =>
                    (apr_file_remove fs grammar_file_path,
                     set_grammar_table
                       (apr_table_unset (grammar_table r) content_id) r)
                | None => (fs, r)
                end in
              (fs, mrcp_engine_channel_message_send r response, response, true)
          end
      end
  end.

Definition pocketsphinx_recognize (r : pocketsphinx_recognizer_t)
    (req response : mrcp_message_t) :
    pocketsphinx_recognizer_t * mrcp_message_t * bool :=
  match decoder r with
  | None =>
      (r, set_status_code MRCP_STATUS_CODE_METHOD_FAILED response, false)
  | Some d =>
      let '(d', status) := ps_start_utt d in
      let r := set_decoder (Some d') r in
      if (status <? 0)%Z then
        (r, set_status_code MRCP_STATUS_CODE_METHOD_FAILED response, false)
      else
        let response :=
          set_request_state MRCP_REQUEST_STATE_INPROGRESS response in
        let r := mrcp_engine_channel_message_send r response in
        let r :=
          set_detector (mpf_activity_detector_reset <$> detector r) r in
        let r := set_recognition_timeout 0 r in
        let r := set_partial_result_timeout 0 r in
        let r := set_last_result None r in
        let r := set_complete_event None r in
        let r := set_inprogress_recog (Some req) r in
        (r, response, true)
  end.

Definition pocketsphinx_stop (r : pocketsphinx_recognizer_t)
    (req response : mrcp_message_t) : pocketsphinx_recognizer_t * bool :=
  match inprogress_recog r with
  | Some _ => (set_stop_response (Some response) r, true)
  | None => (mrcp_engine_channel_message_send r response, true)
  end.

(** The result document of a final hypothesis. *)
Definition nlsml_result (grammar : option string) (text : option string) :
    string :=
  ("<?xml version=" ++ dquote ++ "1.0" ++ dquote ++ "?>" ++ newline
   ++ "<result grammar=" ++ dquote ++ fmt_s grammar ++ dquote ++ ">" ++ newline
   ++ "  <interpretation grammar=" ++ dquote ++ fmt_s grammar ++ dquote
   ++ " confidence=" ++ dquote ++ "99" ++ dquote ++ ">" ++ newline
   ++ "    <input mode=" ++ dquote ++ "speech" ++ dquote ++ ">"
   ++ fmt_s text ++ "</input>" ++ newline
   ++ "  </interpretation>" ++ newline
   ++ "</result>" ++ newline)%string.

Definition ps_get_hyp_of (d : option ps_decoder_t) : option string :=
  d ≫= ps_get_hyp.

(** The event is changed in place by the C function; the result carries
    it as the function leaves it, next to the recognizer and the value
    returned. *)
Definition pocketsphinx_recognition_complete (r : pocketsphinx_recognizer_t)
    (complete_event : mrcp_message_t) :
    pocketsphinx_recognizer_t * mrcp_message_t * bool :=
  match inprogress_recog r with
  | None => (r, complete_event, false)
  | Some _ =>
      let r := set_inprogress_recog None r in
      let r := set_decoder (ps_end_utt <$> decoder r) r in
      match stop_response r with
      | Some response =>
          let r := set_stop_response None r in
          if bool_decide (close_requested r = false) then
            (mrcp_engine_channel_message_send r response, complete_event, true)
          else (r, complete_event, true)
      | None =>
          let recog_header := recog_header complete_event in
          let '(r, complete_event) :=
            if bool_decide (completion_cause recog_header
                            = RECOGNIZER_COMPLETION_CAUSE_SUCCESS) then
              match ps_get_hyp_of (decoder r) with
              | Some (String c rest as hyp) =>
                  let r := set_last_result (Some hyp) r in
                  let complete_event :=
                    set_body (nlsml_result (grammar_id r) (last_result r))
                      complete_event in
                  let generic_header :=
                    mrcp_generic_header_prepare complete_event in
                  let generic_header :=
                    {| content_id := content_id generic_header;
                       content_type := Some "application/x-nlsml"%string;
                       generic_properties :=
                         property_add GENERIC_HEADER_CONTENT_TYPE
                           (generic_properties generic_header) |} in
                  (r, set_generic_header (Some generic_header) complete_event)
              | _ =>
                  (r,
                   set_recog_header
                     {| completion_cause :=
                          RECOGNIZER_COMPLETION_CAUSE_NO_MATCH;
                        recog_properties := recog_properties recog_header |}
                     complete_event)
              end
            else (r, complete_event) in
          (mrcp_engine_channel_message_send r complete_event,
           complete_event, true)
      end
  end.

Definition pocketsphinx_request_dispatch (fs : gmap string string)
    (r : pocketsphinx_recognizer_t) (req : mrcp_message_t) :
    gmap string string * pocketsphinx_recognizer_t :=
  let response := mrcp_response_create req in
  let '(fs, r, response, processed) :=
    match method_id req with
    | MethodId RECOGNIZER_DEFINE_GRAMMAR =>
        pocketsphinx_define_grammar fs r req response
    | MethodId RECOGNIZER_RECOGNIZE =>
        let '(r, response, processed) :=
          pocketsphinx_recognize r req response in
        (fs, r, response, processed)
    | MethodId RECOGNIZER_STOP =>
        let '(r, processed) := pocketsphinx_stop r req response in
        (fs, r, response, processed)
    | _ => (fs, r, response, false)
    end in
  if bool_decide (processed = false) then
    (fs, mrcp_engine_channel_message_send r response)
  else (fs, r).

(** ** The audio stream *)

Definition pocketsphinx_start_of_input (r : pocketsphinx_recognizer_t) :
    pocketsphinx_recognizer_t * bool :=
  match inprogress_recog r with
  | None => (r, false)
  | Some inprogress =>
      match mrcp_event_create inprogress RECOGNIZER_START_OF_INPUT with
      | None => (r, false)
      | Some message =>
          let message :=
            set_request_state MRCP_REQUEST_STATE_INPROGRESS message in
          (mrcp_engine_channel_message_send r message, true)
      end
  end.

Definition pocketsphinx_end_of_input (r : pocketsphinx_recognizer_t)
    (cause : mrcp_recog_completion_cause_e) :
    pocketsphinx_recognizer_t * bool :=
  match inprogress_recog r with
  | None => (r, false)
  | Some inprogress =>
      match mrcp_event_create inprogress RECOGNIZER_RECOGNITION_COMPLETE with
      | None => (r, false)
      | Some message =>
          let message :=
            set_recog_header
              {| completion_cause := cause;
                 recog_properties :=
                   property_add RECOGNIZER_HEADER_COMPLETION_CAUSE
                     (recog_properties (recog_header message)) |} message in
          let message :=
            set_request_state MRCP_REQUEST_STATE_COMPLETE message in
          (set_complete_event (Some message) r, true)
      end
  end.

(** The samples given to the decoder are the buffer of the codec frame and
    half its size in bytes. *)
Definition feed_decoder (r : pocketsphinx_recognizer_t) (frame : mpf_frame_t) :
    pocketsphinx_recognizer_t :=
  match decoder r with
  | Some d =>
      let '(d', _) :=
        ps_process_raw d (codec_frame_buffer frame)
          (codec_frame_size frame / 2)%Z in
      set_decoder (Some d') r
  | None => r
  end.

Definition check_partial_result (r : pocketsphinx_recognizer_t) :
    pocketsphinx_recognizer_t :=
  let r :=
    set_partial_result_timeout
      (size_add (partial_result_timeout r) CODEC_FRAME_TIME_BASE) r in
  if (partial_result_timeout r
      =? properties_partial_result_timeout (properties r))%Z then
    let r := set_partial_result_timeout 0 r in
    match ps_get_hyp_of (decoder r) with
    | Some (String c rest as hyp) =>
        if bool_decide (last_result r = None
                        ∨ last_result r ≠ Some hyp) then
          set_last_result (Some hyp) r
        else r
    | _ => r
    end
  else r.

Definition run_detector (r : pocketsphinx_recognizer_t) (frame : mpf_frame_t) :
    pocketsphinx_recognizer_t * mpf_detector_event_e :=
  match detector r with
  | Some d =>
      let '(d', det_event) := mpf_activity_detector_process d frame in
      (set_detector (Some d') r, det_event)
  | None => (r, MPF_DETECTOR_EVENT_NONE)
  end.

Definition pocketsphinx_stream_write (r : pocketsphinx_recognizer_t)
    (frame : mpf_frame_t) : pocketsphinx_recognizer_t * bool :=
  match inprogress_recog r, complete_event r with
  | Some _, None =>
      match stop_response r with
      | Some _ =>
          (fst (pocketsphinx_end_of_input r
                  RECOGNIZER_COMPLETION_CAUSE_SUCCESS), true)
      | None =>
          let r := feed_decoder r frame in
          let r := check_partial_result r in
          let r :=
            set_recognition_timeout
              (size_add (recognition_timeout r) CODEC_FRAME_TIME_BASE) r in
          if (recognition_timeout r
              =? properties_recognition_timeout (properties r))%Z then
            (fst (pocketsphinx_end_of_input r
                    RECOGNIZER_COMPLETION_CAUSE_RECOGNITION_TIMEOUT), true)
          else
            let '(r, det_event) := run_detector r frame in
            match det_event with
            | MPF_DETECTOR_EVENT_ACTIVITY =>
                (fst (pocketsphinx_start_of_input r), true)
            | MPF_DETECTOR_EVENT_INACTIVITY =>
                (fst (pocketsphinx_end_of_input r
                        RECOGNIZER_COMPLETION_CAUSE_SUCCESS), true)
            | MPF_DETECTOR_EVENT_NOINPUT =>
                (fst (pocketsphinx_end_of_input r
                        RECOGNIZER_COMPLETION_CAUSE_NO_INPUT_TIMEOUT), true)
            | MPF_DETECTOR_EVENT_NONE => (r, true)
            end
      end
  | _, _ => (r, true)
  end.

(** The recognizer at the point where [pocketsphinx_stream_write] compares
    the recognition timer with its threshold. *)
Definition at_timeout_check (r : pocketsphinx_recognizer_t)
    (frame : mpf_frame_t) : pocketsphinx_recognizer_t :=
  let r := check_partial_result (feed_decoder r frame) in
  set_recognition_timeout
    (size_add (recognition_timeout r) CODEC_FRAME_TIME_BASE) r.

(** ** The recognition thread *)

(** What the other threads do while the recognition thread waits: the
    signaling thread stores a request or asks for the close, the media
    thread writes a frame. *)
Inductive peer_action :=
  | RequestProcess (req : mrcp_message_t)
  | StreamWrite (frame : mpf_frame_t)
  | CloseRequest.

Definition peer_step (r : pocketsphinx_recognizer_t) (a : peer_action) :
    pocketsphinx_recognizer_t :=
  match a with
  | RequestProcess req => pocketsphinx_recognizer_request_process r req
  | StreamWrite frame => fst (pocketsphinx_stream_write r frame)
  | CloseRequest => set_close_requested true r
  end.

(** The body of the loop of [pocketsphinx_recognizer_run] after the wait
    returns.  The event slot keeps pointing at the event, which
    [pocketsphinx_recognition_complete] changes in place. *)
Definition recognizer_run_iteration (fs : gmap string string)
    (r : pocketsphinx_recognizer_t) :
    gmap string string * pocketsphinx_recognizer_t :=
  let '(fs, r) :=
    match request r with
    | Some req => pocketsphinx_request_dispatch fs (set_request None r) req
    | None => (fs, r)
    end in
  match complete_event r with
  | Some ev =>
      let '(r, ev, _) := pocketsphinx_recognition_complete r ev in
      (fs, set_complete_event (Some ev) r)
  | None => (fs, r)
  end.

(** The loop: one turn per wake-up, each after the peers have acted; it
    ends after the turn that sees [close_requested].  The second
    component tells whether the loop has ended, the third is what is left
    of the wake-ups. *)
Fixpoint recognizer_run_loop (fs : gmap string string)
    (r : pocketsphinx_recognizer_t) (turns : list (list peer_action)) :
    gmap string string * pocketsphinx_recognizer_t * bool
    * list (list peer_action) :=
  match turns with
  | [] => (fs, r, false, [])
  | turn :: rest =>
      let r := fold_left peer_step turn r in
      let '(fs, r) := recognizer_run_iteration fs r in
      if bool_decide (close_requested r = false) then
        recognizer_run_loop fs r rest
      else (fs, r, true, rest)
  end.

(** What the thread does after the loop, given what the peers do during
    its last wait. *)
Definition recognizer_run_exit (fs : gmap string string)
    (r : pocketsphinx_recognizer_t) (turn : list peer_action) :
    gmap string string * pocketsphinx_recognizer_t :=
  let r :=
    match inprogress_recog r with
    | Some inprogress =>
        let r := set_stop_response (Some inprogress) r in
        let r := fold_left peer_step turn r in
        match complete_event r with
        | Some ev =>
            let '(r, ev, _) := pocketsphinx_recognition_complete r ev in
            set_complete_event (Some ev) r
        | None => r
        end
    | None => r
    end in
  let '(fs, r) := pocketsphinx_grammars_clear fs r in
  (fs, set_decoder None r).

(** [pocketsphinx_recognizer_run]: the thread from its start until it has
    used up the wake-ups or has exited. *)
Definition pocketsphinx_recognizer_run (fs : gmap string string)
    (r : pocketsphinx_recognizer_t) (turns : list (list peer_action)) :
    gmap string string * pocketsphinx_recognizer_t :=
  let '(r, _) := pocketsphinx_properties_load r in
  let '(fs, r, ended, rest) := recognizer_run_loop fs r turns in
  if ended then
    recognizer_run_exit fs r
      (match rest with turn :: _ => turn | [] => [] end)
  else (fs, r).

(** The recognizer while its thread loops: created, its properties loaded,
    and the given wake-ups handled. *)
Definition recognizer_after (id : string) (fs : gmap string string)
    (turns : list (list peer_action)) : pocketsphinx_recognizer_t :=
  snd (fst (fst (recognizer_run_loop fs
                   (fst (pocketsphinx_properties_load
                           (pocketsphinx_engine_recognizer_create id)))
                   turns))).

(** The audio stream over several frames with the thread asleep. *)
Definition stream_write_frames (r : pocketsphinx_recognizer_t)
    (frames : list mpf_frame_t) : pocketsphinx_recognizer_t :=
  fold_left (fun r frame => fst (pocketsphinx_stream_write r frame)) frames r.

(** What the plugin relies on when it passes the detector and the decoder
    on without a test: a decoder comes with a detector and an active
    grammar, and a recognition in progress comes with a decoder. *)
Definition recognizer_ready (r : pocketsphinx_recognizer_t) : Prop :=
  (is_Some (decoder r) → is_Some (detector r) ∧ is_Some (grammar_id r))
  ∧ (is_Some (inprogress_recog r) → is_Some (decoder r)).

(** The recognition timer stays on the grid of the frame duration and
    does not pass a threshold that lies on the grid: once it is equal to
    the threshold the completion has been raised or the recognition is
    over. *)
Definition recognition_timer_on_grid (r : pocketsphinx_recognizer_t) : Prop :=
  let threshold := properties_recognition_timeout (properties r) in
  (0 < threshold ≤ APR_SIZE_MAX)%Z
  ∧ (threshold mod CODEC_FRAME_TIME_BASE = 0)%Z
  ∧ (0 ≤ recognition_timeout r ≤ threshold)%Z
  ∧ (recognition_timeout r mod CODEC_FRAME_TIME_BASE = 0)%Z
  ∧ (recognition_timeout r = threshold →
     is_Some (complete_event r) ∨ inprogress_recog r = None).

(** The partial-result timer stays on the grid of the frame duration and
    below its threshold. *)
Definition partial_timer_on_grid (r : pocketsphinx_recognizer_t) : Prop :=
  let threshold := properties_partial_result_timeout (properties r) in
  (0 < threshold ≤ APR_SIZE_MAX)%Z
  ∧ (threshold mod CODEC_FRAME_TIME_BASE = 0)%Z
  ∧ (0 ≤ partial_result_timeout r < threshold)%Z
  ∧ (partial_result_timeout r mod CODEC_FRAME_TIME_BASE = 0)%Z.

(** A STOP response is stored only for a recognition in progress. *)
Definition stop_awaits_completion (r : pocketsphinx_recognizer_t) : Prop :=
  is_Some (stop_response r) → is_Some (inprogress_recog r).

(** ** Reading the channel *)

Definition is_response_to (req m : mrcp_message_t) : bool :=
  bool_decide (message_type m = MRCP_MESSAGE_TYPE_RESPONSE
               ∧ method_id m = method_id req
               ∧ request_id m = request_id req).

Definition is_event (e : mrcp_recognizer_event_id) (m : mrcp_message_t) : bool :=
  bool_decide (message_type m = MRCP_MESSAGE_TYPE_EVENT
               ∧ method_id m = EventId e).

(** The messages sent between two states of the channel. *)
Definition sent_since (r r' : pocketsphinx_recognizer_t) : list mrcp_message_t :=
  drop (List.length (sent (channel r))) (sent (channel r')).

End Recognizer.

(** ** A simulated environment

    A decoder, a detector and a directory layout simple enough to run the
    channel on concrete requests and frames.  The decoder compiles a
    grammar file only when it starts with the JSGF header, accepts every
    request to start an utterance, and hears a fixed word once it has been
    fed samples.  The detector calls a frame speech when one of its samples
    is not zero. *)
Module Sim.

Record decoder_t := {
  grammar_path : string;
  in_utterance : bool;
  heard : Z
}.

Definition jsgf_path (cfg : list (string * string)) : option string :=
  snd <$> List.find (fun e => String.eqb (fst e) "-jsgf") cfg.

Definition compile (fs : gmap string string) (cfg : list (string * string)) :
    option decoder_t :=
  path ← jsgf_path cfg;
  text ← fs !! path;
  if String.prefix "#JSGF" text
  then Some {| grammar_path := path; in_utterance := false; heard := 0 |}
  else None.

#[global] Instance pocketsphinx : PocketSphinx := {|
  cmd_ln_t := list (string * string);
  ps_decoder_t := decoder_t;
  cmd_ln_init := fun _ args => Some args;
  ps_init := compile;
  ps_reinit := fun fs d cfg =>
    match compile fs cfg with
    | Some d' => (d', 0%Z)
    | None => (d, (-1)%Z)
    end;
  ps_start_utt := fun d =>
    ({| grammar_path := grammar_path d; in_utterance := true; heard := 0 |},
     0%Z);
  ps_end_utt := fun d =>
    {| grammar_path := grammar_path d; in_utterance := false;
       heard := heard d |};
  ps_process_raw := fun d _ n =>
    ({| grammar_path := grammar_path d; in_utterance := in_utterance d;
        heard := (heard d + n)%Z |}, 0%Z);
  ps_get_hyp := fun d =>
    if (heard d =? 0)%Z then None else Some "yes"%string
|}.

Definition is_speech (frame : mpf_frame_t) : bool :=
  existsb (fun s => negb (s =? 0)%Z) (codec_frame_buffer frame).

#[global] Instance detector : ActivityDetector := {|
  mpf_activity_detector_t := bool;
  mpf_activity_detector_create := false;
  mpf_activity_detector_level_set := fun d _ => d;
  mpf_activity_detector_reset := fun _ => false;
  mpf_activity_detector_process := fun speaking frame =>
    if is_speech frame then
      (true,
       if speaking then MPF_DETECTOR_EVENT_NONE
       else MPF_DETECTOR_EVENT_ACTIVITY)
    else
      (false,
       if speaking then MPF_DETECTOR_EVENT_INACTIVITY
       else MPF_DETECTOR_EVENT_NONE)
|}.

#[global] Instance dir_layout : DirLayout := {|
  apt_datadir_filepath_get := fun name => ("/data/" ++ name)%string;
  apr_file_open := fun _ _ => true
|}.

Definition request_of (m : mrcp_recognizer_method_id) (id : Z)
    (hdr : option mrcp_generic_header_t) (text : string) : mrcp_message_t :=
  {| message_type := MRCP_MESSAGE_TYPE_REQUEST;
     method_id := MethodId m;
     request_id := id;
     status_code := MRCP_STATUS_CODE_SUCCESS;
     request_state := MRCP_REQUEST_STATE_PENDING;
     generic_header := hdr;
     recog_header := empty_recog_header;
     body := text |}.

Definition grammar_header (id type : option string)
    (props : list mrcp_generic_header_id) : mrcp_generic_header_t :=
  {| content_id := id; content_type := type; generic_properties := props |}.

Definition all_fields : list mrcp_generic_header_id :=
  [GENERIC_HEADER_CONTENT_ID; GENERIC_HEADER_CONTENT_TYPE;
   GENERIC_HEADER_CONTENT_LENGTH].

(** DEFINE-GRAMMAR for the grammar [digits], well formed. *)
Definition define_digits : mrcp_message_t :=
  request_of RECOGNIZER_DEFINE_GRAMMAR 1
    (Some (grammar_header (Some "digits") (Some "application/x-jsgf")
             all_fields))%string
    "#JSGF V1.0; grammar digits; public <d> = yes | no;"%string.

(** DEFINE-GRAMMAR with a body the decoder cannot compile. *)
Definition define_broken : mrcp_message_t :=
  request_of RECOGNIZER_DEFINE_GRAMMAR 1
    (Some (grammar_header (Some "digits") (Some "application/x-jsgf")
             all_fields))%string
    "grammar digits"%string.

Definition recognize (id : Z) : mrcp_message_t :=
  request_of RECOGNIZER_RECOGNIZE id None EmptyString.

Definition stop (id : Z) : mrcp_message_t :=
  request_of RECOGNIZER_STOP id None EmptyString.

Definition silence : mpf_frame_t := {| codec_frame_buffer := [0; 0; 0; 0]%Z |}.
Definition speech : mpf_frame_t := {| codec_frame_buffer := [7; 1; 0; 2]%Z |}.

(** A channel whose thread has loaded its properties. *)
Definition opened : pocketsphinx_recognizer_t :=
  fst (pocketsphinx_properties_load
         (pocketsphinx_engine_recognizer_create "ch1")).

(** The channel after the thread has handled the given wake-ups, starting
    with an empty data directory. *)
Definition after (turns : list (list peer_action)) :
    gmap string string * pocketsphinx_recognizer_t :=
  pocketsphinx_recognizer_run ∅
    (pocketsphinx_engine_recognizer_create "ch1") turns.

(** The channel with the grammar defined. *)
Definition defined : pocketsphinx_recognizer_t :=
  snd (after [[RequestProcess define_digits]]).

(** The channel with the grammar defined and a recognition in progress. *)
Definition recognizing : pocketsphinx_recognizer_t :=
  snd (after [[RequestProcess define_digits]; [RequestProcess (recognize 2)]]).

(** The channel with a STOP response stored during that recognition. *)
Definition stopping : pocketsphinx_recognizer_t :=
  snd (after [[RequestProcess define_digits]; [RequestProcess (recognize 2)];
              [RequestProcess (stop 3)]]).

(** DEFINE-GRAMMAR without any generic header. *)
Definition define_bare : mrcp_message_t :=
  request_of RECOGNIZER_DEFINE_GRAMMAR 1 None "#JSGF V1.0;"%string.

(** DEFINE-GRAMMAR with a generic header that has no content-id. *)
Definition define_anonymous : mrcp_message_t :=
  request_of RECOGNIZER_DEFINE_GRAMMAR 1
    (Some (grammar_header None (Some "application/x-jsgf")
             [GENERIC_HEADER_CONTENT_TYPE; GENERIC_HEADER_CONTENT_LENGTH]))%string
    "#JSGF V1.0;"%string.

(** DEFINE-GRAMMAR with a content-id and an SRGS body. *)
Definition define_srgs : mrcp_message_t :=
  request_of RECOGNIZER_DEFINE_GRAMMAR 1
    (Some (grammar_header (Some "digits") (Some "application/srgs+xml")
             all_fields))%string
    "<grammar/>"%string.

(** DEFINE-GRAMMAR with an SRGS body and no content-id. *)
Definition define_srgs_anonymous : mrcp_message_t :=
  request_of RECOGNIZER_DEFINE_GRAMMAR 1
    (Some (grammar_header None (Some "application/srgs+xml")
             [GENERIC_HEADER_CONTENT_TYPE; GENERIC_HEADER_CONTENT_LENGTH]))%string
    "<grammar/>"%string.

Definition digits_path : string := "/data/pocketsphinx/ch1-digits.gram".

(** The recognition after a frame of speech and a frame of silence: the
    completion event is in the slot and the thread has not yet run. *)
Definition heard_yes : pocketsphinx_recognizer_t :=
  stream_write_frames recognizing [speech; silence].


(** The recognition with the STOP response stored, after one more frame
    and the request to close the channel: the completion event is in the
    slot and the thread has not yet run. *)
Definition closing : pocketsphinx_recognizer_t :=
  fold_left peer_step [StreamWrite silence; CloseRequest] stopping.

(** The data directory once the grammar has been defined. *)
Definition data : gmap string string :=
  fst (after [[RequestProcess define_digits]]).

(** The event [pocketsphinx_end_of_input] raises for a request. *)
Definition completion (req : mrcp_message_t)
    (cause : mrcp_recog_completion_cause_e) : mrcp_message_t :=
  {| message_type := MRCP_MESSAGE_TYPE_EVENT;
     method_id := EventId RECOGNIZER_RECOGNITION_COMPLETE;
     request_id := request_id req;
     status_code := MRCP_STATUS_CODE_SUCCESS;
     request_state := MRCP_REQUEST_STATE_COMPLETE;
     generic_header := None;
     recog_header :=
       {| completion_cause := cause;
          recog_properties := [RECOGNIZER_HEADER_COMPLETION_CAUSE] |};
     body := EmptyString |}.

(** A decoder that compiles grammars as [pocketsphinx] does and refuses
    every request to start an utterance. *)
Definition refusing : PocketSphinx := {|
  cmd_ln_t := list (string * string);
  ps_decoder_t := decoder_t;
  cmd_ln_init := fun _ args => Some args;
  ps_init := compile;
  ps_reinit := fun fs d cfg =>
    match compile fs cfg with
    | Some d' => (d', 0%Z)
    | None => (d, (-1)%Z)
    end;
  ps_start_utt := fun d => (d, (-1)%Z);
  ps_end_utt := fun d =>
    {| grammar_path := grammar_path d; in_utterance := false;
       heard := heard d |};
  ps_process_raw := fun d _ n =>
    ({| grammar_path := grammar_path d; in_utterance := in_utterance d;
        heard := (heard d + n)%Z |}, 0%Z);
  ps_get_hyp := fun d =>
    if (heard d =? 0)%Z then None else Some "yes"%string
|}.

(** The channel of the refusing decoder with the grammar defined. *)
Definition defined_refusing : pocketsphinx_recognizer_t (H := refusing) :=
  snd (pocketsphinx_recognizer_run (H := refusing) ∅
         (pocketsphinx_engine_recognizer_create (H := refusing) "ch1")
         [[RequestProcess define_digits]]).

(** A directory layout whose grammar files cannot be opened for writing. *)
Definition read_only : DirLayout := {|
  apt_datadir_filepath_get := fun name => ("/data/" ++ name)%string;
  apr_file_open := fun _ _ => false
|}.

(** DEFINE-GRAMMAR that names the grammar [digits] and carries no body. *)
Definition unload_digits : mrcp_message_t :=
  request_of RECOGNIZER_DEFINE_GRAMMAR 6
    (Some (grammar_header (Some "digits") None [GENERIC_HEADER_CONTENT_ID]))%string
    EmptyString.

(** DEFINE-GRAMMAR with a content-id and a body but no content type. *)
Definition define_untyped : mrcp_message_t :=
  request_of RECOGNIZER_DEFINE_GRAMMAR 1
    (Some (grammar_header (Some "digits") None
             [GENERIC_HEADER_CONTENT_ID; GENERIC_HEADER_CONTENT_LENGTH]))%string
    "#JSGF V1.0;"%string.

Definition digits_header : mrcp_generic_header_t :=
  grammar_header (Some "digits") (Some "application/x-jsgf") all_fields.

Definition get_result (id : Z) : mrcp_message_t :=
  request_of RECOGNIZER_GET_RESULT id None EmptyString.

(** The recognition after a frame of speech. *)
Definition speaking : pocketsphinx_recognizer_t :=
  stream_write_frames recognizing [speech].

(** The channel after the close has been requested during the
    recognition and the loop of the thread has ended. *)
Definition closed_while_recognizing : pocketsphinx_recognizer_t :=
  snd (fst (fst (recognizer_run_loop data recognizing [[CloseRequest]]))).

End Sim.

(** * Properties of the channel *)

Section Properties.

Context `{PocketSphinx} `{ActivityDetector} `{DirLayout}.

Implicit Types (r : pocketsphinx_recognizer_t) (fs : gmap string string).
Implicit Types (req response ev : mrcp_message_t) (frame : mpf_frame_t).

(** ** What the audio thread raises *)

Lemma end_of_input_raises r q cause :
  inprogress_recog r = Some q →
  pocketsphinx_end_of_input r cause
  = (set_complete_event
       (Some (set_request_state MRCP_REQUEST_STATE_COMPLETE
                (set_recog_header
                   {| completion_cause := cause;
                      recog_properties := [RECOGNIZER_HEADER_COMPLETION_CAUSE] |}
                   {| message_type := MRCP_MESSAGE_TYPE_EVENT;
                      method_id := EventId RECOGNIZER_RECOGNITION_COMPLETE;
                      request_id := request_id q;
                      status_code := MRCP_STATUS_CODE_SUCCESS;
                      request_state := MRCP_REQUEST_STATE_COMPLETE;
                      generic_header := None;
                      recog_header := empty_recog_header;
                      body := EmptyString |}))) r, true).
Proof.
  intros Hq. unfold pocketsphinx_end_of_input. rewrite Hq. reflexivity.
Qed.

Lemma end_of_input_event r cause r' :
  pocketsphinx_end_of_input r cause = (r', true) →
  ∃ ev, complete_event r' = Some ev
        ∧ completion_cause (recog_header ev) = cause
        ∧ is_event RECOGNIZER_RECOGNITION_COMPLETE ev = true
        ∧ body ev = EmptyString
        ∧ generic_header ev = None.
Proof.
  unfold pocketsphinx_end_of_input.
  destruct (inprogress_recog r) as [q|]; [|discriminate].
  simpl. intros [= <-]. eexists. simpl. repeat split; reflexivity.
Qed.

(** ** Frames outside a recognition *)

Lemma stream_write_idle r frame :
  inprogress_recog r = None ∨ complete_event r ≠ None →
  pocketsphinx_stream_write r frame = (r, true).
Proof.
  intros Hidle. unfold pocketsphinx_stream_write.
  destruct (inprogress_recog r) as [q|]; [|reflexivity].
  destruct (complete_event r) as [ev|]; [reflexivity|].
  destruct Hidle as [Hq|Hev]; [discriminate|]. by destruct Hev.
Qed.


(** C10.  A frame that arrives when no recognition is in progress, or when
    a completion event is already waiting in the slot, leaves the whole
    recognizer as it is (timers, last result, detector, decoder, grammar
    table, slots, markers and the messages sent), and the callback returns
    TRUE. *)
Theorem stream_write_outside_recognition r frame :
  inprogress_recog r = None ∨ complete_event r ≠ None →
  pocketsphinx_stream_write r frame = (r, true)
  ∧ sent_since r (fst (pocketsphinx_stream_write r frame)) = [].
Proof.
  intros Hidle. rewrite stream_write_idle by exact Hidle. split; [reflexivity|].
  unfold sent_since. simpl. apply drop_all.
Qed.

(** ** RECOGNIZE *)

(** C4.  The dispatch of a RECOGNIZE request.  Without a decoder, or when
    the decoder refuses to start an utterance, the one message sent is a
    response to the request whose status is method-failed and whose
    request state is complete, and nothing else of the channel changes
    (the decoder apart, which has been asked): no recognition is recorded,
    the timers, the last result, the detector and the event slot stay.
    Otherwise the one message sent is the response with status success and
    request state in-progress, the detector is reset, both timers are
    zero, the last result is cleared, the event slot is empty and the
    request is the recognition in progress. *)
Theorem recognize_dispatch fs r req :
  method_id req = MethodId RECOGNIZER_RECOGNIZE →
  let response := mrcp_response_create req in
  let failed := set_status_code MRCP_STATUS_CODE_METHOD_FAILED response in
  let started := set_request_state MRCP_REQUEST_STATE_INPROGRESS response in
  let rejected r0 r' :=
    r' = mrcp_engine_channel_message_send r0 failed
    ∧ sent (channel r') = sent (channel r) ++ [failed]
    ∧ status_code failed = MRCP_STATUS_CODE_METHOD_FAILED
    ∧ request_state failed = MRCP_REQUEST_STATE_COMPLETE
    ∧ message_type failed = MRCP_MESSAGE_TYPE_RESPONSE
    ∧ request_id failed = request_id req
    ∧ inprogress_recog r' = inprogress_recog r
    ∧ recognition_timeout r' = recognition_timeout r
    ∧ partial_result_timeout r' = partial_result_timeout r
    ∧ last_result r' = last_result r
    ∧ detector r' = detector r
    ∧ complete_event r' = complete_event r in
  match decoder r with
  | None =>
      ∃ r', pocketsphinx_request_dispatch fs r req = (fs, r')
            ∧ rejected r r'
  | Some d =>
      if (snd (ps_start_utt d) <? 0)%Z then
        ∃ r', pocketsphinx_request_dispatch fs r req = (fs, r')
              ∧ rejected (set_decoder (Some (fst (ps_start_utt d))) r) r'
      else
        ∃ r', pocketsphinx_request_dispatch fs r req = (fs, r')
              ∧ sent (channel r') = sent (channel r) ++ [started]
              ∧ status_code started = MRCP_STATUS_CODE_SUCCESS
              ∧ request_state started = MRCP_REQUEST_STATE_INPROGRESS
              ∧ detector r' = mpf_activity_detector_reset <$> detector r
              ∧ recognition_timeout r' = 0%Z
              ∧ partial_result_timeout r' = 0%Z
              ∧ last_result r' = None
              ∧ complete_event r' = None
              ∧ inprogress_recog r' = Some req
  end.
Proof.
  intros Hm. unfold pocketsphinx_request_dispatch, pocketsphinx_recognize.
  rewrite Hm. cbv zeta.
  destruct (decoder r) as [d|];
    [|eexists; split; [reflexivity|]; repeat split; reflexivity].
  destruct (ps_start_utt d) as [d' status]; simpl.
  destruct (status <? 0)%Z;
    [eexists; split; [reflexivity|]; repeat split; reflexivity|].
  eexists. split; [reflexivity|]. simpl. repeat split; reflexivity.
Qed.

(** ** The completion of a recognition *)

(** C7.  A completion event with cause success, processed while a
    recognition is in progress and no STOP response is stored.  The
    hypothesis is read from the decoder after the utterance has been
    ended.  When it is absent or empty the event goes out with nothing but
    its cause changed, to no-match: no body, no content type, and the last
    result stays.  When it is not empty the event goes out with the result
    document as its body: the XML declaration, a result element and an
    interpretation element that both name the active grammar (the text
    (null) when there is none), the confidence 99, and an input element of
    mode speech that holds the hypothesis, each on the lines and with the
    indentation of the format of the plugin; its content type is
    application/x-nlsml, its cause stays success, and the hypothesis is the
    last result.  In both cases the event is the one message sent.  The
    events the audio thread raises have an empty body and no generic
    header. *)
Theorem recognition_complete_success r ev q :
  inprogress_recog r = Some q →
  stop_response r = None →
  completion_cause (recog_header ev) = RECOGNIZER_COMPLETION_CAUSE_SUCCESS →
  (∃ r' ev',
      pocketsphinx_recognition_complete r ev = (r', ev', true)
      ∧ sent (channel r') = sent (channel r) ++ [ev']
      ∧ inprogress_recog r' = None
      ∧ match ps_get_hyp_of (ps_end_utt <$> decoder r) with
        | Some (String c rest as text) =>
            let q := String "034"%char EmptyString in
            let nl := String "010"%char EmptyString in
            let grammar :=
              match grammar_id r with
              | Some id => id
              | None => "(null)"%string
              end in
            body ev'
            = ("<?xml version=" ++ q ++ "1.0" ++ q ++ "?>" ++ nl
               ++ "<result grammar=" ++ q ++ grammar ++ q ++ ">" ++ nl
               ++ "  <interpretation grammar=" ++ q ++ grammar ++ q
               ++ " confidence=" ++ q ++ "99" ++ q ++ ">" ++ nl
               ++ "    <input mode=" ++ q ++ "speech" ++ q ++ ">"
               ++ text ++ "</input>" ++ nl
               ++ "  </interpretation>" ++ nl
               ++ "</result>" ++ nl)%string
            ∧ body ev' = nlsml_result (grammar_id r) (Some text)
            ∧ (∃ g, generic_header ev' = Some g
                    ∧ content_type g = Some "application/x-nlsml"%string
                    ∧ GENERIC_HEADER_CONTENT_TYPE ∈ generic_properties g)
            ∧ recog_header ev' = recog_header ev
            ∧ method_id ev' = method_id ev
            ∧ request_id ev' = request_id ev
            ∧ last_result r' = Some text
        | _ =>
            ev' = set_recog_header
                    {| completion_cause := RECOGNIZER_COMPLETION_CAUSE_NO_MATCH;
                       recog_properties := recog_properties (recog_header ev) |}
                    ev
            ∧ completion_cause (recog_header ev')
              = RECOGNIZER_COMPLETION_CAUSE_NO_MATCH
            ∧ body ev' = body ev
            ∧ generic_header ev' = generic_header ev
            ∧ method_id ev' = method_id ev
            ∧ request_id ev' = request_id ev
            ∧ last_result r' = last_result r
        end)
  ∧ (∀ r0 cause r1,
       pocketsphinx_end_of_input r0 cause = (r1, true) →
       ∃ m, complete_event r1 = Some m
            ∧ body m = EmptyString ∧ generic_header m = None).
Proof.
  intros Hq Hstop Hcause. split.
  - unfold pocketsphinx_recognition_complete. rewrite Hq. simpl.
    rewrite Hstop, Hcause. simpl.
    destruct (ps_get_hyp_of (ps_end_utt <$> decoder r)) as [[|c rest]|];
      simpl; eexists _, _; (split; [reflexivity|]); simpl;
      repeat split; try reflexivity.
    eexists. split; [reflexivity|]. simpl. split; [reflexivity|].
    unfold property_add. case_bool_decide as Hin; [exact Hin|].
    apply elem_of_app. right. apply list_elem_of_singleton. reflexivity.
  - intros r0 cause r1 Hraise.
    destruct (end_of_input_event _ _ _ Hraise) as (m & Hm & _ & _ & Hb & Hg).
    eauto.
Qed.

(** ** The recognition timeout *)

Lemma feed_decoder_shape r frame :
  feed_decoder r frame = set_decoder (decoder (feed_decoder r frame)) r.
Proof.
  unfold feed_decoder. destruct (decoder r) as [d|] eqn:Hd.
  - destruct (ps_process_raw d _ _) as [d' status]. reflexivity.
  - destruct r; simpl in *; subst; reflexivity.
Qed.

Lemma check_partial_result_shape r :
  check_partial_result r
  = set_last_result (last_result (check_partial_result r))
      (set_partial_result_timeout
         (partial_result_timeout (check_partial_result r)) r).
Proof.
  unfold check_partial_result. simpl.
  destruct (_ =? _)%Z; simpl.
  - destruct (ps_get_hyp_of (decoder r)) as [[|c rest]|]; simpl;
      try (destruct r; reflexivity).
    case_bool_decide; destruct r; reflexivity.
  - destruct r; reflexivity.
Qed.

Lemma run_detector_shape r frame :
  fst (run_detector r frame)
  = set_detector (detector (fst (run_detector r frame))) r.
Proof.
  unfold run_detector. destruct (detector r) as [d|] eqn:Hd.
  - destruct (mpf_activity_detector_process d frame) as [d' e]. reflexivity.
  - destruct r; simpl in *; subst; reflexivity.
Qed.



Lemma at_timeout_check_fields r frame :
  properties (at_timeout_check r frame) = properties r
  ∧ recognition_timeout (at_timeout_check r frame)
    = size_add (recognition_timeout r) CODEC_FRAME_TIME_BASE
  ∧ detector (at_timeout_check r frame) = detector r
  ∧ channel (at_timeout_check r frame) = channel r
  ∧ inprogress_recog (at_timeout_check r frame) = inprogress_recog r.
Proof.
  unfold at_timeout_check.
  rewrite check_partial_result_shape, feed_decoder_shape. simpl. tauto.
Qed.

Lemma stream_write_processing r frame q :
  inprogress_recog r = Some q →
  complete_event r = None →
  stop_response r = None →
  pocketsphinx_stream_write r frame
  = let r1 := at_timeout_check r frame in
    if (recognition_timeout r1
        =? properties_recognition_timeout (properties r1))%Z then
      (fst (pocketsphinx_end_of_input r1
              RECOGNIZER_COMPLETION_CAUSE_RECOGNITION_TIMEOUT), true)
    else
      let '(r2, det_event) := run_detector r1 frame in
      match det_event with
      | MPF_DETECTOR_EVENT_ACTIVITY =>
          (fst (pocketsphinx_start_of_input r2), true)
      | MPF_DETECTOR_EVENT_INACTIVITY =>
          (fst (pocketsphinx_end_of_input r2
                  RECOGNIZER_COMPLETION_CAUSE_SUCCESS), true)
      | MPF_DETECTOR_EVENT_NOINPUT =>
          (fst (pocketsphinx_end_of_input r2
                  RECOGNIZER_COMPLETION_CAUSE_NO_INPUT_TIMEOUT), true)
      | MPF_DETECTOR_EVENT_NONE => (r2, true)
      end.
Proof.
  intros Hq Hev Hstop. unfold pocketsphinx_stream_write.
  rewrite Hq, Hev, Hstop. reflexivity.
Qed.


(** ** The pointers the plugin does not test *)

Ltac some_solver :=
  repeat split; simpl; intros;
  try match goal with
      | Hs : is_Some None |- _ => destruct (is_Some_None Hs)
      end;
  try done; try (by eexists); eauto.

Lemma recognizer_ready_created id :
  recognizer_ready (pocketsphinx_engine_recognizer_create id).
Proof. split; simpl; intros Hs; destruct (is_Some_None Hs). Qed.

Lemma recognizer_ready_decoder_init fs r grammar :
  recognizer_ready r →
  let r' := fst (pocketsphinx_decoder_init fs r grammar) in
  (is_Some (decoder r) → is_Some (decoder r'))
  ∧ (is_Some (decoder r') → is_Some (detector r')
     ∨ snd (pocketsphinx_decoder_init fs r grammar) = false)
  ∧ (is_Some (detector r) → is_Some (detector r'))
  ∧ (snd (pocketsphinx_decoder_init fs r grammar) = false →
     is_Some (decoder r') → is_Some (decoder r))
  ∧ grammar_id r' = grammar_id r
  ∧ inprogress_recog r' = inprogress_recog r.
Proof.
  intros [Hdec Hin]. unfold pocketsphinx_decoder_init.
  destruct (cmd_ln_init _ _) as [c|]; simpl; [|by eauto 10].
  destruct (decoder r) as [d|] eqn:Hd.
  - destruct (ps_reinit fs d c) as [d' status]. simpl.
    destruct (status <? 0)%Z; simpl; [by eauto 10|].
    destruct (detector r) as [det|] eqn:Hdet; simpl; rewrite ?Hdet;
      some_solver.
  - destruct (ps_init fs c) as [d|]; simpl.
    + destruct (detector r) as [det|] eqn:Hdet; simpl; rewrite ?Hdet;
        some_solver.
    + rewrite ?Hd. some_solver.
Qed.

Lemma recognizer_ready_dispatch fs r req :
  recognizer_ready r →
  recognizer_ready (snd (pocketsphinx_request_dispatch fs r req)).
Proof.
  intros Hr. pose proof Hr as [Hdec Hin].
  unfold pocketsphinx_request_dispatch.
  destruct (method_id req) as [[]|e]; simpl; try exact Hr.
  - unfold pocketsphinx_define_grammar, mrcp_generic_header_get.
    destruct (generic_header req) as [hdr|]; [|exact Hr].
    destruct (if mrcp_generic_header_property_check req
                   GENERIC_HEADER_CONTENT_ID
              then content_id hdr else None) as [id|]; [|exact Hr].
    destruct (mrcp_generic_header_property_check req
                GENERIC_HEADER_CONTENT_LENGTH).
    + destruct (if mrcp_generic_header_property_check req
                     GENERIC_HEADER_CONTENT_TYPE
                then content_type hdr else None) as [type|]; [|exact Hr].
      destruct (strstr type "jsgf") as [suffix|]; [|exact Hr].
      destruct (apr_file_open fs _); simpl; [|exact Hr].
      match goal with
      | |- context [pocketsphinx_decoder_init ?w r ?p] =>
          pose proof (recognizer_ready_decoder_init w r p Hr) as Hinit;
          destruct (pocketsphinx_decoder_init w r p) as [r1 ok]
      end.
      simpl in Hinit. destruct Hinit as (Hkeep & Hnew & Hdet & Hfail & Hgid & Hq).
      destruct ok; simpl.
      * split; simpl.
        -- intros Hd. split; [|by eexists].
           destruct (Hnew Hd) as [?|?]; [done|discriminate].
        -- rewrite Hq. intros Hq'. apply Hkeep, Hin, Hq'.
      * split; simpl.
        -- intros Hd. specialize (Hfail eq_refl Hd).
           destruct (Hdec Hfail) as [Hdet' Hgid'].
           rewrite Hgid. split; [by apply Hdet|exact Hgid'].
        -- rewrite Hq. intros Hq'. apply Hkeep, Hin, Hq'.
    + destruct (apr_table_get (grammar_table r) id); simpl; exact Hr.
  - unfold pocketsphinx_recognize.
    destruct (decoder r) as [d|] eqn:Hd; simpl; [|exact Hr].
    destruct (ps_start_utt d) as [d' status].
    destruct (Hdec (mk_is_Some _ _ eq_refl)) as [[det Hdet] Hgid].
    destruct (status <? 0)%Z; simpl; split; simpl; rewrite ?Hdet;
      by eauto.
  - unfold pocketsphinx_stop.
    destruct (inprogress_recog r) as [q|] eqn:Hq; simpl; split; simpl;
      rewrite ?Hq; by eauto.
Qed.

Lemma recognizer_ready_complete r ev :
  recognizer_ready r →
  recognizer_ready (fst (fst (pocketsphinx_recognition_complete r ev))).
Proof.
  intros Hr. pose proof Hr as [Hdec Hin].
  unfold pocketsphinx_recognition_complete.
  destruct (inprogress_recog r) as [q|]; simpl; [|exact Hr].
  assert (Hready : ∀ r', detector r' = detector r →
                         grammar_id r' = grammar_id r →
                         decoder r' = ps_end_utt <$> decoder r →
                         inprogress_recog r' = None →
                         recognizer_ready r').
  { intros r' Hdet Hgid Hd Hq. split.
    - rewrite Hdet, Hgid, Hd. intros Hsome. apply Hdec.
      by apply fmap_is_Some in Hsome.
    - rewrite Hq. intros Hs. destruct (is_Some_None Hs). }
  destruct (stop_response r) as [response|]; simpl.
  - destruct (close_requested r); simpl; by apply Hready.
  - destruct (bool_decide _); simpl; [|by apply Hready].
    destruct (ps_get_hyp_of _) as [[|c rest]|]; simpl; by apply Hready.
Qed.

Lemma recognizer_ready_stream_write r frame :
  recognizer_ready r →
  recognizer_ready (fst (pocketsphinx_stream_write r frame)).
Proof.
  intros Hr. pose proof Hr as [Hdec Hin].
  assert (Hready : ∀ r', (is_Some (detector r') ↔ is_Some (detector r)) →
                         grammar_id r' = grammar_id r →
                         (is_Some (decoder r') ↔ is_Some (decoder r)) →
                         inprogress_recog r' = inprogress_recog r →
                         recognizer_ready r').
  { intros r' Hdet Hgid Hd Hq. split.
    - rewrite Hdet, Hgid, Hd. exact Hdec.
    - rewrite Hq, Hd. exact Hin. }
  assert (Hraise : ∀ r' cause,
             recognizer_ready r' →
             recognizer_ready (fst (pocketsphinx_end_of_input r' cause))).
  { intros r' cause Hr'. unfold pocketsphinx_end_of_input.
    destruct (inprogress_recog r') as [q|] eqn:Hq'; simpl; [|exact Hr'].
    destruct Hr' as [Hd' Hq'']. split; simpl; assumption. }
  assert (Hstart : ∀ r',
             recognizer_ready r' →
             recognizer_ready (fst (pocketsphinx_start_of_input r'))).
  { intros r' Hr'. unfold pocketsphinx_start_of_input.
    destruct (inprogress_recog r') as [q|] eqn:Hq'; simpl; [|exact Hr'].
    destruct Hr' as [Hd' Hq'']. split; simpl; assumption. }
  unfold pocketsphinx_stream_write.
  destruct (inprogress_recog r) as [q|] eqn:Hq; [|exact Hr].
  destruct (complete_event r) as [ev|]; [exact Hr|].
  destruct (stop_response r) as [response|]; simpl; [by apply Hraise|].
  fold (at_timeout_check r frame).
  assert (Hcheck : recognizer_ready (at_timeout_check r frame)).
  { unfold at_timeout_check.
    rewrite check_partial_result_shape, (feed_decoder_shape r frame).
    apply Hready; simpl; try done.
    unfold feed_decoder. destruct (decoder r) as [d|] eqn:Hd;
      [|by rewrite Hd].
    destruct (ps_process_raw d _ _) as [d' status]. simpl.
    split; intros _; by eexists. }
  destruct (_ =? _)%Z; simpl; [by apply Hraise|].
  assert (Hrun : recognizer_ready (fst (run_detector (at_timeout_check r frame)
                                          frame))).
  { unfold run_detector.
    destruct (detector (at_timeout_check r frame)) as [det|] eqn:Hdet;
      [|exact Hcheck].
    destruct (mpf_activity_detector_process det frame) as [det' e]. simpl.
    destruct Hcheck as [Hd' Hq']. split; simpl; [|exact Hq'].
    intros Hsome. split; [by eexists|]. by apply Hd'. }
  destruct (run_detector _ frame) as [r2 e]. simpl in Hrun.
  destruct e; simpl; by auto.
Qed.

Lemma recognizer_ready_peer_step r a :
  recognizer_ready r → recognizer_ready (peer_step r a).
Proof.
  intros Hr. destruct a as [req|frame|]; simpl.
  - exact Hr.
  - by apply recognizer_ready_stream_write.
  - exact Hr.
Qed.

Lemma recognizer_ready_iteration fs r :
  recognizer_ready r → recognizer_ready (snd (recognizer_run_iteration fs r)).
Proof.
  intros Hr. unfold recognizer_run_iteration.
  assert (Hdispatch :
            recognizer_ready
              (snd (match request r with
                    | Some req =>
                        pocketsphinx_request_dispatch fs (set_request None r) req
                    | None => (fs, r)
                    end))).
  { destruct (request r) as [req|]; [|exact Hr].
    by apply recognizer_ready_dispatch. }
  destruct (match request r with Some _ => _ | None => _ end) as [fs1 r1].
  simpl in Hdispatch.
  destruct (complete_event r1) as [ev|]; [|exact Hdispatch].
  pose proof (recognizer_ready_complete r1 ev Hdispatch) as Hdone.
  destruct (pocketsphinx_recognition_complete r1 ev) as [[r2 ev'] ret].
  exact Hdone.
Qed.

(** The recognizer stays ready during the loop of the thread, whatever the
    peers do between its turns. *)
Lemma recognizer_ready_loop turns : ∀ fs r,
  recognizer_ready r →
  recognizer_ready (snd (fst (fst (recognizer_run_loop fs r turns)))).
Proof.
  induction turns as [|turn turns IH]; intros fs r Hr; [exact Hr|].
  simpl.
  assert (Hturn : recognizer_ready (fold_left peer_step turn r)).
  { clear IH. revert r Hr. induction turn as [|a turn IHt]; intros r Hr;
      [exact Hr|].
    simpl. apply IHt. by apply recognizer_ready_peer_step. }
  pose proof (recognizer_ready_iteration fs _ Hturn) as Hit.
  destruct (recognizer_run_iteration fs (fold_left peer_step turn r))
    as [fs1 r1].
  simpl in Hit. case_bool_decide; [by apply IH|exact Hit].
Qed.

(** ** DEFINE-GRAMMAR *)

Lemma decoder_init_shape fs r grammar :
  ∃ c' d' det',
    fst (pocketsphinx_decoder_init fs r grammar)
    = set_detector det' (set_decoder d' (set_config c' r))
    ∧ (snd (pocketsphinx_decoder_init fs r grammar) = false →
       det' = detector r).
Proof.
  unfold pocketsphinx_decoder_init.
  destruct (cmd_ln_init _ _) as [c|]; simpl.
  - destruct (decoder r) as [d|] eqn:Hd.
    + destruct (ps_reinit fs d c) as [d' status]. simpl.
      destruct (status <? 0)%Z; simpl.
      * exists (Some c), (Some d'), (detector r). by destruct r.
      * destruct (detector r) as [det|] eqn:Hdet; simpl.
        -- exists (Some c), (Some d'), (Some det).
           split; [|done]. destruct r; simpl in *; by subst.
        -- eexists (Some c), (Some d'), _. split; [reflexivity|done].
    + destruct (ps_init fs c) as [d|]; simpl.
      * destruct (detector r) as [det|] eqn:Hdet; simpl.
        -- exists (Some c), (Some d), (Some det).
           split; [|done]. destruct r; simpl in *; by subst.
        -- eexists (Some c), (Some d), _. split; [reflexivity|done].
      * exists (Some c), None, (detector r). by destruct r.
  - exists None, (decoder r), (detector r). by destruct r.
Qed.

(** X28.  A DEFINE-GRAMMAR request whose generic header is there and has
    no content-id (the property is not set, or the buffer is NULL) is
    answered with one response, whose status is missing-param and whose
    request state is complete, and that response is all that changes: the
    grammar table, the active grammar and the data directory stay. *)
Theorem define_grammar_missing_content_id fs r req hdr :
  method_id req = MethodId RECOGNIZER_DEFINE_GRAMMAR →
  generic_header req = Some hdr →
  GENERIC_HEADER_CONTENT_ID ∉ generic_properties hdr
  ∨ content_id hdr = None →
  let answer :=
    set_status_code MRCP_STATUS_CODE_MISSING_PARAM (mrcp_response_create req) in
  pocketsphinx_request_dispatch fs r req
  = (fs, mrcp_engine_channel_message_send r answer)
  ∧ status_code answer = MRCP_STATUS_CODE_MISSING_PARAM
  ∧ request_state answer = MRCP_REQUEST_STATE_COMPLETE
  ∧ message_type answer = MRCP_MESSAGE_TYPE_RESPONSE
  ∧ request_id answer = request_id req
  ∧ sent (channel (mrcp_engine_channel_message_send r answer))
    = sent (channel r) ++ [answer]
  ∧ grammar_table (mrcp_engine_channel_message_send r answer)
    = grammar_table r
  ∧ grammar_id (mrcp_engine_channel_message_send r answer) = grammar_id r.
Proof.
  intros Hm Hhdr Hid. simpl. split; [|repeat split; reflexivity].
  unfold pocketsphinx_request_dispatch, pocketsphinx_define_grammar.
  rewrite Hm. unfold mrcp_generic_header_get, mrcp_generic_header_property_check.
  rewrite Hhdr. case_bool_decide as Hin.
  - destruct Hid as [Hid|Hid]; [done|]. rewrite Hid. reflexivity.
  - reflexivity.
Qed.

(** C9, as corrected.  A DEFINE-GRAMMAR request that has a content-id and
    carries a body whose content type does not contain jsgf is answered
    with the status unsupported-param-value, and that response is all that
    changes: the grammar table, the active grammar and the data directory
    stay. *)
Theorem define_grammar_unsupported_content_type fs r req hdr id type :
  method_id req = MethodId RECOGNIZER_DEFINE_GRAMMAR →
  generic_header req = Some hdr →
  GENERIC_HEADER_CONTENT_ID ∈ generic_properties hdr →
  content_id hdr = Some id →
  GENERIC_HEADER_CONTENT_LENGTH ∈ generic_properties hdr →
  GENERIC_HEADER_CONTENT_TYPE ∈ generic_properties hdr →
  content_type hdr = Some type →
  strstr type "jsgf" = None →
  let answer :=
    set_status_code MRCP_STATUS_CODE_UNSUPPORTED_PARAM_VALUE
      (mrcp_response_create req) in
  pocketsphinx_request_dispatch fs r req
  = (fs, mrcp_engine_channel_message_send r answer)
  ∧ grammar_table (mrcp_engine_channel_message_send r answer)
    = grammar_table r
  ∧ grammar_id (mrcp_engine_channel_message_send r answer) = grammar_id r.
Proof.
  intros Hm Hhdr Hid Hidb Hlen Htype Htypeb Hno. simpl.
  split; [|split; reflexivity].
  unfold pocketsphinx_request_dispatch, pocketsphinx_define_grammar.
  rewrite Hm. unfold mrcp_generic_header_get, mrcp_generic_header_property_check.
  rewrite Hhdr. rewrite !bool_decide_eq_true_2 by assumption.
  rewrite Hidb, Htypeb, Hno. reflexivity.
Qed.

(** C5, as corrected.  A DEFINE-GRAMMAR request whose body has been written
    to its grammar file and for which the initialization of the decoder
    then fails.  The grammar file is gone from the data directory and no
    other file has changed; the one message sent is the response with
    status method-failed; the grammar table, the active grammar, the
    timers, the last result, the detector, the slots, the in-progress
    marker, the stored STOP response and the close flag are as before.
    The configuration and the decoder are whatever the failed
    initialization left. *)
Theorem define_grammar_decoder_failure fs r req hdr id type :
  method_id req = MethodId RECOGNIZER_DEFINE_GRAMMAR →
  generic_header req = Some hdr →
  GENERIC_HEADER_CONTENT_ID ∈ generic_properties hdr →
  content_id hdr = Some id →
  GENERIC_HEADER_CONTENT_LENGTH ∈ generic_properties hdr →
  GENERIC_HEADER_CONTENT_TYPE ∈ generic_properties hdr →
  content_type hdr = Some type →
  strstr type "jsgf" ≠ None →
  let path := apt_datadir_filepath_get (grammar_file_name r id) in
  let written := file_write (file_create fs path) path (body req) in
  apr_file_open fs path = true →
  snd (pocketsphinx_decoder_init written r path) = false →
  ∃ c' d',
    pocketsphinx_request_dispatch fs r req
    = (delete path fs,
       mrcp_engine_channel_message_send
         (set_decoder d' (set_config c' r))
         (set_status_code MRCP_STATUS_CODE_METHOD_FAILED
            (mrcp_response_create req)))
    ∧ written !! path = Some (body req
                              ++ string_drop (String.length (body req))
                                   (default EmptyString (fs !! path)))%string.
Proof.
  intros Hm Hhdr Hid Hidb Hlen Htype Htypeb Hjsgf path written Hopen Hinit.
  destruct (decoder_init_shape written r path) as (c' & d' & det' & Hshape & Hdet).
  specialize (Hdet Hinit). subst det'.
  exists c', d'. split.
  - unfold pocketsphinx_request_dispatch, pocketsphinx_define_grammar.
    rewrite Hm.
    unfold mrcp_generic_header_get, mrcp_generic_header_property_check.
    rewrite Hhdr. rewrite !bool_decide_eq_true_2 by assumption.
    rewrite Hidb, Htypeb.
    destruct (strstr type "jsgf") as [suffix|]; [|done].
    fold path. rewrite Hopen. simpl. fold written.
    destruct (pocketsphinx_decoder_init written r path) as [r1 ok] eqn:Hdi.
    simpl in Hinit, Hshape. subst ok r1. simpl.
    f_equal.
    unfold apr_file_remove, written, file_write, file_create.
    destruct (fs !! path) as [old|] eqn:Hold.
    + rewrite Hold. apply delete_insert_eq.
    + rewrite lookup_insert_eq. by rewrite !delete_insert_eq.
  - unfold written, file_write, file_create.
    destruct (fs !! path) as [old|] eqn:Hold; simpl.
    + rewrite Hold. apply lookup_insert_eq.
    + rewrite lookup_insert_eq. apply lookup_insert_eq.
Qed.

(** ** The timer and the threshold *)

Lemma recognition_timer_on_grid_loaded id :
  recognition_timer_on_grid
    (fst (pocketsphinx_properties_load
            (pocketsphinx_engine_recognizer_create id))).
Proof.
  unfold recognition_timer_on_grid, APR_SIZE_MAX, CODEC_FRAME_TIME_BASE.
  simpl. repeat split; try lia; try reflexivity.
Qed.

Lemma recognition_timer_on_grid_stream_write r frame :
  recognition_timer_on_grid r →
  recognition_timer_on_grid (fst (pocketsphinx_stream_write r frame)).
Proof.
  intros Hr.
  destruct (inprogress_recog r) as [q|] eqn:Hq;
    [|by rewrite stream_write_idle by (by left)].
  destruct (complete_event r) as [ev0|] eqn:Hev;
    [by rewrite stream_write_idle by (right; congruence)|].
  destruct (stop_response r) as [resp|] eqn:Hstop.
  { unfold pocketsphinx_stream_write. rewrite Hq, Hev, Hstop. simpl.
    rewrite (end_of_input_raises r q _ Hq). simpl.
    destruct Hr as (HT & HTg & Hrt & Hg & Hat).
    repeat split; try assumption; try apply HT; try apply Hrt.
    intros _. left. by eexists. }
  rewrite (stream_write_processing r frame q Hq Hev Hstop).
  destruct (at_timeout_check_fields r frame)
    as (Hprops & Htimer & Hdet & Hchan & Hin).
  destruct Hr as (HT & HTg & Hrt & Hg & Hat).
  assert (Hlt : (recognition_timeout r
                 < properties_recognition_timeout (properties r))%Z).
  { destruct (Z.eq_dec (recognition_timeout r)
                (properties_recognition_timeout (properties r))) as [Heq|Hne];
      [|lia].
    destruct (Hat Heq) as [[ev Hsome]|Hnone]; congruence. }
  assert (Hstep : size_add (recognition_timeout r) CODEC_FRAME_TIME_BASE
                  = (recognition_timeout r + 10)%Z
                  ∧ (recognition_timeout r + 10
                     ≤ properties_recognition_timeout (properties r))%Z
                  ∧ ((recognition_timeout r + 10) mod 10 = 0)%Z).
  { unfold size_add, CODEC_FRAME_TIME_BASE, APR_SIZE_MAX in *.
    assert ((recognition_timeout r + 10
             ≤ properties_recognition_timeout (properties r))%Z).
    { pose proof (Z.div_mod (recognition_timeout r) 10 ltac:(lia)) as Hd1.
      pose proof (Z.div_mod (properties_recognition_timeout (properties r))
                    10 ltac:(lia)) as Hd2.
      rewrite Hg in Hd1. rewrite HTg in Hd2. lia. }
    split; [apply Z.mod_small; lia|]. split; [assumption|].
    replace (recognition_timeout r + 10)%Z
      with (recognition_timeout r + 1 * 10)%Z by lia.
    rewrite Z_mod_plus_full. exact Hg. }
  destruct Hstep as (Hadd & Hle & Hgrid).
  cbv zeta. rewrite Hprops, Htimer, Hadd.
  assert (Hkeep : ∀ r',
            properties r' = properties r →
            recognition_timeout r' = (recognition_timeout r + 10)%Z →
            (recognition_timeout r + 10
             = properties_recognition_timeout (properties r) →
             is_Some (complete_event r') ∨ inprogress_recog r' = None)%Z →
            recognition_timer_on_grid r').
  { intros r' Hp' Hrt' Hat'. unfold recognition_timer_on_grid.
    rewrite Hp', Hrt'. unfold CODEC_FRAME_TIME_BASE in *.
    repeat split; try lia; try apply HT; try assumption. }
  destruct (_ =? _)%Z eqn:Hcmp.
  - rewrite <- Hin in Hq. rewrite (end_of_input_raises _ q _ Hq). simpl.
    apply Hkeep; [exact Hprops|exact (eq_trans Htimer Hadd)|].
    intros _. left. by eexists.
  - apply Z.eqb_neq in Hcmp.
    destruct (run_detector _ frame) as [r2 e] eqn:Hrun.
    assert (Hr2 : properties r2 = properties r
                  ∧ recognition_timeout r2 = (recognition_timeout r + 10)%Z).
    { change r2 with (fst (r2, e)). rewrite <- Hrun, run_detector_shape.
      split; [exact Hprops|exact (eq_trans Htimer Hadd)]. }
    destruct Hr2 as [Hp2 Hrt2].
    assert (Hraise : ∀ cause,
              recognition_timer_on_grid
                (fst (pocketsphinx_end_of_input r2 cause))).
    { intros cause. unfold pocketsphinx_end_of_input.
      destruct (inprogress_recog r2); simpl; apply Hkeep; simpl;
        try assumption; intros; lia. }
    destruct e; simpl; try apply Hraise.
    + apply Hkeep; try assumption. intros; lia.
    + unfold pocketsphinx_start_of_input.
      destruct (inprogress_recog r2); simpl; apply Hkeep; simpl;
        try assumption; intros; lia.
Qed.

Lemma recognition_timer_on_grid_dispatch fs r req :
  recognition_timer_on_grid r →
  recognition_timer_on_grid (snd (pocketsphinx_request_dispatch fs r req)).
Proof.
  intros Hr. unfold pocketsphinx_request_dispatch.
  destruct (method_id req) as [[]|e]; simpl; try exact Hr.
  - unfold pocketsphinx_define_grammar, mrcp_generic_header_get.
    destruct (generic_header req) as [hdr|]; [|exact Hr].
    destruct (if mrcp_generic_header_property_check req
                   GENERIC_HEADER_CONTENT_ID
              then content_id hdr else None) as [id|]; [|exact Hr].
    destruct (mrcp_generic_header_property_check req
                GENERIC_HEADER_CONTENT_LENGTH).
    + destruct (if mrcp_generic_header_property_check req
                     GENERIC_HEADER_CONTENT_TYPE
                then content_type hdr else None) as [type|]; [|exact Hr].
      destruct (strstr type "jsgf") as [suffix|]; [|exact Hr].
      destruct (apr_file_open fs _); simpl; [|exact Hr].
      match goal with
      | |- context [pocketsphinx_decoder_init ?w r ?p] =>
          destruct (decoder_init_shape w r p) as (c' & d' & det' & Hshape & _);
          destruct (pocketsphinx_decoder_init w r p) as [r1 ok]
      end.
      simpl in Hshape. subst r1. destruct ok; simpl; exact Hr.
    + destruct (apr_table_get (grammar_table r) id); simpl; exact Hr.
  - unfold pocketsphinx_recognize.
    destruct (decoder r) as [d|]; simpl; [|exact Hr].
    destruct (ps_start_utt d) as [d' status].
    destruct (status <? 0)%Z; simpl; [exact Hr|].
    destruct Hr as (HT & HTg & Hrt & Hg & Hat).
    unfold recognition_timer_on_grid. simpl.
    repeat split; try assumption; try apply HT; try lia; try reflexivity.
    all: intros; lia.
  - unfold pocketsphinx_stop.
    destruct (inprogress_recog r) as [q|] eqn:Hq; simpl; [|exact Hr].
    destruct Hr as (HT & HTg & Hrt & Hg & Hat).
    unfold recognition_timer_on_grid. simpl.
    repeat split; try assumption; try apply HT; try apply Hrt.
Qed.

Lemma recognition_timer_on_grid_complete r ev :
  recognition_timer_on_grid r →
  recognition_timer_on_grid
    (fst (fst (pocketsphinx_recognition_complete r ev))).
Proof.
  intros Hr. unfold pocketsphinx_recognition_complete.
  destruct (inprogress_recog r) as [q|]; simpl; [|exact Hr].
  destruct Hr as (HT & HTg & Hrt & Hg & Hat).
  assert (Hkeep : ∀ r',
            properties r' = properties r →
            recognition_timeout r' = recognition_timeout r →
            inprogress_recog r' = None →
            recognition_timer_on_grid r').
  { intros r' Hp' Hrt' Hq'. unfold recognition_timer_on_grid.
    rewrite Hp', Hrt'.
    repeat split; try assumption; try apply HT; try apply Hrt.
    intros _. by right. }
  destruct (stop_response r) as [response|]; simpl.
  - destruct (close_requested r); simpl; by apply Hkeep.
  - destruct (bool_decide _); simpl; [|by apply Hkeep].
    destruct (ps_get_hyp_of _) as [[|c rest]|]; simpl; by apply Hkeep.
Qed.

(** ** STOP and the completion *)

Lemma stop_dispatch_deferred fs r req q :
  method_id req = MethodId RECOGNIZER_STOP →
  inprogress_recog r = Some q →
  pocketsphinx_request_dispatch fs r req
  = (fs, set_stop_response (Some (mrcp_response_create req)) r).
Proof.
  intros Hm Hq. unfold pocketsphinx_request_dispatch, pocketsphinx_stop.
  rewrite Hm, Hq. reflexivity.
Qed.

Lemma recognition_complete_stopped r ev q response :
  inprogress_recog r = Some q →
  stop_response r = Some response →
  ∃ r', pocketsphinx_recognition_complete r ev = (r', ev, true)
        ∧ sent (channel r')
          = sent (channel r) ++ (if close_requested r then [] else [response])
        ∧ stop_response r' = None
        ∧ inprogress_recog r' = None.
Proof.
  intros Hq Hstop. unfold pocketsphinx_recognition_complete.
  rewrite Hq. simpl. rewrite Hstop. simpl.
  destruct (close_requested r); simpl.
  - eexists. split; [reflexivity|]. simpl. by rewrite app_nil_r.
  - eexists. split; [reflexivity|]. done.
Qed.

(** A stored STOP response does not wait for the detector: the next frame
    raises the completion if none is waiting, and the turn of the thread
    that follows sends the response, unless the channel is being closed. *)
Lemma stored_stop_released_by_next_frame fs r q response frame :
  inprogress_recog r = Some q →
  stop_response r = Some response →
  request r = None →
  close_requested r = false →
  let r' :=
    snd (recognizer_run_iteration fs
           (fst (pocketsphinx_stream_write r frame))) in
  sent (channel r') = sent (channel r) ++ [response]
  ∧ inprogress_recog r' = None
  ∧ stop_response r' = None.
Proof.
  intros Hq Hstop Hreq Hclose.
  assert (Hturn : ∀ r1 ev,
            inprogress_recog r1 = Some q →
            stop_response r1 = Some response →
            request r1 = None →
            close_requested r1 = false →
            complete_event r1 = Some ev →
            sent (channel r1) = sent (channel r) →
            let r' := snd (recognizer_run_iteration fs r1) in
            sent (channel r') = sent (channel r) ++ [response]
            ∧ inprogress_recog r' = None
            ∧ stop_response r' = None).
  { intros r1 ev Hq1 Hstop1 Hreq1 Hclose1 Hev1 Hsent1.
    unfold recognizer_run_iteration. rewrite Hreq1, Hev1.
    destruct (recognition_complete_stopped r1 ev q response Hq1 Hstop1)
      as (r2 & Hrun & Hsent & Hnone & Hdone).
    rewrite Hrun. simpl. rewrite Hsent, Hclose1, Hsent1. done. }
  destruct (complete_event r) as [ev|] eqn:Hev.
  - rewrite stream_write_idle by (right; congruence). simpl.
    by apply Hturn with ev.
  - unfold pocketsphinx_stream_write. rewrite Hq, Hev, Hstop.
    rewrite (end_of_input_raises r q _ Hq). simpl fst.
    eapply Hturn; simpl; try eassumption; reflexivity.
Qed.

Lemma recognition_complete_sends_at_most_one r ev :
  ∃ messages,
    sent (channel (fst (fst (pocketsphinx_recognition_complete r ev))))
    = sent (channel r) ++ messages
    ∧ (List.length messages ≤ 1)%nat.
Proof.
  unfold pocketsphinx_recognition_complete.
  destruct (inprogress_recog r) as [q|]; simpl;
    [|exists []; split; [by rewrite app_nil_r|simpl; lia]].
  destruct (stop_response r) as [response|]; simpl.
  - destruct (close_requested r); simpl.
    + exists []. split; [by rewrite app_nil_r|simpl; lia].
    + exists [response]. simpl. split; [reflexivity|lia].
  - destruct (bool_decide _); simpl.
    + destruct (ps_get_hyp_of _) as [[|c rest]|]; simpl;
        (eexists (_ :: nil); simpl; split; [reflexivity|lia]).
    + exists [ev]. simpl. split; [reflexivity|lia].
Qed.

Lemma recognition_complete_false_event r ev :
  inprogress_recog r = None →
  pocketsphinx_recognition_complete r ev = (r, ev, false).
Proof.
  intros Hq. unfold pocketsphinx_recognition_complete. by rewrite Hq.
Qed.

(** C1, as corrected.  A STOP request dispatched while a recognition is in
    progress sends nothing: its response is stored as the STOP response.
    Whenever a completion event is then processed with that response
    stored, the event is not sent and is left as it was; the stored
    response is the one message sent when the close of the channel has not
    been requested, and no message is sent when it has; in both cases the
    stored response and the in-progress marker are cleared.  The
    processing of a completion event sends at most one message, so never a
    STOP response and the event; and once the marker is cleared the event,
    which stays in the slot, is a false event that sends nothing. *)
Theorem stop_deferred_until_completion fs r req q :
  method_id req = MethodId RECOGNIZER_STOP →
  inprogress_recog r = Some q →
  let response := mrcp_response_create req in
  pocketsphinx_request_dispatch fs r req
  = (fs, set_stop_response (Some response) r)
  ∧ sent (channel (set_stop_response (Some response) r)) = sent (channel r)
  ∧ (∀ r1 q1 ev,
       inprogress_recog r1 = Some q1 →
       stop_response r1 = Some response →
       ∃ r2, pocketsphinx_recognition_complete r1 ev = (r2, ev, true)
             ∧ sent (channel r2)
               = sent (channel r1)
                 ++ (if close_requested r1 then [] else [response])
             ∧ stop_response r2 = None
             ∧ inprogress_recog r2 = None)
  ∧ (∀ r1 ev, ∃ messages,
       sent (channel (fst (fst (pocketsphinx_recognition_complete r1 ev))))
       = sent (channel r1) ++ messages
       ∧ (List.length messages ≤ 1)%nat)
  ∧ (∀ r1 ev,
       inprogress_recog r1 = None →
       pocketsphinx_recognition_complete r1 ev = (r1, ev, false)).
Proof.
  intros Hm Hq response. split; [by apply stop_dispatch_deferred with q|].
  split; [reflexivity|]. split; [|split].
  - intros r1 q1 ev Hq1 Hstop. by apply recognition_complete_stopped with q1.
  - apply recognition_complete_sends_at_most_one.
  - apply recognition_complete_false_event.
Qed.

(** ** One response for a request *)

Lemma is_response_to_created req :
  is_response_to req (mrcp_response_create req) = true.
Proof. unfold is_response_to. by apply bool_decide_eq_true_2. Qed.

Lemma is_response_to_status req response c :
  is_response_to req (set_status_code c response)
  = is_response_to req response.
Proof. reflexivity. Qed.

Lemma is_response_to_state req response st :
  is_response_to req (set_request_state st response)
  = is_response_to req response.
Proof. reflexivity. Qed.

Lemma define_grammar_answers fs r req :
  ∃ fs' r' response,
    (let '(fs1, r1, response1, processed) :=
       pocketsphinx_define_grammar fs r req (mrcp_response_create req) in
     if bool_decide (processed = false)
     then (fs1, mrcp_engine_channel_message_send r1 response1)
     else (fs1, r1)) = (fs', r')
    ∧ sent (channel r') = sent (channel r) ++ [response]
    ∧ is_response_to req response = true
    ∧ stop_response r' = stop_response r
    ∧ inprogress_recog r' = inprogress_recog r.
Proof.
  unfold pocketsphinx_define_grammar, mrcp_generic_header_get.
  pose proof (is_response_to_created req) as Hresp.
  destruct (generic_header req) as [hdr|] eqn:Hhdr;
    [|by eexists _, _, _].
  destruct (if mrcp_generic_header_property_check req GENERIC_HEADER_CONTENT_ID
            then content_id hdr else None) as [id|];
    [|by eexists _, _, _].
  destruct (mrcp_generic_header_property_check req
              GENERIC_HEADER_CONTENT_LENGTH).
  - destruct (if mrcp_generic_header_property_check req
                   GENERIC_HEADER_CONTENT_TYPE
              then content_type hdr else None) as [type|];
      [|by eexists _, _, _].
    destruct (strstr type "jsgf") as [suffix|]; [|by eexists _, _, _].
    destruct (apr_file_open fs _); simpl; [|by eexists _, _, _].
    match goal with
    | |- context [pocketsphinx_decoder_init ?w r ?p] =>
        destruct (decoder_init_shape w r p) as (c' & d' & det' & Hshape & _);
        destruct (pocketsphinx_decoder_init w r p) as [r1 ok]
    end.
    simpl in Hshape. subst r1. destruct ok; simpl; by eexists _, _, _.
  - destruct (apr_table_get (grammar_table r) id) as [old|]; simpl;
      by eexists _, _, _.
Qed.

Lemma dispatch_answers fs r req :
  ¬ (method_id req = MethodId RECOGNIZER_STOP ∧ is_Some (inprogress_recog r)) →
  ∃ response,
    sent (channel (snd (pocketsphinx_request_dispatch fs r req)))
    = sent (channel r) ++ [response]
    ∧ is_response_to req response = true
    ∧ stop_response (snd (pocketsphinx_request_dispatch fs r req))
      = stop_response r.
Proof.
  intros Hnot. unfold pocketsphinx_request_dispatch.
  pose proof (is_response_to_created req) as Hresp.
  destruct (method_id req) as [[]|e] eqn:Hm; simpl;
    try by eexists.
  - destruct (define_grammar_answers fs r req)
      as (fs' & r' & response & Heq & Hsent & Hto & Hstop & _).
    rewrite Heq. simpl. eauto.
  - unfold pocketsphinx_recognize.
    destruct (decoder r) as [d|]; simpl; [|by eexists].
    destruct (ps_start_utt d) as [d' status].
    destruct (status <? 0)%Z; simpl; by eexists.
  - unfold pocketsphinx_stop.
    destruct (inprogress_recog r) as [q|] eqn:Hq; simpl; [|by eexists].
    destruct Hnot. split; [reflexivity|]. by eexists.
Qed.

(** C2, as corrected.  The dispatch of a request sends exactly one message,
    a response to that request, unless the request is a STOP and a
    recognition is in progress; then it sends nothing and stores the
    response.  Whenever a completion event is processed with that response
    stored, the response is sent once if the close of the channel has not
    been requested, and is dropped if it has. *)
Theorem dispatch_response_accounting fs r req :
  let response := mrcp_response_create req in
  let r' := snd (pocketsphinx_request_dispatch fs r req) in
  (if bool_decide (method_id req = MethodId RECOGNIZER_STOP
                   ∧ is_Some (inprogress_recog r))
   then sent (channel r') = sent (channel r)
        ∧ stop_response r' = Some response
   else ∃ answer, sent (channel r') = sent (channel r) ++ [answer]
                  ∧ is_response_to req answer = true
                  ∧ stop_response r' = stop_response r)
  ∧ (∀ r1 q1 ev,
       inprogress_recog r1 = Some q1 →
       stop_response r1 = Some response →
       ∃ r2, pocketsphinx_recognition_complete r1 ev = (r2, ev, true)
             ∧ sent (channel r2)
               = sent (channel r1)
                 ++ (if close_requested r1 then [] else [response])
             ∧ stop_response r2 = None).
Proof.
  intros response r'. split.
  - case_bool_decide as Hstop.
    + destruct Hstop as [Hm [q Hq]]. subst r'.
      rewrite (stop_dispatch_deferred fs r req q Hm Hq). done.
    + by apply dispatch_answers.
  - intros r1 q1 ev Hq1 Hstop.
    destruct (recognition_complete_stopped r1 ev q1 response Hq1 Hstop)
      as (r2 & Heq & Hsent & Hnone & _).
    eauto.
Qed.

(** ** A second RECOGNIZE *)

(** C3, as corrected.  The recognizer has one in-progress marker, so at
    most one RECOGNIZE is recorded as in progress.  A RECOGNIZE request is
    answered with exactly one response whatever the marker holds; the
    channel neither queues it nor looks at the marker.  Without a decoder,
    or when the decoder refuses to start an utterance, the response has
    status method-failed and the marker is as before.  Otherwise the
    response has request state in-progress and the request takes the
    marker, also when another recognition held it. *)
Theorem recognize_while_recognizing fs r req :
  method_id req = MethodId RECOGNIZER_RECOGNIZE →
  let r' := snd (pocketsphinx_request_dispatch fs r req) in
  let accepted :=
    match decoder r with
    | Some d => negb (snd (ps_start_utt d) <? 0)%Z
    | None => false
    end in
  ∃ answer,
    sent (channel r') = sent (channel r) ++ [answer]
    ∧ is_response_to req answer = true
    ∧ request r' = request r
    ∧ if accepted then
        answer = set_request_state MRCP_REQUEST_STATE_INPROGRESS
                   (mrcp_response_create req)
        ∧ inprogress_recog r' = Some req
      else
        answer = set_status_code MRCP_STATUS_CODE_METHOD_FAILED
                   (mrcp_response_create req)
        ∧ inprogress_recog r' = inprogress_recog r.
Proof.
  intros Hm. simpl.
  unfold pocketsphinx_request_dispatch, pocketsphinx_recognize.
  rewrite Hm. pose proof (is_response_to_created req) as Hresp.
  destruct (decoder r) as [d|]; simpl; [|by eexists].
  destruct (ps_start_utt d) as [d' status]. simpl.
  destruct (status <? 0)%Z; simpl; by eexists.
Qed.

End Properties.

Lemma stream_write_outside_recognition_witness :
  pocketsphinx_stream_write Sim.opened Sim.speech = (Sim.opened, true)
  ∧ sent_since Sim.opened
      (fst (pocketsphinx_stream_write Sim.opened Sim.speech)) = [].
Proof.
  apply (stream_write_outside_recognition Sim.opened Sim.speech).
  left. reflexivity.
Defined.

(** * Runs of the channel in the simulated environment *)

Lemma recognize_dispatch_witness :
  method_id (Sim.recognize 2) = MethodId RECOGNIZER_RECOGNIZE
  ∧ (∃ r' failed,
       pocketsphinx_request_dispatch ∅ Sim.opened (Sim.recognize 2) = (∅, r')
       ∧ sent (channel r') = sent (channel Sim.opened) ++ [failed]
       ∧ status_code failed = MRCP_STATUS_CODE_METHOD_FAILED
       ∧ request_state failed = MRCP_REQUEST_STATE_COMPLETE
       ∧ inprogress_recog r' = None)
  ∧ (∃ r' failed,
       pocketsphinx_request_dispatch (H := Sim.refusing) Sim.data
         Sim.defined_refusing (Sim.recognize 2)
       = (Sim.data, r')
       ∧ sent (channel r') = sent (channel Sim.defined_refusing) ++ [failed]
       ∧ status_code failed = MRCP_STATUS_CODE_METHOD_FAILED
       ∧ request_state failed = MRCP_REQUEST_STATE_COMPLETE
       ∧ inprogress_recog r' = None)
  ∧ ∃ r' started,
      pocketsphinx_request_dispatch ∅ Sim.defined (Sim.recognize 2) = (∅, r')
      ∧ sent (channel r') = sent (channel Sim.defined) ++ [started]
      ∧ status_code started = MRCP_STATUS_CODE_SUCCESS
      ∧ request_state started = MRCP_REQUEST_STATE_INPROGRESS
      ∧ recognition_timeout r' = 0%Z
      ∧ partial_result_timeout r' = 0%Z
      ∧ last_result r' = None
      ∧ inprogress_recog r' = Some (Sim.recognize 2).
Proof.
  split; [reflexivity|]. split; [|split].
  - pose proof (recognize_dispatch ∅ Sim.opened (Sim.recognize 2) eq_refl)
      as Hthm.
    cbv zeta in Hthm.
    change (decoder Sim.opened) with (@None Sim.decoder_t) in Hthm.
    cbv beta iota in Hthm.
    destruct Hthm
      as (r' & Hrun & _ & Hsent & Hstatus & Hstate & _ & _ & Hq & _).
    exists r', (set_status_code MRCP_STATUS_CODE_METHOD_FAILED
                  (mrcp_response_create (Sim.recognize 2))).
    exact (conj Hrun (conj Hsent (conj Hstatus (conj Hstate Hq)))).
  - pose proof (recognize_dispatch (H := Sim.refusing) Sim.data
                  Sim.defined_refusing (Sim.recognize 2) eq_refl) as Hthm.
    cbv zeta in Hthm.
    change (decoder Sim.defined_refusing)
      with (Some {| Sim.grammar_path := Sim.digits_path;
                    Sim.in_utterance := false; Sim.heard := 0 |}) in Hthm.
    cbv beta iota in Hthm.
    change (snd (ps_start_utt (PocketSphinx := Sim.refusing) _) <? 0)%Z
      with true in Hthm.
    cbv beta iota in Hthm.
    destruct Hthm
      as (r' & Hrun & _ & Hsent & Hstatus & Hstate & _ & _ & Hq & _).
    exists r', (set_status_code MRCP_STATUS_CODE_METHOD_FAILED
                  (mrcp_response_create (Sim.recognize 2))).
    exact (conj Hrun (conj Hsent (conj Hstatus (conj Hstate Hq)))).
  - pose proof (recognize_dispatch ∅ Sim.defined (Sim.recognize 2) eq_refl)
      as Hthm.
    cbv zeta in Hthm.
    change (decoder Sim.defined)
      with (Some {| Sim.grammar_path := Sim.digits_path;
                    Sim.in_utterance := false; Sim.heard := 0 |}) in Hthm.
    cbv beta iota in Hthm.
    change (snd (ps_start_utt (PocketSphinx := Sim.pocketsphinx) _) <? 0)%Z
      with false in Hthm.
    cbv beta iota in Hthm.
    destruct Hthm
      as (r' & Hrun & Hsent & Hstatus & Hstate & _ & Hrt & Hpt & Hlast & _ & Hq).
    exists r', (set_request_state MRCP_REQUEST_STATE_INPROGRESS
                  (mrcp_response_create (Sim.recognize 2))).
    exact (conj Hrun (conj Hsent (conj Hstatus (conj Hstate
             (conj Hrt (conj Hpt (conj Hlast Hq))))))).
Defined.

Lemma recognition_complete_success_witness :
  inprogress_recog Sim.heard_yes = Some (Sim.recognize 2)
  ∧ stop_response Sim.heard_yes = None
  ∧ complete_event Sim.heard_yes
    = Some (Sim.completion (Sim.recognize 2)
              RECOGNIZER_COMPLETION_CAUSE_SUCCESS)
  ∧ (∃ r' ev',
      pocketsphinx_recognition_complete Sim.heard_yes
        (Sim.completion (Sim.recognize 2) RECOGNIZER_COMPLETION_CAUSE_SUCCESS)
      = (r', ev', true)
      ∧ sent (channel r') = sent (channel Sim.heard_yes) ++ [ev']
      ∧ (let q := String "034"%char EmptyString in
         let nl := String "010"%char EmptyString in
         body ev'
         = ("<?xml version=" ++ q ++ "1.0" ++ q ++ "?>" ++ nl
            ++ "<result grammar=" ++ q ++ "digits" ++ q ++ ">" ++ nl
            ++ "  <interpretation grammar=" ++ q ++ "digits" ++ q
            ++ " confidence=" ++ q ++ "99" ++ q ++ ">" ++ nl
            ++ "    <input mode=" ++ q ++ "speech" ++ q ++ ">"
            ++ "yes" ++ "</input>" ++ nl
            ++ "  </interpretation>" ++ nl
            ++ "</result>" ++ nl)%string)
      ∧ String.length (body ev') = 167%nat
      ∧ (∃ g, generic_header ev' = Some g
              ∧ content_type g = Some "application/x-nlsml"%string)
      ∧ completion_cause (recog_header ev')
        = RECOGNIZER_COMPLETION_CAUSE_SUCCESS
      ∧ last_result r' = Some "yes"%string)
  ∧ ∃ r' ev',
      pocketsphinx_recognition_complete Sim.recognizing
        (Sim.completion (Sim.recognize 2) RECOGNIZER_COMPLETION_CAUSE_SUCCESS)
      = (r', ev', true)
      ∧ sent (channel r') = sent (channel Sim.recognizing) ++ [ev']
      ∧ completion_cause (recog_header ev')
        = RECOGNIZER_COMPLETION_CAUSE_NO_MATCH
      ∧ body ev' = EmptyString
      ∧ generic_header ev' = None
      ∧ last_result r' = None.
Proof.
  split; [vm_compute; reflexivity|].
  split; [vm_compute; reflexivity|].
  split; [vm_compute; reflexivity|].
  split.
  - destruct (recognition_complete_success Sim.heard_yes
                (Sim.completion (Sim.recognize 2)
                   RECOGNIZER_COMPLETION_CAUSE_SUCCESS)
                (Sim.recognize 2))
      as [(r' & ev' & Hrun & Hsent & _ & Hhyp) _];
      [vm_compute; reflexivity|vm_compute; reflexivity|reflexivity|].
    change (ps_get_hyp_of (ps_end_utt <$> decoder Sim.heard_yes))
      with (Some "yes"%string) in Hhyp.
    change (grammar_id Sim.heard_yes) with (Some "digits"%string) in Hhyp.
    cbv zeta beta iota in Hhyp.
    destruct Hhyp as (Hbody & _ & (g & Hg & Htype & _) & Hcause & _ & _ & Hlast).
    exists r', ev'.
    split; [exact Hrun|]. split; [exact Hsent|]. split; [exact Hbody|].
    split; [rewrite Hbody; vm_compute; reflexivity|].
    split; [exists g; exact (conj Hg Htype)|].
    split; [rewrite Hcause; reflexivity|exact Hlast].
  - destruct (recognition_complete_success Sim.recognizing
                (Sim.completion (Sim.recognize 2)
                   RECOGNIZER_COMPLETION_CAUSE_SUCCESS)
                (Sim.recognize 2))
      as [(r' & ev' & Hrun & Hsent & _ & Hhyp) _];
      [vm_compute; reflexivity|vm_compute; reflexivity|reflexivity|].
    change (ps_get_hyp_of (ps_end_utt <$> decoder Sim.recognizing))
      with (@None string) in Hhyp.
    cbv zeta beta iota in Hhyp.
    destruct Hhyp as (_ & Hcause & Hbody & Hgen & _ & _ & Hlast).
    exists r', ev'.
    split; [exact Hrun|]. split; [exact Hsent|]. split; [exact Hcause|].
    split; [rewrite Hbody; reflexivity|].
    split; [rewrite Hgen; reflexivity|].
    rewrite Hlast. vm_compute. reflexivity.
Defined.


Lemma stop_deferred_until_completion_witness :
  method_id (Sim.stop 3) = MethodId RECOGNIZER_STOP
  ∧ inprogress_recog Sim.recognizing = Some (Sim.recognize 2)
  ∧ pocketsphinx_request_dispatch ∅ Sim.recognizing (Sim.stop 3)
    = (∅, set_stop_response (Some (mrcp_response_create (Sim.stop 3)))
            Sim.recognizing).
Proof.
  assert (Hq : inprogress_recog Sim.recognizing = Some (Sim.recognize 2))
    by (vm_compute; reflexivity).
  split; [reflexivity|]. split; [exact Hq|].
  apply (stop_deferred_until_completion ∅ Sim.recognizing (Sim.stop 3)
           (Sim.recognize 2) eq_refl Hq).
Defined.

Lemma dispatch_response_accounting_witness :
  inprogress_recog Sim.stopping = Some (Sim.recognize 2)
  ∧ stop_response Sim.stopping = Some (mrcp_response_create (Sim.stop 3))
  ∧ close_requested Sim.stopping = false
  ∧ ∃ r2,
      pocketsphinx_recognition_complete Sim.stopping
        (Sim.completion (Sim.recognize 2) RECOGNIZER_COMPLETION_CAUSE_SUCCESS)
      = (r2,
         Sim.completion (Sim.recognize 2) RECOGNIZER_COMPLETION_CAUSE_SUCCESS,
         true)
      ∧ sent (channel r2)
        = sent (channel Sim.stopping) ++ [mrcp_response_create (Sim.stop 3)].
Proof.
  assert (Hq : inprogress_recog Sim.stopping = Some (Sim.recognize 2))
    by (vm_compute; reflexivity).
  assert (Hstop : stop_response Sim.stopping
                  = Some (mrcp_response_create (Sim.stop 3)))
    by (vm_compute; reflexivity).
  split; [exact Hq|]. split; [exact Hstop|]. split; [vm_compute; reflexivity|].
  destruct (dispatch_response_accounting ∅ Sim.recognizing (Sim.stop 3))
    as [_ Hdone].
  destruct (Hdone Sim.stopping (Sim.recognize 2)
              (Sim.completion (Sim.recognize 2)
                 RECOGNIZER_COMPLETION_CAUSE_SUCCESS) Hq Hstop)
    as (r2 & Hrun & Hsent & _).
  exists r2. split; [exact Hrun|].
  change (close_requested Sim.stopping) with false in Hsent. exact Hsent.
Defined.

Lemma recognize_while_recognizing_witness :
  method_id (Sim.recognize 4) = MethodId RECOGNIZER_RECOGNIZE
  ∧ inprogress_recog Sim.recognizing = Some (Sim.recognize 2)
  ∧ ∃ answer,
      sent (channel (snd (pocketsphinx_request_dispatch ∅ Sim.recognizing
                            (Sim.recognize 4))))
      = sent (channel Sim.recognizing) ++ [answer]
      ∧ answer = set_request_state MRCP_REQUEST_STATE_INPROGRESS
                   (mrcp_response_create (Sim.recognize 4))
      ∧ inprogress_recog (snd (pocketsphinx_request_dispatch ∅ Sim.recognizing
                                 (Sim.recognize 4)))
        = Some (Sim.recognize 4).
Proof.
  split; [reflexivity|]. split; [vm_compute; reflexivity|].
  destruct (recognize_while_recognizing ∅ Sim.recognizing (Sim.recognize 4)
              eq_refl)
    as (answer & Hsent & _ & _ & Hcase).
  change (decoder Sim.recognizing)
    with (Some {| Sim.grammar_path := Sim.digits_path;
                  Sim.in_utterance := true; Sim.heard := 0 |}) in Hcase.
  simpl in Hcase. destruct Hcase as [Hanswer Hq].
  exists answer. repeat split; assumption.
Defined.

Lemma define_grammar_decoder_failure_witness :
  apr_file_open ∅ Sim.digits_path = true
  ∧ snd (pocketsphinx_decoder_init
           (file_write (file_create ∅ Sim.digits_path) Sim.digits_path
              (body Sim.define_broken))
           Sim.opened Sim.digits_path) = false
  ∧ ∃ c' d',
      pocketsphinx_request_dispatch ∅ Sim.opened Sim.define_broken
      = (delete Sim.digits_path ∅,
         mrcp_engine_channel_message_send
           (set_decoder d' (set_config c' Sim.opened))
           (set_status_code MRCP_STATUS_CODE_METHOD_FAILED
              (mrcp_response_create Sim.define_broken))).
Proof.
  split; [reflexivity|]. split; [vm_compute; reflexivity|].
  destruct (define_grammar_decoder_failure ∅ Sim.opened Sim.define_broken
              (Sim.grammar_header (Some "digits"%string)
                 (Some "application/x-jsgf"%string) Sim.all_fields)
              "digits"%string "application/x-jsgf"%string)
    as (c' & d' & Hrun & _).
  - reflexivity.
  - reflexivity.
  - apply (bool_decide_unpack _). vm_compute. exact I.
  - reflexivity.
  - apply (bool_decide_unpack _). vm_compute. exact I.
  - apply (bool_decide_unpack _). vm_compute. exact I.
  - reflexivity.
  - vm_compute. discriminate.
  - reflexivity.
  - vm_compute. reflexivity.
  - exists c', d'. exact Hrun.
Defined.

Lemma define_grammar_missing_content_id_witness :
  method_id Sim.define_anonymous = MethodId RECOGNIZER_DEFINE_GRAMMAR
  ∧ ∃ answer,
      pocketsphinx_request_dispatch Sim.data Sim.defined Sim.define_anonymous
      = (Sim.data, mrcp_engine_channel_message_send Sim.defined answer)
      ∧ status_code answer = MRCP_STATUS_CODE_MISSING_PARAM
      ∧ request_state answer = MRCP_REQUEST_STATE_COMPLETE.
Proof.
  split; [reflexivity|].
  destruct (define_grammar_missing_content_id Sim.data Sim.defined
              Sim.define_anonymous
              (Sim.grammar_header None (Some "application/x-jsgf"%string)
                 [GENERIC_HEADER_CONTENT_TYPE; GENERIC_HEADER_CONTENT_LENGTH])
              eq_refl eq_refl)
    as (Hrun & Hstatus & Hstate & _).
  - right. reflexivity.
  - eexists. exact (conj Hrun (conj Hstatus Hstate)).
Defined.

Lemma define_grammar_unsupported_content_type_witness :
  method_id Sim.define_srgs = MethodId RECOGNIZER_DEFINE_GRAMMAR
  ∧ strstr "application/srgs+xml" "jsgf" = None
  ∧ pocketsphinx_request_dispatch Sim.data Sim.defined Sim.define_srgs
    = (Sim.data,
       mrcp_engine_channel_message_send Sim.defined
         (set_status_code MRCP_STATUS_CODE_UNSUPPORTED_PARAM_VALUE
            (mrcp_response_create Sim.define_srgs))).
Proof.
  split; [reflexivity|]. split; [vm_compute; reflexivity|].
  apply (define_grammar_unsupported_content_type Sim.data Sim.defined
           Sim.define_srgs
           (Sim.grammar_header (Some "digits"%string)
              (Some "application/srgs+xml"%string) Sim.all_fields)
           "digits"%string "application/srgs+xml"%string).
  - reflexivity.
  - reflexivity.
  - apply (bool_decide_unpack _). vm_compute. exact I.
  - reflexivity.
  - apply (bool_decide_unpack _). vm_compute. exact I.
  - apply (bool_decide_unpack _). vm_compute. exact I.
  - reflexivity.
  - vm_compute. reflexivity.
Defined.

(** ** Where the channel departs from the claims as they are written *)

(** C1 as written fails.  A STOP arrives during the recognition and its
    response is stored; the next frame raises the completion; the close of
    the channel is requested before the thread wakes.  The thread then
    processes the completion event and sends nothing: the stored STOP
    response is dropped, not sent. *)
Lemma stop_response_dropped_when_closing :
  inprogress_recog Sim.closing = Some (Sim.recognize 2)
  ∧ stop_response Sim.closing = Some (mrcp_response_create (Sim.stop 3))
  ∧ complete_event Sim.closing
    = Some (Sim.completion (Sim.recognize 2)
              RECOGNIZER_COMPLETION_CAUSE_SUCCESS)
  ∧ inprogress_recog (snd (recognizer_run_iteration Sim.data Sim.closing))
    = None
  ∧ stop_response (snd (recognizer_run_iteration Sim.data Sim.closing)) = None
  ∧ sent (channel (snd (recognizer_run_iteration Sim.data Sim.closing)))
    = sent (channel Sim.closing)
  ∧ mrcp_response_create (Sim.stop 3)
    ∉ sent (channel (snd (recognizer_run_iteration Sim.data Sim.closing))).
Proof.
  repeat (split; [vm_compute; reflexivity|]).
  apply (bool_decide_unpack _). vm_compute. exact I.
Qed.

(** C2 as written fails.  The thread handles DEFINE-GRAMMAR, RECOGNIZE and
    STOP, the channel is closed while the STOP response is stored, and the
    thread runs to its exit.  The first two requests have one response
    each; the STOP request has none. *)
Lemma stop_request_without_response :
  let final :=
    snd (Sim.after [[RequestProcess Sim.define_digits];
                    [RequestProcess (Sim.recognize 2)];
                    [RequestProcess (Sim.stop 3)];
                    [StreamWrite Sim.silence; CloseRequest]]) in
  List.length (List.filter (is_response_to Sim.define_digits)
                 (sent (channel final))) = 1%nat
  ∧ List.length (List.filter (is_response_to (Sim.recognize 2))
                   (sent (channel final))) = 1%nat
  ∧ List.length (List.filter (is_response_to (Sim.stop 3))
                   (sent (channel final))) = 0%nat
  ∧ stop_response final = None
  ∧ decoder final = None.
Proof. vm_compute. repeat split. Qed.

(** C3 as written fails.  A second RECOGNIZE arrives while the first is in
    progress.  It is answered in-progress like the first, it is not kept
    in the request slot, and it takes the in-progress marker.  The
    completion that follows is sent for the second request; no event and
    no further response is ever sent for the first. *)
Lemma second_recognize_replaces_first :
  let doubled :=
    snd (Sim.after [[RequestProcess Sim.define_digits];
                    [RequestProcess (Sim.recognize 2)];
                    [RequestProcess (Sim.recognize 4)]]) in
  let final :=
    snd (Sim.after [[RequestProcess Sim.define_digits];
                    [RequestProcess (Sim.recognize 2)];
                    [RequestProcess (Sim.recognize 4)];
                    [StreamWrite Sim.speech; StreamWrite Sim.silence]]) in
  inprogress_recog Sim.recognizing = Some (Sim.recognize 2)
  ∧ inprogress_recog doubled = Some (Sim.recognize 4)
  ∧ request doubled = None
  ∧ sent (channel doubled)
    = sent (channel Sim.recognizing)
      ++ [set_request_state MRCP_REQUEST_STATE_INPROGRESS
            (mrcp_response_create (Sim.recognize 4))]
  ∧ inprogress_recog final = None
  ∧ List.map request_id
      (List.filter (is_event RECOGNIZER_RECOGNITION_COMPLETE)
         (sent (channel final))) = [4%Z]
  ∧ List.map request_state
      (List.filter (λ m, bool_decide (request_id m = 2%Z))
         (sent (channel final))) = [MRCP_REQUEST_STATE_INPROGRESS].
Proof. vm_compute. repeat split. Qed.

(** C5 as written fails.  The first DEFINE-GRAMMAR of a channel carries a
    body the decoder cannot compile.  The response reports method-failed
    and the grammar file is removed, but the recognizer is not as it was
    with the response sent: its configuration has been replaced. *)
Lemma failed_define_changes_config :
  let answer :=
    set_status_code MRCP_STATUS_CODE_METHOD_FAILED
      (mrcp_response_create Sim.define_broken) in
  let r' := snd (pocketsphinx_request_dispatch ∅ Sim.opened Sim.define_broken) in
  sent (channel r') = [answer]
  ∧ fst (pocketsphinx_request_dispatch ∅ Sim.opened Sim.define_broken)
    !! Sim.digits_path = None
  ∧ config Sim.opened = None
  ∧ is_Some (config r')
  ∧ r' ≠ mrcp_engine_channel_message_send Sim.opened answer.
Proof.
  cbv zeta.
  split; [vm_compute; reflexivity|].
  split; [vm_compute; reflexivity|].
  split; [reflexivity|].
  assert (Hcfg : is_Some (config (snd (pocketsphinx_request_dispatch ∅
                                         Sim.opened Sim.define_broken)))).
  { eexists. vm_compute. reflexivity. }
  split; [exact Hcfg|].
  intros Heq. rewrite Heq in Hcfg. exact (is_Some_None Hcfg).
Qed.

(** C8.  The code on the input where it departs from the claim: a
    DEFINE-GRAMMAR request without a generic header, and so without a
    content-id.  [pocketsphinx_define_grammar] returns at its first test,
    before the test of the content-id and without writing a status, and
    the dispatcher sends the response as it was created: the one message
    sent has the status success, not missing-param.  The grammar table and
    the active grammar stay as they were. *)
Lemma define_without_header_reports_success :
  method_id Sim.define_bare = MethodId RECOGNIZER_DEFINE_GRAMMAR
  ∧ generic_header Sim.define_bare = None
  ∧ mrcp_generic_header_property_check Sim.define_bare
      GENERIC_HEADER_CONTENT_ID = false
  ∧ (∃ answer,
       sent (channel (snd (pocketsphinx_request_dispatch ∅ Sim.opened
                             Sim.define_bare)))
       = [answer]
       ∧ is_response_to Sim.define_bare answer = true
       ∧ status_code answer = MRCP_STATUS_CODE_SUCCESS
       ∧ status_code answer ≠ MRCP_STATUS_CODE_MISSING_PARAM)
  ∧ grammar_table (snd (pocketsphinx_request_dispatch ∅ Sim.opened
                          Sim.define_bare))
    = grammar_table Sim.opened
  ∧ grammar_id (snd (pocketsphinx_request_dispatch ∅ Sim.opened
                       Sim.define_bare))
    = grammar_id Sim.opened.
Proof.
  split; [reflexivity|]. split; [reflexivity|]. split; [reflexivity|].
  split; [|split; vm_compute; reflexivity].
  exists (mrcp_response_create Sim.define_bare).
  split; [vm_compute; reflexivity|]. split; [vm_compute; reflexivity|].
  split; [reflexivity|]. vm_compute. discriminate.
Qed.

(** C9 as written fails.  A DEFINE-GRAMMAR request carries a body whose
    content type does not contain jsgf, and has no content-id: it is
    answered with missing-param, not with unsupported-param-value. *)
Lemma unsupported_type_without_content_id :
  mrcp_generic_header_property_check Sim.define_srgs_anonymous
    GENERIC_HEADER_CONTENT_LENGTH = true
  ∧ (generic_header Sim.define_srgs_anonymous ≫= content_type)
    = Some "application/srgs+xml"%string
  ∧ strstr "application/srgs+xml" "jsgf" = None
  ∧ List.map status_code
      (sent (channel (snd (pocketsphinx_request_dispatch ∅ Sim.opened
                             Sim.define_srgs_anonymous))))
    = [MRCP_STATUS_CODE_MISSING_PARAM].
Proof. vm_compute. repeat split. Qed.

(** ** Further runs *)

(** RECOGNIZE, three frames, STOP, one more frame, and the thread wakes:
    one STOP response and no RECOGNITION-COMPLETE. *)
Example stop_during_recognition :
  let final :=
    snd (Sim.after [[RequestProcess Sim.define_digits];
                    [RequestProcess (Sim.recognize 2)];
                    [StreamWrite Sim.silence; StreamWrite Sim.speech;
                     StreamWrite Sim.speech; RequestProcess (Sim.stop 3)];
                    [StreamWrite Sim.speech]]) in
  List.filter (is_response_to (Sim.stop 3)) (sent (channel final))
  = [mrcp_response_create (Sim.stop 3)]
  ∧ List.filter (is_event RECOGNIZER_RECOGNITION_COMPLETE)
      (sent (channel final)) = []
  ∧ inprogress_recog final = None.
Proof. vm_compute. repeat split. Qed.

(** Frames for which the detector reports none, none, activity, none and
    inactivity: one START-OF-INPUT, then one RECOGNITION-COMPLETE with cause
    success. *)
Example start_of_input_then_completion :
  let final :=
    snd (Sim.after [[RequestProcess Sim.define_digits];
                    [RequestProcess (Sim.recognize 2)];
                    [StreamWrite Sim.silence; StreamWrite Sim.silence;
                     StreamWrite Sim.speech; StreamWrite Sim.speech;
                     StreamWrite Sim.silence]]) in
  List.map (λ m, (method_id m, completion_cause (recog_header m)))
    (List.filter (λ m, bool_decide (message_type m = MRCP_MESSAGE_TYPE_EVENT))
       (sent (channel final)))
  = [(EventId RECOGNIZER_START_OF_INPUT, RECOGNIZER_COMPLETION_CAUSE_COUNT);
     (EventId RECOGNIZER_RECOGNITION_COMPLETE,
      RECOGNIZER_COMPLETION_CAUSE_SUCCESS)].
Proof. vm_compute. reflexivity. Qed.

(** A second STOP during the recognition replaces the stored response of
    the first, which is then never sent. *)
Example second_stop_replaces_first :
  let final :=
    snd (Sim.after [[RequestProcess Sim.define_digits];
                    [RequestProcess (Sim.recognize 2)];
                    [RequestProcess (Sim.stop 3)];
                    [RequestProcess (Sim.stop 5)];
                    [StreamWrite Sim.silence]]) in
  List.filter (is_response_to (Sim.stop 3)) (sent (channel final)) = []
  ∧ List.filter (is_response_to (Sim.stop 5)) (sent (channel final))
    = [mrcp_response_create (Sim.stop 5)]
  ∧ inprogress_recog final = None
  ∧ stop_response final = None.
Proof. vm_compute. repeat split. Qed.

(** A grammar defined again with a body the decoder cannot compile: the
    table still names the file of the first definition, and the file is
    gone. *)
Example failed_redefinition_loses_grammar_file :
  let '(fs, r) :=
    Sim.after [[RequestProcess Sim.define_digits];
               [RequestProcess Sim.define_broken]] in
  Sim.data !! Sim.digits_path = Some (body Sim.define_digits)
  ∧ apr_table_get (grammar_table r) "digits" = Some Sim.digits_path
  ∧ fs !! Sim.digits_path = None.
Proof. vm_compute. repeat split. Qed.

(** * The rest of the plugin *)

(** ** The fields of a message *)

(** Each assignment to a field of a message writes that field and no
    other. *)
Lemma set_status_code_fields c m :
  status_code (set_status_code c m) = c
  ∧ message_type (set_status_code c m) = message_type m
  ∧ method_id (set_status_code c m) = method_id m
  ∧ request_id (set_status_code c m) = request_id m
  ∧ request_state (set_status_code c m) = request_state m
  ∧ generic_header (set_status_code c m) = generic_header m
  ∧ recog_header (set_status_code c m) = recog_header m
  ∧ body (set_status_code c m) = body m.
Proof. repeat split. Qed.

Lemma set_request_state_fields st m :
  request_state (set_request_state st m) = st
  ∧ message_type (set_request_state st m) = message_type m
  ∧ method_id (set_request_state st m) = method_id m
  ∧ request_id (set_request_state st m) = request_id m
  ∧ status_code (set_request_state st m) = status_code m
  ∧ generic_header (set_request_state st m) = generic_header m
  ∧ recog_header (set_request_state st m) = recog_header m
  ∧ body (set_request_state st m) = body m.
Proof. repeat split. Qed.

Lemma set_body_fields b m :
  body (set_body b m) = b
  ∧ message_type (set_body b m) = message_type m
  ∧ method_id (set_body b m) = method_id m
  ∧ request_id (set_body b m) = request_id m
  ∧ status_code (set_body b m) = status_code m
  ∧ request_state (set_body b m) = request_state m
  ∧ generic_header (set_body b m) = generic_header m
  ∧ recog_header (set_body b m) = recog_header m.
Proof. repeat split. Qed.

Lemma set_recog_header_fields h m :
  recog_header (set_recog_header h m) = h
  ∧ message_type (set_recog_header h m) = message_type m
  ∧ method_id (set_recog_header h m) = method_id m
  ∧ request_id (set_recog_header h m) = request_id m
  ∧ status_code (set_recog_header h m) = status_code m
  ∧ request_state (set_recog_header h m) = request_state m
  ∧ generic_header (set_recog_header h m) = generic_header m
  ∧ body (set_recog_header h m) = body m.
Proof. repeat split. Qed.

Lemma set_generic_header_fields g m :
  generic_header (set_generic_header g m) = g
  ∧ message_type (set_generic_header g m) = message_type m
  ∧ method_id (set_generic_header g m) = method_id m
  ∧ request_id (set_generic_header g m) = request_id m
  ∧ status_code (set_generic_header g m) = status_code m
  ∧ request_state (set_generic_header g m) = request_state m
  ∧ recog_header (set_generic_header g m) = recog_header m
  ∧ body (set_generic_header g m) = body m.
Proof. repeat split. Qed.

(** ** Tables, files and strings *)

(** ** Tables and files *)

Lemma strcasecmp_eq_refl a : strcasecmp_eq a a = true.
Proof. unfold strcasecmp_eq. apply String.eqb_refl. Qed.

Lemma strcasecmp_eq_true a b :
  strcasecmp_eq a b = true ↔ string_tolower a = string_tolower b.
Proof. unfold strcasecmp_eq. apply String.eqb_eq. Qed.

Lemma strcasecmp_eq_other a b c :
  strcasecmp_eq a b = true →
  strcasecmp_eq b c = false →
  strcasecmp_eq a c = false.
Proof.
  intros Hab Hbc. apply strcasecmp_eq_true in Hab.
  destruct (strcasecmp_eq a c) eqn:Hac; [|reflexivity].
  apply strcasecmp_eq_true in Hac.
  assert (Heq : strcasecmp_eq b c = true)
    by (apply strcasecmp_eq_true; congruence).
  congruence.
Qed.

Lemma apr_table_get_unset_eq t key :
  apr_table_get (apr_table_unset t key) key = None.
Proof.
  induction t as [|[k v] t IH]; [reflexivity|].
  unfold apr_table_unset in *. simpl.
  destruct (strcasecmp_eq k key) eqn:Hk; simpl; [exact IH|].
  by rewrite Hk.
Qed.

Lemma apr_table_get_unset_ne t key key' :
  strcasecmp_eq key key' = false →
  apr_table_get (apr_table_unset t key) key' = apr_table_get t key'.
Proof.
  intros Hne. induction t as [|[k v] t IH]; [reflexivity|].
  unfold apr_table_unset in *. simpl.
  destruct (strcasecmp_eq k key) eqn:Hk; simpl.
  - rewrite IH. by rewrite (strcasecmp_eq_other k key key' Hk Hne).
  - by rewrite IH.
Qed.

Lemma apr_table_get_setn_eq t key val :
  apr_table_get (apr_table_setn t key val) key = Some val.
Proof.
  induction t as [|[k v] t IH]; simpl.
  - by rewrite strcasecmp_eq_refl.
  - destruct (strcasecmp_eq k key) eqn:Hk; simpl; by rewrite Hk.
Qed.

Lemma apr_table_get_setn_ne t key val key' :
  strcasecmp_eq key key' = false →
  apr_table_get (apr_table_setn t key val) key' = apr_table_get t key'.
Proof.
  intros Hne. induction t as [|[k v] t IH]; simpl.
  - by rewrite Hne.
  - destruct (strcasecmp_eq k key) eqn:Hk; simpl.
    + rewrite (strcasecmp_eq_other k key key' Hk Hne).
      by apply apr_table_get_unset_ne.
    + by rewrite IH.
Qed.

Lemma remove_files_lookup (t : apr_table_t) : ∀ (fs : gmap string string) path,
  fold_left (λ fs e, apr_file_remove fs (snd e)) t fs !! path
  = if bool_decide (path ∈ List.map snd t) then None else fs !! path.
Proof.
  induction t as [|[k v] t IH]; intros fs path; simpl; [reflexivity|].
  rewrite IH. unfold apr_file_remove.
  destruct (decide (path = v)) as [->|Hne].
  - rewrite lookup_delete_eq.
    rewrite (bool_decide_eq_true_2 (v ∈ v :: List.map snd t))
      by (apply elem_of_cons; by left).
    by case_bool_decide.
  - rewrite lookup_delete_ne by congruence.
    case_bool_decide as Hin.
    + rewrite bool_decide_eq_true_2; [reflexivity|].
      apply elem_of_cons. by right.
    + rewrite bool_decide_eq_false_2; [reflexivity|].
      intros Hin'. apply elem_of_cons in Hin'.
      destruct Hin' as [?|?]; [congruence|done].
Qed.

Lemma file_write_lookup (fs : gmap string string) path data :
  file_write (file_create fs path) path data !! path
  = Some (data ++ string_drop (String.length data)
                    (default EmptyString (fs !! path)))%string.
Proof.
  unfold file_write, file_create.
  destruct (fs !! path) as [old|] eqn:Hold; simpl.
  - rewrite Hold. apply lookup_insert_eq.
  - rewrite lookup_insert_eq. apply lookup_insert_eq.
Qed.

Lemma file_write_lookup_ne (fs : gmap string string) path data other :
  other ≠ path →
  file_write (file_create fs path) path data !! other = fs !! other.
Proof.
  intros Hne. unfold file_write, file_create.
  destruct (fs !! path) as [old|] eqn:Hold; simpl.
  - rewrite Hold. by rewrite lookup_insert_ne.
  - rewrite lookup_insert_eq. by rewrite !lookup_insert_ne.
Qed.

Lemma string_length_app (a b : string) :
  String.length (a ++ b) = (String.length a + String.length b)%nat.
Proof. induction a as [|c a IH]; simpl; [reflexivity|by rewrite IH]. Qed.

Lemma string_app_inv_head (p a b : string) :
  (p ++ a)%string = (p ++ b)%string → a = b.
Proof.
  induction p as [|c p IH]; simpl; [done|]. intros [= Heq]. by apply IH.
Qed.

Lemma string_app_inv_tail (s : string) : ∀ a b : string,
  (a ++ s)%string = (b ++ s)%string → a = b.
Proof.
  induction a as [|c a IH]; intros [|c' b] Heq; simpl in Heq.
  - reflexivity.
  - apply (f_equal String.length) in Heq.
    rewrite ?string_length_app in Heq. simpl in Heq.
    rewrite ?string_length_app in Heq. lia.
  - apply (f_equal String.length) in Heq.
    rewrite ?string_length_app in Heq. simpl in Heq.
    rewrite ?string_length_app in Heq. lia.
  - injection Heq as -> Heq. f_equal. by apply IH.
Qed.

Section Coverage.

Context `{PocketSphinx} `{ActivityDetector} `{DirLayout}.

Implicit Types (r : pocketsphinx_recognizer_t) (fs : gmap string string).
Implicit Types (req response ev : mrcp_message_t) (frame : mpf_frame_t).

(** ** The grammars of a channel *)

(** X1.  Clearing the grammars empties the table and removes from the data
    directory every file the table named, and no other file; clearing once
    more changes nothing. *)
Theorem grammars_clear_removes_every_file fs r :
  let fs' := fst (pocketsphinx_grammars_clear fs r) in
  let r' := snd (pocketsphinx_grammars_clear fs r) in
  grammar_table r' = []
  ∧ (∀ key path, (key, path) ∈ grammar_table r → fs' !! path = None)
  ∧ (∀ path, path ∉ List.map snd (grammar_table r) → fs' !! path = fs !! path)
  ∧ pocketsphinx_grammars_clear fs' r' = (fs', r').
Proof.
  unfold pocketsphinx_grammars_clear. simpl.
  split; [reflexivity|]. split; [|split].
  - intros key path Hin. rewrite remove_files_lookup.
    rewrite bool_decide_eq_true_2; [reflexivity|].
    apply list_elem_of_In, in_map_iff. exists (key, path).
    split; [reflexivity|]. by apply list_elem_of_In.
  - intros path Hout. rewrite remove_files_lookup.
    by rewrite bool_decide_eq_false_2.
  - by destruct r.
Qed.

Lemma define_grammar_persisted fs r req id type :
  method_id req = MethodId RECOGNIZER_DEFINE_GRAMMAR →
  grammar_definition req id type →
  strstr type "jsgf" ≠ None →
  let path := apt_datadir_filepath_get (grammar_file_name r id) in
  let written := file_write (file_create fs path) path (body req) in
  apr_file_open fs path = true →
  pocketsphinx_request_dispatch fs r req
  = let '(r1, ok) := pocketsphinx_decoder_init written r path in
    if ok then
      (written,
       mrcp_engine_channel_message_send
         (set_grammar_table (apr_table_setn (grammar_table r1) id path)
            (set_grammar_id (Some id) r1))
         (mrcp_response_create req))
    else
      (apr_file_remove written path,
       mrcp_engine_channel_message_send r1
         (set_status_code MRCP_STATUS_CODE_METHOD_FAILED
            (mrcp_response_create req))).
Proof.
  intros Hm (hdr & Hhdr & Hid & Hidb & Hlen & Htype & Htypeb) Hjsgf
    path written Hopen.
  unfold pocketsphinx_request_dispatch, pocketsphinx_define_grammar.
  rewrite Hm.
  unfold mrcp_generic_header_get, mrcp_generic_header_property_check.
  rewrite Hhdr. rewrite !bool_decide_eq_true_2 by assumption.
  rewrite Hidb, Htypeb.
  destruct (strstr type "jsgf") as [suffix|]; [|done].
  fold path. rewrite Hopen. simpl. fold written.
  destruct (pocketsphinx_decoder_init written r path) as [r1 [|]]; reflexivity.
Qed.

Lemma decoder_init_succeeded fs r grammar :
  snd (pocketsphinx_decoder_init fs r grammar) = true →
  is_Some (config (fst (pocketsphinx_decoder_init fs r grammar)))
  ∧ is_Some (decoder (fst (pocketsphinx_decoder_init fs r grammar)))
  ∧ is_Some (detector (fst (pocketsphinx_decoder_init fs r grammar))).
Proof.
  unfold pocketsphinx_decoder_init.
  destruct (cmd_ln_init _ _) as [c|]; simpl; [|discriminate].
  destruct (decoder r) as [d|] eqn:Hd.
  - destruct (ps_reinit fs d c) as [d' status]. simpl.
    destruct (status <? 0)%Z; simpl; [discriminate|].
    destruct (detector r) as [det|] eqn:Hdet; simpl; intros _;
      rewrite ?Hdet; repeat split; by eexists.
  - destruct (ps_init fs c) as [d|]; simpl; [|discriminate].
    destruct (detector r) as [det|] eqn:Hdet; simpl; intros _;
      rewrite ?Hdet; repeat split; by eexists.
Qed.

(** X2.  A DEFINE-GRAMMAR request with a JSGF body whose file can be
    written and which the decoder accepts.  The data directory holds the
    body at the path made from the channel identifier and the content-id
    (over the old contents if the file was there, without truncation); the
    one message sent is the response as created; the content-id is the
    active grammar and the table maps it to the path; the recognizer has a
    configuration, a decoder and a detector. *)
Theorem define_grammar_registers fs r req id type :
  method_id req = MethodId RECOGNIZER_DEFINE_GRAMMAR →
  grammar_definition req id type →
  strstr type "jsgf" ≠ None →
  let path := apt_datadir_filepath_get (grammar_file_name r id) in
  let written := file_write (file_create fs path) path (body req) in
  apr_file_open fs path = true →
  snd (pocketsphinx_decoder_init written r path) = true →
  ∃ r', pocketsphinx_request_dispatch fs r req = (written, r')
        ∧ written !! path
          = Some (body req
                  ++ string_drop (String.length (body req))
                       (default EmptyString (fs !! path)))%string
        ∧ sent (channel r') = sent (channel r) ++ [mrcp_response_create req]
        ∧ grammar_id r' = Some id
        ∧ apr_table_get (grammar_table r') id = Some path
        ∧ is_Some (config r') ∧ is_Some (decoder r') ∧ is_Some (detector r').
Proof.
  intros Hm Hdef Hjsgf path written Hopen Hok.
  rewrite (define_grammar_persisted fs r req id type Hm Hdef Hjsgf Hopen).
  fold path written.
  destruct (decoder_init_succeeded written r path Hok) as (Hc & Hd & Hdet).
  destruct (decoder_init_shape written r path) as (c' & d' & det' & Hshape & _).
  destruct (pocketsphinx_decoder_init written r path) as [r1 ok].
  simpl in Hok, Hshape, Hc, Hd, Hdet. subst ok r1.
  eexists. split; [reflexivity|]. simpl in *.
  split; [apply file_write_lookup|].
  split; [reflexivity|]. split; [reflexivity|].
  split; [apply apr_table_get_setn_eq|]. done.
Qed.

(** X3.  Such a definition leaves the other grammars alone: the table
    answers as before for every content-id that differs from the new one
    otherwise than by case, every other file of the data directory is as
    before, and the timers, the last result, the slots, the in-progress
    marker, the stored STOP response and the close flag are as before. *)
Theorem define_grammar_keeps_other_grammars fs r req id type :
  method_id req = MethodId RECOGNIZER_DEFINE_GRAMMAR →
  grammar_definition req id type →
  strstr type "jsgf" ≠ None →
  let path := apt_datadir_filepath_get (grammar_file_name r id) in
  let written := file_write (file_create fs path) path (body req) in
  apr_file_open fs path = true →
  snd (pocketsphinx_decoder_init written r path) = true →
  let fs' := fst (pocketsphinx_request_dispatch fs r req) in
  let r' := snd (pocketsphinx_request_dispatch fs r req) in
  (∀ other, strcasecmp_eq id other = false →
            apr_table_get (grammar_table r') other
            = apr_table_get (grammar_table r) other)
  ∧ (∀ other, other ≠ path → fs' !! other = fs !! other)
  ∧ recognition_timeout r' = recognition_timeout r
  ∧ partial_result_timeout r' = partial_result_timeout r
  ∧ last_result r' = last_result r
  ∧ request r' = request r
  ∧ complete_event r' = complete_event r
  ∧ inprogress_recog r' = inprogress_recog r
  ∧ stop_response r' = stop_response r
  ∧ close_requested r' = close_requested r.
Proof.
  intros Hm Hdef Hjsgf path written Hopen Hok.
  rewrite (define_grammar_persisted fs r req id type Hm Hdef Hjsgf Hopen).
  fold path written.
  destruct (decoder_init_shape written r path) as (c' & d' & det' & Hshape & _).
  destruct (pocketsphinx_decoder_init written r path) as [r1 ok].
  simpl in Hok, Hshape. subst ok r1. simpl.
  split; [|split; [|done]].
  - intros other Hother. by apply apr_table_get_setn_ne.
  - intros other Hother. by apply file_write_lookup_ne.
Qed.

Lemma define_grammar_unload_dispatch fs r req id :
  method_id req = MethodId RECOGNIZER_DEFINE_GRAMMAR →
  grammar_unload req id →
  pocketsphinx_request_dispatch fs r req
  = match apr_table_get (grammar_table r) id with
    | Some path =>
        (apr_file_remove fs path,
         mrcp_engine_channel_message_send
           (set_grammar_table (apr_table_unset (grammar_table r) id) r)
           (mrcp_response_create req))
    | None =>
        (fs, mrcp_engine_channel_message_send r (mrcp_response_create req))
    end.
Proof.
  intros Hm (hdr & Hhdr & Hid & Hidb & Hlen).
  unfold pocketsphinx_request_dispatch, pocketsphinx_define_grammar.
  rewrite Hm.
  unfold mrcp_generic_header_get, mrcp_generic_header_property_check.
  rewrite Hhdr. rewrite (bool_decide_eq_true_2 _ Hid).
  rewrite (bool_decide_eq_false_2 _ Hlen). rewrite Hidb.
  destruct (apr_table_get (grammar_table r) id) as [path|]; reflexivity.
Qed.

(** X4.  A DEFINE-GRAMMAR request with a content-id and no content-length
    unloads.  When the table knows the content-id, the file it names is
    removed, the table forgets the content-id and answers as before for
    the others; when it does not, nothing is removed.  In both cases the
    one message sent is the response as created, and the active grammar
    and the decoder stay as they are, also when the grammar unloaded is
    the active one. *)
Theorem define_grammar_unloads fs r req id :
  method_id req = MethodId RECOGNIZER_DEFINE_GRAMMAR →
  grammar_unload req id →
  let fs' := fst (pocketsphinx_request_dispatch fs r req) in
  let r' := snd (pocketsphinx_request_dispatch fs r req) in
  fs' = match apr_table_get (grammar_table r) id with
        | Some path => delete path fs
        | None => fs
        end
  ∧ apr_table_get (grammar_table r') id = None
  ∧ (∀ other, strcasecmp_eq id other = false →
              apr_table_get (grammar_table r') other
              = apr_table_get (grammar_table r) other)
  ∧ sent (channel r') = sent (channel r) ++ [mrcp_response_create req]
  ∧ grammar_id r' = grammar_id r
  ∧ decoder r' = decoder r
  ∧ inprogress_recog r' = inprogress_recog r.
Proof.
  intros Hm Hun. rewrite (define_grammar_unload_dispatch fs r req id Hm Hun).
  destruct (apr_table_get (grammar_table r) id) as [path|] eqn:Hget; simpl.
  - split; [reflexivity|]. split; [apply apr_table_get_unset_eq|].
    split; [|done]. intros other Hother. by apply apr_table_get_unset_ne.
  - done.
Qed.

(** X5.  A grammar defined and then unloaded: once the definition has
    succeeded, the unload request for the same content-id removes the
    grammar file and the table entry, while the content-id remains the
    active grammar and the decoder compiled from the removed file remains
    in place. *)
Theorem define_then_unload fs r req unload id type :
  method_id req = MethodId RECOGNIZER_DEFINE_GRAMMAR →
  grammar_definition req id type →
  strstr type "jsgf" ≠ None →
  let path := apt_datadir_filepath_get (grammar_file_name r id) in
  let written := file_write (file_create fs path) path (body req) in
  apr_file_open fs path = true →
  snd (pocketsphinx_decoder_init written r path) = true →
  method_id unload = MethodId RECOGNIZER_DEFINE_GRAMMAR →
  grammar_unload unload id →
  let fs1 := fst (pocketsphinx_request_dispatch fs r req) in
  let r1 := snd (pocketsphinx_request_dispatch fs r req) in
  let fs2 := fst (pocketsphinx_request_dispatch fs1 r1 unload) in
  let r2 := snd (pocketsphinx_request_dispatch fs1 r1 unload) in
  is_Some (fs1 !! path)
  ∧ fs2 !! path = None
  ∧ apr_table_get (grammar_table r2) id = None
  ∧ grammar_id r2 = Some id
  ∧ is_Some (decoder r2)
  ∧ sent (channel r2)
    = sent (channel r)
      ++ [mrcp_response_create req; mrcp_response_create unload].
Proof.
  intros Hm Hdef Hjsgf path written Hopen Hok Hm' Hun.
  rewrite (define_grammar_persisted fs r req id type Hm Hdef Hjsgf Hopen).
  fold path written.
  destruct (decoder_init_succeeded written r path Hok) as (_ & Hd & _).
  destruct (decoder_init_shape written r path) as (c' & d' & det' & Hshape & _).
  destruct (pocketsphinx_decoder_init written r path) as [r1 ok].
  simpl in Hok, Hshape, Hd. subst ok r1. simpl in Hd. cbv zeta. simpl fst.
  simpl snd.
  match goal with
  | |- context [pocketsphinx_request_dispatch written ?r1 unload] =>
      rewrite (define_grammar_unload_dispatch written r1 unload id Hm' Hun);
      assert (Hget : apr_table_get (grammar_table r1) id = Some path)
        by (simpl; apply apr_table_get_setn_eq);
      rewrite Hget
  end.
  simpl.
  split; [unfold written; rewrite file_write_lookup; by eexists|].
  split; [apply lookup_delete_eq|].
  split; [apply apr_table_get_unset_eq|]. split; [reflexivity|].
  split; [exact Hd|].
  by rewrite <- app_assoc.
Qed.

(** X6.  A DEFINE-GRAMMAR request with a JSGF body whose grammar file
    cannot be opened for writing is answered with the status
    method-failed, and that response is all that changes: the data
    directory, the table, the active grammar, the configuration and the
    decoder stay. *)
Theorem define_grammar_file_failure fs r req id type :
  method_id req = MethodId RECOGNIZER_DEFINE_GRAMMAR →
  grammar_definition req id type →
  strstr type "jsgf" ≠ None →
  apr_file_open fs (apt_datadir_filepath_get (grammar_file_name r id)) = false →
  pocketsphinx_request_dispatch fs r req
  = (fs,
     mrcp_engine_channel_message_send r
       (set_status_code MRCP_STATUS_CODE_METHOD_FAILED
          (mrcp_response_create req))).
Proof.
  intros Hm (hdr & Hhdr & Hid & Hidb & Hlen & Htype & Htypeb) Hjsgf Hopen.
  unfold pocketsphinx_request_dispatch, pocketsphinx_define_grammar.
  rewrite Hm.
  unfold mrcp_generic_header_get, mrcp_generic_header_property_check.
  rewrite Hhdr. rewrite !bool_decide_eq_true_2 by assumption.
  rewrite Hidb, Htypeb.
  destruct (strstr type "jsgf") as [suffix|]; [|done].
  rewrite Hopen. reflexivity.
Qed.

(** X7.  A DEFINE-GRAMMAR request with a content-id and a body but no
    content type (the property is not set, or the buffer is NULL) is
    answered with the status missing-param, and that response is all that
    changes. *)
Theorem define_grammar_missing_content_type fs r req hdr id :
  method_id req = MethodId RECOGNIZER_DEFINE_GRAMMAR →
  generic_header req = Some hdr →
  GENERIC_HEADER_CONTENT_ID ∈ generic_properties hdr →
  content_id hdr = Some id →
  GENERIC_HEADER_CONTENT_LENGTH ∈ generic_properties hdr →
  GENERIC_HEADER_CONTENT_TYPE ∉ generic_properties hdr
  ∨ content_type hdr = None →
  pocketsphinx_request_dispatch fs r req
  = (fs,
     mrcp_engine_channel_message_send r
       (set_status_code MRCP_STATUS_CODE_MISSING_PARAM
          (mrcp_response_create req))).
Proof.
  intros Hm Hhdr Hid Hidb Hlen Htype.
  unfold pocketsphinx_request_dispatch, pocketsphinx_define_grammar.
  rewrite Hm.
  unfold mrcp_generic_header_get, mrcp_generic_header_property_check.
  rewrite Hhdr. rewrite (bool_decide_eq_true_2 _ Hid).
  rewrite (bool_decide_eq_true_2 _ Hlen). rewrite Hidb.
  case_bool_decide as Hin; [|reflexivity].
  destruct Htype as [Hout|Hnone]; [done|]. by rewrite Hnone.
Qed.

(** ** The requests the plugin does not handle *)

(** X8.  A request that is neither DEFINE-GRAMMAR nor RECOGNIZE nor STOP
    (SET-PARAMS, GET-PARAMS, GET-RESULT, START-INPUT-TIMERS, or an
    identifier the plugin does not know) is answered with the response as
    created, success and complete, with no header and no body, and nothing
    else changes: GET-RESULT does not return the last result and
    START-INPUT-TIMERS starts no timer. *)
Theorem unhandled_request_answered fs r req :
  method_id req ≠ MethodId RECOGNIZER_DEFINE_GRAMMAR →
  method_id req ≠ MethodId RECOGNIZER_RECOGNIZE →
  method_id req ≠ MethodId RECOGNIZER_STOP →
  pocketsphinx_request_dispatch fs r req
  = (fs, mrcp_engine_channel_message_send r (mrcp_response_create req))
  ∧ status_code (mrcp_response_create req) = MRCP_STATUS_CODE_SUCCESS
  ∧ request_state (mrcp_response_create req) = MRCP_REQUEST_STATE_COMPLETE
  ∧ body (mrcp_response_create req) = EmptyString.
Proof.
  intros Hdef Hrec Hstop. split; [|done].
  unfold pocketsphinx_request_dispatch.
  destruct (method_id req) as [[]|e]; try reflexivity; congruence.
Qed.

(** X9.  A STOP request dispatched when no recognition is in progress is
    answered at once with the response as created; nothing is stored and
    nothing else changes. *)
Theorem stop_without_recognition fs r req :
  method_id req = MethodId RECOGNIZER_STOP →
  inprogress_recog r = None →
  pocketsphinx_request_dispatch fs r req
  = (fs, mrcp_engine_channel_message_send r (mrcp_response_create req))
  ∧ stop_response (mrcp_engine_channel_message_send r (mrcp_response_create req))
    = stop_response r.
Proof.
  intros Hm Hq. split; [|reflexivity].
  unfold pocketsphinx_request_dispatch, pocketsphinx_stop.
  by rewrite Hm, Hq.
Qed.

(** ** Completions that are not a success *)

(** X10.  A completion event whose cause is not success (a recognition
    timeout, a no-input timeout), processed while a recognition is in
    progress and no STOP response is stored, is sent exactly as it was
    raised: the decoder is not asked for a hypothesis, no body is
    attached, and the last result is kept.  The utterance is ended and the
    in-progress marker is cleared. *)
Theorem recognition_complete_without_result r ev q :
  inprogress_recog r = Some q →
  stop_response r = None →
  completion_cause (recog_header ev) ≠ RECOGNIZER_COMPLETION_CAUSE_SUCCESS →
  ∃ r',
    pocketsphinx_recognition_complete r ev = (r', ev, true)
    ∧ sent (channel r') = sent (channel r) ++ [ev]
    ∧ last_result r' = last_result r
    ∧ decoder r' = ps_end_utt <$> decoder r
    ∧ inprogress_recog r' = None.
Proof.
  intros Hq Hstop Hcause. unfold pocketsphinx_recognition_complete.
  rewrite Hq. simpl. rewrite Hstop.
  rewrite (bool_decide_eq_false_2 _ Hcause). simpl.
  eexists. split; [reflexivity|]. done.
Qed.

(** ** What a frame does *)

Lemma at_timeout_check_shape r frame :
  ∃ rt lr prt dec,
    at_timeout_check r frame
    = set_recognition_timeout rt
        (set_last_result lr (set_partial_result_timeout prt (set_decoder dec r)))
    ∧ (lr = last_result r ∨ ∃ c rest, lr = Some (String c rest)).
Proof.
  assert (Hlast : ∀ r0,
            last_result (check_partial_result r0) = last_result r0
            ∨ ∃ c rest, last_result (check_partial_result r0)
                        = Some (String c rest)).
  { intros r0. unfold check_partial_result.
    destruct (_ =? _)%Z; simpl; [|by left].
    destruct (ps_get_hyp_of _) as [[|c rest]|]; simpl; try by left.
    case_bool_decide; simpl; [right; by eexists _, _|by left]. }
  exists (recognition_timeout (at_timeout_check r frame)),
    (last_result (check_partial_result (feed_decoder r frame))),
    (partial_result_timeout (check_partial_result (feed_decoder r frame))),
    (decoder (feed_decoder r frame)).
  split.
  - rewrite <- (feed_decoder_shape r frame).
    rewrite <- (check_partial_result_shape (feed_decoder r frame)).
    reflexivity.
  - destruct (Hlast (feed_decoder r frame)) as [Hsame|Hnew]; [|by right].
    left. rewrite Hsame, (feed_decoder_shape r frame). reflexivity.
Qed.

(** X11.  A frame that finds a recognition in progress, no completion
    waiting and a STOP response stored puts a RECOGNITION-COMPLETE event
    with cause success for the recognition into the event slot and does
    nothing else: the decoder is not fed, the timers do not advance, the
    detector is not run and nothing is sent. *)
Theorem stream_write_stop_pending r frame q response :
  inprogress_recog r = Some q →
  complete_event r = None →
  stop_response r = Some response →
  pocketsphinx_stream_write r frame
  = (set_complete_event
       (Some (recognition_complete_event q RECOGNIZER_COMPLETION_CAUSE_SUCCESS))
       r, true).
Proof.
  intros Hq Hev Hstop. unfold pocketsphinx_stream_write.
  rewrite Hq, Hev, Hstop. rewrite (end_of_input_raises r q _ Hq). reflexivity.
Qed.

(** X12.  A frame processed during a recognition whose timer does not reach
    the recognition timeout is given to the detector, and the event of
    the detector decides: on activity one START-OF-INPUT event for the
    recognition is sent and no completion is raised; on inactivity a
    completion with cause success is raised; on no-input a completion with
    cause no-input-timeout is raised; otherwise nothing is sent or raised.
    A completion is raised into the slot, never sent by the frame. *)
Theorem stream_write_detector_event r frame q d :
  inprogress_recog r = Some q →
  complete_event r = None →
  stop_response r = None →
  detector r = Some d →
  size_add (recognition_timeout r) CODEC_FRAME_TIME_BASE
  ≠ properties_recognition_timeout (properties r) →
  let d' := fst (mpf_activity_detector_process d frame) in
  let e := snd (mpf_activity_detector_process d frame) in
  let r' := fst (pocketsphinx_stream_write r frame) in
  detector r' = Some d'
  ∧ recognition_timeout r'
    = size_add (recognition_timeout r) CODEC_FRAME_TIME_BASE
  ∧ sent (channel r')
    = sent (channel r)
      ++ match e with
         | MPF_DETECTOR_EVENT_ACTIVITY => [start_of_input_event q]
         | _ => []
         end
  ∧ complete_event r'
    = match e with
      | MPF_DETECTOR_EVENT_INACTIVITY =>
          Some (recognition_complete_event q
                  RECOGNIZER_COMPLETION_CAUSE_SUCCESS)
      | MPF_DETECTOR_EVENT_NOINPUT =>
          Some (recognition_complete_event q
                  RECOGNIZER_COMPLETION_CAUSE_NO_INPUT_TIMEOUT)
      | _ => None
      end.
Proof.
  intros Hq Hev Hstop Hdet Hne.
  rewrite (stream_write_processing r frame q Hq Hev Hstop).
  destruct (at_timeout_check_fields r frame)
    as (Hprops & Htimer & Hdet' & Hchan & Hin).
  destruct (at_timeout_check_shape r frame)
    as (rt & lr & prt & dec & Hshape & _).
  cbv zeta. rewrite Hprops, Htimer.
  apply Z.eqb_neq in Hne. rewrite Hne.
  unfold run_detector. rewrite Hdet', Hdet.
  rewrite Hshape in Htimer. simpl in Htimer. rewrite Hshape.
  destruct (mpf_activity_detector_process d frame) as [d' e]. simpl.
  unfold pocketsphinx_start_of_input, pocketsphinx_end_of_input. simpl.
  rewrite Hq. destruct e; simpl; rewrite ?Hev, ?app_nil_r; done.
Qed.

(** X13.  Whatever the state, a frame sends nothing but, at most, one
    START-OF-INPUT event for the recognition in progress, and it never
    touches the grammar table, the active grammar, the configuration, the
    properties, the request slot, the in-progress marker, the stored STOP
    response or the close flag; it returns TRUE. *)
Theorem stream_write_frame r frame :
  let r' := fst (pocketsphinx_stream_write r frame) in
  snd (pocketsphinx_stream_write r frame) = true
  ∧ (sent (channel r') = sent (channel r)
     ∨ ∃ q, inprogress_recog r = Some q
            ∧ sent (channel r') = sent (channel r) ++ [start_of_input_event q])
  ∧ channel_id (channel r') = channel_id (channel r)
  ∧ grammar_table r' = grammar_table r
  ∧ grammar_id r' = grammar_id r
  ∧ config r' = config r
  ∧ properties r' = properties r
  ∧ request r' = request r
  ∧ inprogress_recog r' = inprogress_recog r
  ∧ stop_response r' = stop_response r
  ∧ close_requested r' = close_requested r.
Proof.
  destruct (inprogress_recog r) as [q|] eqn:Hq;
    [|rewrite stream_write_idle by (by left); simpl; rewrite Hq;
      repeat split; by left].
  destruct (complete_event r) as [ev0|] eqn:Hev;
    [rewrite stream_write_idle by (right; congruence); simpl; rewrite Hq;
     repeat split; by left|].
  destruct (stop_response r) as [response|] eqn:Hstop.
  { unfold pocketsphinx_stream_write. rewrite Hq, Hev, Hstop.
    rewrite (end_of_input_raises r q _ Hq). simpl. rewrite Hq, Hstop.
    repeat split; by left. }
  rewrite (stream_write_processing r frame q Hq Hev Hstop).
  destruct (at_timeout_check_shape r frame)
    as (rt & lr & prt & dec & Hshape & _).
  rewrite Hshape. cbv zeta.
  unfold run_detector, pocketsphinx_end_of_input, pocketsphinx_start_of_input.
  simpl. rewrite Hq.
  destruct (_ =? _)%Z; simpl; [rewrite Hq, Hstop; repeat split; by left|].
  destruct (detector r) as [d|]; simpl;
    [|rewrite Hq, Hstop; repeat split; by left].
  destruct (mpf_activity_detector_process d frame) as [d' e].
  destruct e; simpl; rewrite ?Hq, ?Hstop; repeat split;
    try (by left); try (simpl; assumption).
  right. by exists q.
Qed.

(** X14.  A frame never clears the last result and never sets it to an
    empty text: after the frame it is what it was, or a hypothesis of the
    decoder that is not empty. *)
Theorem stream_write_last_result r frame :
  let r' := fst (pocketsphinx_stream_write r frame) in
  last_result r' = last_result r
  ∨ ∃ c rest, last_result r' = Some (String c rest).
Proof.
  destruct (inprogress_recog r) as [q|] eqn:Hq;
    [|rewrite stream_write_idle by (by left); by left].
  destruct (complete_event r) as [ev0|] eqn:Hev;
    [rewrite stream_write_idle by (right; congruence); by left|].
  destruct (stop_response r) as [response|] eqn:Hstop.
  { unfold pocketsphinx_stream_write. rewrite Hq, Hev, Hstop.
    rewrite (end_of_input_raises r q _ Hq). by left. }
  rewrite (stream_write_processing r frame q Hq Hev Hstop).
  destruct (at_timeout_check_shape r frame)
    as (rt & lr & prt & dec & Hshape & Hlr).
  rewrite Hshape. cbv zeta.
  unfold run_detector, pocketsphinx_end_of_input, pocketsphinx_start_of_input.
  simpl. rewrite Hq.
  destruct (_ =? _)%Z; simpl; [exact Hlr|].
  destruct (detector r) as [d|]; simpl; [|exact Hlr].
  destruct (mpf_activity_detector_process d frame) as [d' e].
  destruct e; simpl; rewrite ?Hq; exact Hlr.
Qed.

(** ** What holds while the thread loops *)

Lemma at_timeout_check_partial r frame :
  partial_result_timeout (at_timeout_check r frame)
  = let t := size_add (partial_result_timeout r) CODEC_FRAME_TIME_BASE in
    if (t =? properties_partial_result_timeout (properties r))%Z
    then 0%Z else t.
Proof.
  unfold at_timeout_check, check_partial_result. simpl.
  rewrite (feed_decoder_shape r frame). simpl.
  destruct (_ =? _)%Z; simpl; [|reflexivity].
  destruct (ps_get_hyp_of _) as [[|c rest]|]; simpl; try reflexivity.
  by case_bool_decide.
Qed.

(** What a frame leaves alone, and what it does to the partial-result
    timer. *)
Lemma stream_write_fields r frame :
  let r' := fst (pocketsphinx_stream_write r frame) in
  properties r' = properties r
  ∧ inprogress_recog r' = inprogress_recog r
  ∧ stop_response r' = stop_response r
  ∧ close_requested r' = close_requested r
  ∧ request r' = request r
  ∧ grammar_table r' = grammar_table r
  ∧ (partial_result_timeout r' = partial_result_timeout r
     ∨ partial_result_timeout r'
       = let t := size_add (partial_result_timeout r) CODEC_FRAME_TIME_BASE in
         if (t =? properties_partial_result_timeout (properties r))%Z
         then 0%Z else t).
Proof.
  destruct (inprogress_recog r) as [q|] eqn:Hq;
    [|rewrite stream_write_idle by (by left); simpl; rewrite Hq;
      repeat split; by left].
  destruct (complete_event r) as [ev0|] eqn:Hev;
    [rewrite stream_write_idle by (right; congruence); simpl; rewrite Hq;
     repeat split; by left|].
  destruct (stop_response r) as [response|] eqn:Hstop.
  { unfold pocketsphinx_stream_write. rewrite Hq, Hev, Hstop.
    rewrite (end_of_input_raises r q _ Hq). simpl. rewrite Hq, Hstop.
    repeat split; by left. }
  rewrite (stream_write_processing r frame q Hq Hev Hstop).
  pose proof (at_timeout_check_partial r frame) as Hpartial.
  destruct (at_timeout_check_shape r frame)
    as (rt & lr & prt & dec & Hshape & _).
  rewrite Hshape in Hpartial. simpl in Hpartial.
  rewrite Hshape. cbv zeta.
  unfold run_detector, pocketsphinx_end_of_input, pocketsphinx_start_of_input.
  simpl. rewrite Hq.
  destruct (_ =? properties_recognition_timeout _)%Z; simpl;
    [rewrite Hq, Hstop; repeat split; by right|].
  destruct (detector r) as [d|]; simpl;
    [|rewrite Hq, Hstop; repeat split; by right].
  destruct (mpf_activity_detector_process d frame) as [d' e].
  destruct e; simpl; rewrite ?Hq, ?Hstop; repeat split;
    try (by right); try (simpl; assumption).
Qed.

(** The outcomes of a dispatch, field by field. *)
Lemma dispatch_cases fs r req :
  let r' := snd (pocketsphinx_request_dispatch fs r req) in
  properties r' = properties r
  ∧ close_requested r' = close_requested r
  ∧ request r' = request r
  ∧ ((recognition_timeout r' = recognition_timeout r
      ∧ partial_result_timeout r' = partial_result_timeout r
      ∧ complete_event r' = complete_event r
      ∧ inprogress_recog r' = inprogress_recog r
      ∧ (stop_response r' = stop_response r
         ∨ is_Some (inprogress_recog r)))
     ∨ (recognition_timeout r' = 0%Z
        ∧ partial_result_timeout r' = 0%Z
        ∧ complete_event r' = None
        ∧ inprogress_recog r' = Some req
        ∧ stop_response r' = stop_response r)).
Proof.
  unfold pocketsphinx_request_dispatch.
  destruct (method_id req) as [[]|e]; simpl;
    try (repeat split; left; repeat split; by left).
  - unfold pocketsphinx_define_grammar, mrcp_generic_header_get.
    destruct (generic_header req) as [hdr|];
      [|simpl; repeat split; left; repeat split; by left].
    destruct (if mrcp_generic_header_property_check req
                   GENERIC_HEADER_CONTENT_ID
              then content_id hdr else None) as [id|];
      [|simpl; repeat split; left; repeat split; by left].
    destruct (mrcp_generic_header_property_check req
                GENERIC_HEADER_CONTENT_LENGTH).
    + destruct (if mrcp_generic_header_property_check req
                     GENERIC_HEADER_CONTENT_TYPE
                then content_type hdr else None) as [type|];
        [|simpl; repeat split; left; repeat split; by left].
      destruct (strstr type "jsgf") as [suffix|];
        [|simpl; repeat split; left; repeat split; by left].
      destruct (apr_file_open fs _); simpl;
        [|repeat split; left; repeat split; by left].
      match goal with
      | |- context [pocketsphinx_decoder_init ?w r ?p] =>
          destruct (decoder_init_shape w r p) as (c' & d' & det' & Hshape & _);
          destruct (pocketsphinx_decoder_init w r p) as [r1 ok]
      end.
      simpl in Hshape. subst r1.
      destruct ok; simpl; repeat split; left; repeat split; by left.
    + destruct (apr_table_get (grammar_table r) id); simpl;
        repeat split; left; repeat split; by left.
  - unfold pocketsphinx_recognize.
    destruct (decoder r) as [d|]; simpl;
      [|repeat split; left; repeat split; by left].
    destruct (ps_start_utt d) as [d' status].
    destruct (status <? 0)%Z; simpl.
    + repeat split; left; repeat split; by left.
    + repeat split. right. done.
  - unfold pocketsphinx_stop.
    destruct (inprogress_recog r) as [q|] eqn:Hq; simpl.
    + rewrite Hq. repeat split. left. repeat split. right. by eexists.
    + rewrite Hq. repeat split; left; repeat split; by left.
Qed.

(** The outcomes of the processing of a completion event. *)
Lemma recognition_complete_cases r ev :
  let r' := fst (fst (pocketsphinx_recognition_complete r ev)) in
  properties r' = properties r
  ∧ close_requested r' = close_requested r
  ∧ request r' = request r
  ∧ recognition_timeout r' = recognition_timeout r
  ∧ partial_result_timeout r' = partial_result_timeout r
  ∧ complete_event r' = complete_event r
  ∧ grammar_table r' = grammar_table r
  ∧ (r' = r ∨ (inprogress_recog r' = None ∧ stop_response r' = None)).
Proof.
  unfold pocketsphinx_recognition_complete.
  destruct (inprogress_recog r) as [q|]; simpl; [|repeat split; by left].
  destruct (stop_response r) as [response|] eqn:Hstop; simpl.
  - destruct (close_requested r) eqn:Hclose; simpl; rewrite ?Hclose;
      repeat split; by right.
  - destruct (bool_decide _); simpl.
    + destruct (ps_get_hyp_of _) as [[|c rest]|]; simpl;
        repeat split; right; by rewrite ?Hstop.
    + repeat split; right; by rewrite ?Hstop.
Qed.

Lemma run_loop_invariant (P : pocketsphinx_recognizer_t → Prop) :
  (∀ r q, P r → P (set_request q r)) →
  (∀ r, P r → P (set_close_requested true r)) →
  (∀ r ev, P r → P (set_complete_event (Some ev) r)) →
  (∀ r frame, P r → P (fst (pocketsphinx_stream_write r frame))) →
  (∀ fs r req, P r → P (snd (pocketsphinx_request_dispatch fs r req))) →
  (∀ r ev, P r → P (fst (fst (pocketsphinx_recognition_complete r ev)))) →
  ∀ turns fs r,
    P r → P (snd (fst (fst (recognizer_run_loop fs r turns)))).
Proof.
  intros Hreq Hclose Hslot Hframe Hdispatch Hcomplete.
  assert (Hpeers : ∀ turn r, P r → P (fold_left peer_step turn r)).
  { induction turn as [|a turn IH]; intros r Hr; [exact Hr|].
    simpl. apply IH. destruct a as [req|frame|]; simpl; auto.
    by apply Hreq. }
  assert (Hturn : ∀ fs r, P r → P (snd (recognizer_run_iteration fs r))).
  { intros fs r Hr. unfold recognizer_run_iteration.
    assert (Hd : P (snd (match request r with
                         | Some req =>
                             pocketsphinx_request_dispatch fs
                               (set_request None r) req
                         | None => (fs, r)
                         end))).
    { destruct (request r) as [req|]; [|exact Hr].
      apply Hdispatch. by apply Hreq. }
    destruct (match request r with Some _ => _ | None => _ end) as [fs1 r1].
    simpl in Hd. destruct (complete_event r1) as [ev|]; [|exact Hd].
    pose proof (Hcomplete r1 ev Hd) as Hdone.
    destruct (pocketsphinx_recognition_complete r1 ev) as [[r2 ev'] ret].
    simpl in *. by apply Hslot. }
  induction turns as [|turn turns IH]; intros fs r Hr; [exact Hr|].
  simpl. pose proof (Hturn fs _ (Hpeers turn r Hr)) as Hit.
  destruct (recognizer_run_iteration fs (fold_left peer_step turn r))
    as [fs1 r1].
  simpl in Hit. case_bool_decide; [by apply IH|exact Hit].
Qed.

Lemma recognizer_loaded_ready id :
  recognizer_ready
    (fst (pocketsphinx_properties_load
            (pocketsphinx_engine_recognizer_create id))).
Proof. exact (recognizer_ready_created id). Qed.

(** X15.  While the thread of a channel loops, whatever requests, frames
    and close requests reach it: a recognition in progress has a decoder,
    and a decoder comes with a detector and an active grammar.  So the
    calls that pass the decoder and the detector on without a test
    ([ps_end_utt], [ps_process_raw], [mpf_activity_detector_reset],
    [mpf_activity_detector_process]) and the result document never meet a
    NULL pointer. *)
Theorem recognizer_ready_while_running id fs turns :
  recognizer_ready (recognizer_after id fs turns).
Proof.
  unfold recognizer_after. apply recognizer_ready_loop.
  apply recognizer_loaded_ready.
Qed.

(** X16.  While the thread loops, the recognition timer is a multiple of
    the frame duration between 0 and the recognition timeout of 15000,
    and when it is equal to the timeout the completion has been raised or
    the recognition is over: the comparison by equality in
    [pocketsphinx_stream_write] never misses the timeout. *)
Theorem recognition_timeout_never_passed id fs turns :
  let r := recognizer_after id fs turns in
  (0 ≤ recognition_timeout r ≤ 15000)%Z
  ∧ (recognition_timeout r mod 10 = 0)%Z
  ∧ (recognition_timeout r = 15000%Z →
     is_Some (complete_event r) ∨ inprogress_recog r = None).
Proof.
  set (P := λ r, recognition_timer_on_grid r
                 ∧ properties_recognition_timeout (properties r) = 15000%Z).
  assert (HP : P (recognizer_after id fs turns)).
  { unfold recognizer_after. apply (run_loop_invariant P).
    - intros r q [Hg Hp]. split; [exact Hg|exact Hp].
    - intros r [Hg Hp]. split; [exact Hg|exact Hp].
    - intros r ev [(HT & HTg & Hrt & Hgrid & Hat) Hp]. split; [|exact Hp].
      repeat split; try assumption; try apply HT; try apply Hrt.
      intros _. left. by eexists.
    - intros r frame [Hg Hp]. split.
      + by apply recognition_timer_on_grid_stream_write.
      + destruct (stream_write_fields r frame) as (Hprops & _). by rewrite Hprops.
    - intros fs0 r req [Hg Hp]. split.
      + by apply recognition_timer_on_grid_dispatch.
      + destruct (dispatch_cases fs0 r req) as (Hprops & _). by rewrite Hprops.
    - intros r ev [Hg Hp]. split.
      + by apply recognition_timer_on_grid_complete.
      + destruct (recognition_complete_cases r ev) as (Hprops & _).
        by rewrite Hprops.
    - split; [apply recognition_timer_on_grid_loaded|reflexivity]. }
  destruct HP as [(HT & HTg & Hrt & Hgrid & Hat) Hp].
  cbv zeta. rewrite Hp in *. unfold CODEC_FRAME_TIME_BASE in *. done.
Qed.

(** X17.  While the thread loops, the partial-result timer is a multiple
    of the frame duration and stays below its threshold of 100: it is set
    back to zero on the frame on which it reaches the threshold, so the
    decoder is asked for a partial hypothesis on every tenth frame that is
    processed. *)
Theorem partial_result_timer_bounded id fs turns :
  let r := recognizer_after id fs turns in
  (0 ≤ partial_result_timeout r < 100)%Z
  ∧ (partial_result_timeout r mod 10 = 0)%Z.
Proof.
  set (P := λ r, partial_timer_on_grid r
                 ∧ properties_partial_result_timeout (properties r) = 100%Z).
  assert (HP : P (recognizer_after id fs turns)).
  { unfold recognizer_after. apply (run_loop_invariant P).
    - intros r q [Hg Hp]. split; [exact Hg|exact Hp].
    - intros r [Hg Hp]. split; [exact Hg|exact Hp].
    - intros r ev [Hg Hp]. split; [exact Hg|exact Hp].
    - intros r frame [(HT & HTg & Hrt & Hgrid) Hp].
      destruct (stream_write_fields r frame)
        as (Hprops & _ & _ & _ & _ & _ & Hprt).
      split; [|by rewrite Hprops].
      unfold partial_timer_on_grid. rewrite Hprops.
      unfold size_add, CODEC_FRAME_TIME_BASE, APR_SIZE_MAX in *.
      rewrite Hp in *.
      destruct Hprt as [Hsame|Hnew]; [rewrite Hsame; repeat split; lia|].
      cbv zeta in Hnew.
      pose proof (Z.div_mod (partial_result_timeout r) 10 ltac:(lia)) as Hd.
      rewrite Hgrid in Hd.
      assert (Hsmall : ((partial_result_timeout r + 10) mod (2 ^ 64 - 1 + 1)
                        = partial_result_timeout r + 10)%Z)
        by (apply Z.mod_small; lia).
      rewrite Hsmall in Hnew.
      assert (Hmod : ((partial_result_timeout r + 10) mod 10 = 0)%Z).
      { replace (partial_result_timeout r + 10)%Z
          with (partial_result_timeout r + 1 * 10)%Z by lia.
        rewrite Z_mod_plus_full. exact Hgrid. }
      destruct (partial_result_timeout r + 10 =? 100)%Z eqn:Hcmp;
        rewrite Hnew.
      + repeat split; try lia; reflexivity.
      + apply Z.eqb_neq in Hcmp. repeat split; try lia; exact Hmod.
    - intros fs0 r req [(HT & HTg & Hrt & Hgrid) Hp].
      destruct (dispatch_cases fs0 r req) as (Hprops & _ & _ & Hcase).
      split; [|by rewrite Hprops].
      unfold partial_timer_on_grid. rewrite Hprops.
      destruct Hcase as [(_ & Hsame & _)|(_ & Hzero & _)].
      + rewrite Hsame. repeat split; try assumption; try apply HT; apply Hrt.
      + rewrite Hzero. repeat split; try assumption; try apply HT; try lia.
    - intros r ev [(HT & HTg & Hrt & Hgrid) Hp].
      destruct (recognition_complete_cases r ev)
        as (Hprops & _ & _ & _ & Hsame & _).
      split; [|by rewrite Hprops].
      unfold partial_timer_on_grid. rewrite Hprops, Hsame.
      repeat split; try assumption; try apply HT; apply Hrt.
    - split; [|reflexivity].
      unfold partial_timer_on_grid, APR_SIZE_MAX, CODEC_FRAME_TIME_BASE.
      simpl. repeat split; try lia; reflexivity. }
  destruct HP as [(HT & HTg & Hrt & Hgrid) Hp].
  cbv zeta. rewrite Hp in *. unfold CODEC_FRAME_TIME_BASE in *. done.
Qed.

(** X18.  While the thread loops, a STOP response is stored only while a
    recognition is in progress: every stored response has a completion
    still to come that releases it. *)
Theorem stop_awaits_completion_while_running id fs turns :
  stop_awaits_completion (recognizer_after id fs turns).
Proof.
  unfold recognizer_after.
  apply (run_loop_invariant stop_awaits_completion).
  - intros r q Hr. exact Hr.
  - intros r Hr. exact Hr.
  - intros r ev Hr. exact Hr.
  - intros r frame Hr. unfold stop_awaits_completion.
    destruct (stream_write_fields r frame) as (_ & Hq & Hstop & _).
    by rewrite Hq, Hstop.
  - intros fs0 r req Hr. unfold stop_awaits_completion.
    destruct (dispatch_cases fs0 r req) as (_ & _ & _ & Hcase).
    destruct Hcase as [(_ & _ & _ & Hq & [Hstop|Hsome])|(_ & _ & _ & Hq & _)].
    + rewrite Hq, Hstop. exact Hr.
    + rewrite Hq. by intros _.
    + rewrite Hq. intros _. by eexists.
  - intros r ev Hr. unfold stop_awaits_completion.
    destruct (recognition_complete_cases r ev)
      as (_ & _ & _ & _ & _ & _ & _ & [Hsame|[Hq Hstop]]).
    + rewrite Hsame. exact Hr.
    + rewrite Hstop. intros Hs. destruct (is_Some_None Hs).
  - intros Hs. destruct (is_Some_None Hs).
Qed.

(** ** The turns of the thread *)

(** X19.  A wake-up that finds the request slot empty and no recognition
    in progress changes nothing, also when a completion event is still in
    the event slot: the slot is never emptied by the thread, and the
    event left in it is passed over as a false event on every later
    wake-up. *)
Theorem wake_up_without_work fs r :
  request r = None →
  inprogress_recog r = None →
  recognizer_run_iteration fs r = (fs, r).
Proof.
  intros Hreq Hq. unfold recognizer_run_iteration. rewrite Hreq.
  destruct (complete_event r) as [ev|] eqn:Hev; [|reflexivity].
  rewrite (recognition_complete_false_event r ev Hq).
  destruct r; simpl in *; by subst.
Qed.

(** X20.  A turn of the thread leaves the request slot empty, so a request
    is dispatched in one turn only; and no turn changes the close flag or
    the properties. *)
Theorem turn_drains_request fs r :
  let r' := snd (recognizer_run_iteration fs r) in
  request r' = None
  ∧ close_requested r' = close_requested r
  ∧ properties r' = properties r.
Proof.
  unfold recognizer_run_iteration.
  assert (Hd : ∃ fs1 r1,
            match request r with
            | Some req =>
                pocketsphinx_request_dispatch fs (set_request None r) req
            | None => (fs, r)
            end = (fs1, r1)
            ∧ request r1 = None
            ∧ close_requested r1 = close_requested r
            ∧ properties r1 = properties r).
  { destruct (request r) as [req|] eqn:Hreq; [|by eexists _, _].
    destruct (dispatch_cases fs (set_request None r) req)
      as (Hprops & Hclose & Hslot & _).
    destruct (pocketsphinx_request_dispatch fs (set_request None r) req)
      as [fs1 r1].
    by exists fs1, r1. }
  destruct Hd as (fs1 & r1 & Heq & Hslot & Hclose & Hprops). rewrite Heq.
  destruct (complete_event r1) as [ev|]; [|done].
  destruct (recognition_complete_cases r1 ev) as (Hp & Hc & Hr & _).
  destruct (pocketsphinx_recognition_complete r1 ev) as [[r2 ev'] ret].
  simpl in *. by rewrite Hr, Hc, Hp.
Qed.

(** X21.  The end of the thread.  Once the close has been requested, what
    the thread does after its loop sends nothing, whatever the peers do
    during its last wait: a recognition still in progress is ended
    without a message.  Afterwards the table is empty, every file the
    table named is gone from the data directory and no other file has
    changed, and the decoder is freed. *)
Theorem recognizer_run_exit_silent fs r turn :
  close_requested r = true →
  let fs' := fst (recognizer_run_exit fs r turn) in
  let r' := snd (recognizer_run_exit fs r turn) in
  sent (channel r') = sent (channel r)
  ∧ decoder r' = None
  ∧ grammar_table r' = []
  ∧ (∀ key path, (key, path) ∈ grammar_table r → fs' !! path = None)
  ∧ (∀ path, path ∉ List.map snd (grammar_table r) → fs' !! path = fs !! path).
Proof.
  intros Hclose. unfold recognizer_run_exit. cbv zeta.
  match goal with
  | |- context [pocketsphinx_grammars_clear fs ?x] =>
      remember x as r1 eqn:Hr1
  end.
  assert (Hlast : sent (channel r1) = sent (channel r)
                  ∧ grammar_table r1 = grammar_table r).
  { subst r1. destruct (inprogress_recog r) as [q|] eqn:Hq; [|done].
    set (Q := λ x, inprogress_recog x = Some q
                   ∧ stop_response x = Some q
                   ∧ close_requested x = true
                   ∧ sent (channel x) = sent (channel r)
                   ∧ grammar_table x = grammar_table r).
    assert (Hpeers : ∀ actions x, Q x → Q (fold_left peer_step actions x)).
    { induction actions as [|a actions IH]; intros x Hx; [exact Hx|].
      simpl. apply IH. destruct Hx as (Hxq & Hxs & Hxc & Hxm & Hxt).
      destruct a as [req|frame|]; simpl; try done.
      destruct (complete_event x) as [ev|] eqn:Hxe.
      - rewrite stream_write_idle by (right; congruence). done.
      - unfold pocketsphinx_stream_write. rewrite Hxq, Hxe, Hxs.
        rewrite (end_of_input_raises x q _ Hxq). done. }
    destruct (Hpeers turn (set_stop_response (Some q) r))
      as (Hxq & Hxs & Hxc & Hxm & Hxt); [done|].
    destruct (complete_event (fold_left peer_step turn _)) as [ev|];
      [|done].
    destruct (recognition_complete_stopped _ ev q q Hxq Hxs)
      as (r2 & Hrun & Hsent & _).
    pose proof (recognition_complete_cases
                  (fold_left peer_step turn (set_stop_response (Some q) r)) ev)
      as (_ & _ & _ & _ & _ & _ & Htable & _).
    rewrite Hrun in *. simpl in *.
    rewrite Hsent, Hxc, app_nil_r. split; [exact Hxm|].
    by rewrite Htable. }
  clear Hr1. destruct Hlast as (Hsent & Htable).
  unfold pocketsphinx_grammars_clear. simpl. rewrite Htable.
  split; [exact Hsent|]. split; [reflexivity|]. split; [reflexivity|].
  split.
  - intros key path Hin. rewrite remove_files_lookup.
    rewrite bool_decide_eq_true_2; [reflexivity|].
    apply list_elem_of_In, in_map_iff. exists (key, path).
    split; [reflexivity|]. by apply list_elem_of_In.
  - intros path Hout. rewrite remove_files_lookup.
    by rewrite bool_decide_eq_false_2.
Qed.

(** ** The initialization of the decoder *)

(** X22.  [pocketsphinx_decoder_init] keeps what the recognizer has: a
    decoder is never dropped, also when its re-initialization fails; a
    detector that exists is kept as it is and one is created only by a
    successful initialization that finds none; the grammar table, the
    active grammar and everything of the recognition are not touched.
    After a success the recognizer has a configuration, a decoder and a
    detector; after a failure the detector is as it was. *)
Theorem decoder_init_keeps fs r grammar :
  let r' := fst (pocketsphinx_decoder_init fs r grammar) in
  let ok := snd (pocketsphinx_decoder_init fs r grammar) in
  (is_Some (decoder r) → is_Some (decoder r'))
  ∧ (∀ det, detector r = Some det → detector r' = Some det)
  ∧ (ok = true →
     is_Some (config r') ∧ is_Some (decoder r') ∧ is_Some (detector r'))
  ∧ (ok = false → detector r' = detector r)
  ∧ (∃ c d det, r' = set_detector det (set_decoder d (set_config c r))).
Proof.
  cbv zeta. split; [|split; [|split; [|split]]].
  - unfold pocketsphinx_decoder_init.
    destruct (cmd_ln_init _ _) as [c|]; simpl; [|done].
    destruct (decoder r) as [d|] eqn:Hd; [|intros Hs; destruct (is_Some_None Hs)].
    destruct (ps_reinit fs d c) as [d' status]. simpl.
    destruct (status <? 0)%Z; simpl; [by eexists|].
    destruct (detector r); by eexists.
  - intros det Hdet. unfold pocketsphinx_decoder_init.
    destruct (cmd_ln_init _ _) as [c|]; simpl; [|done].
    destruct (decoder r) as [d|] eqn:Hd.
    + destruct (ps_reinit fs d c) as [d' status]. simpl.
      destruct (status <? 0)%Z; simpl; [done|]. by rewrite Hdet.
    + destruct (ps_init fs c) as [d|]; simpl; [|done]. by rewrite Hdet.
  - apply decoder_init_succeeded.
  - intros Hfail.
    destruct (decoder_init_shape fs r grammar)
      as (c' & d' & det' & Hshape & Hdet).
    rewrite Hshape. simpl. by apply Hdet.
  - destruct (decoder_init_shape fs r grammar)
      as (c' & d' & det' & Hshape & _).
    by exists c', d', det'.
Qed.

(** ** The names of the grammar files *)

(** X23.  Within a channel, the name of the grammar file determines the
    content-id: two content-ids with the same file name are the same, so
    two grammars of a channel are never written to one file name. *)
Theorem grammar_file_name_injective r a b :
  grammar_file_name r a = grammar_file_name r b → a = b.
Proof.
  unfold grammar_file_name. intros Heq.
  apply string_app_inv_head in Heq. apply string_app_inv_head in Heq.
  apply string_app_inv_head in Heq. by apply string_app_inv_tail in Heq.
Qed.

(** ** The slots shared with the other threads *)

Lemma peer_step_close r a :
  close_requested (peer_step r a) = true
  ↔ close_requested r = true ∨ a = CloseRequest.
Proof.
  destruct a as [req|frame|]; simpl.
  - split; [by left|]. by intros [Hc|Ha].
  - destruct (stream_write_fields r frame) as (_ & _ & _ & Hclose & _).
    rewrite Hclose. split; [by left|]. by intros [Hc|Ha].
  - split; [by right|done].
Qed.

Lemma peers_close turn : ∀ r,
  close_requested (fold_left peer_step turn r) = true
  ↔ close_requested r = true ∨ CloseRequest ∈ turn.
Proof.
  induction turn as [|a turn IH]; intros r; simpl.
  - split; [by left|]. intros [Hc|Hin]; [exact Hc|].
    by apply elem_of_nil in Hin.
  - rewrite IH, peer_step_close, elem_of_cons. split.
    + intros [[Hc|Ha]|Hin]; [by left|right; by left|right; by right].
    + intros [Hc|[Ha|Hin]]; [left; by left|left; by right|by right].
Qed.

Lemma run_iteration_close fs r :
  close_requested (snd (recognizer_run_iteration fs r)) = close_requested r.
Proof.
  unfold recognizer_run_iteration.
  assert (Hd : close_requested
                 (snd (match request r with
                       | Some req =>
                           pocketsphinx_request_dispatch fs
                             (set_request None r) req
                       | None => (fs, r)
                       end)) = close_requested r).
  { destruct (request r) as [req|]; [|reflexivity].
    destruct (dispatch_cases fs (set_request None r) req) as (_ & Hclose & _).
    exact Hclose. }
  destruct (match request r with Some _ => _ | None => _ end) as [fs1 r1].
  simpl in Hd. destruct (complete_event r1) as [ev|]; [|exact Hd].
  destruct (recognition_complete_cases r1 ev) as (_ & Hc & _).
  destruct (pocketsphinx_recognition_complete r1 ev) as [[r2 ev'] ret].
  simpl in *. by rewrite Hc.
Qed.

Lemma run_loop_ends turns : ∀ fs r,
  close_requested r = false →
  let run := recognizer_run_loop fs r turns in
  (snd (fst run) = true ↔ ∃ turn, turn ∈ turns ∧ CloseRequest ∈ turn)
  ∧ close_requested (snd (fst (fst run))) = snd (fst run)
  ∧ (snd (fst run) = false → snd run = []).
Proof.
  induction turns as [|turn turns IH]; intros fs r Hopen; simpl.
  - split; [|done]. split; [done|].
    intros (turn & Hin & _). by apply elem_of_nil in Hin.
  - pose proof (run_iteration_close fs (fold_left peer_step turn r)) as Hit.
    pose proof (peers_close turn r) as Hpeers.
    destruct (recognizer_run_iteration fs (fold_left peer_step turn r))
      as [fs1 r1].
    simpl in Hit. case_bool_decide as Hflag.
    + destruct (IH fs1 r1 Hflag) as (Hiff & Hrest). split; [|exact Hrest].
      rewrite Hiff. split.
      * intros (t & Hin & Hc). exists t. split; [|exact Hc].
        apply elem_of_cons. by right.
      * intros (t & Hin & Hc). apply elem_of_cons in Hin as [->|Hin].
        -- assert (Htrue : close_requested r1 = true).
           { rewrite Hit. apply Hpeers. by right. }
           congruence.
        -- by exists t.
    + apply not_false_is_true in Hflag. simpl.
      split; [|split; [exact Hflag|done]].
      split; [|done]. intros _. exists turn. split.
      * apply elem_of_cons. by left.
      * rewrite Hit in Hflag. apply Hpeers in Hflag as [Hc|Hin]; [|exact Hin].
        congruence.
Qed.

(** X24.  The loop of the thread ends on the wake-up that follows the first
    close request and on no other: with the wake-ups it is given it has
    ended exactly when some wait saw a close request, it has then left the
    close flag set, and while it has not ended it has used up every
    wake-up with the flag clear.  Nothing the plugin does clears the
    flag. *)
Theorem close_request_ends_loop id fs turns :
  let run :=
    recognizer_run_loop fs
      (fst (pocketsphinx_properties_load
              (pocketsphinx_engine_recognizer_create id)))
      turns in
  (snd (fst run) = true ↔ ∃ turn, turn ∈ turns ∧ CloseRequest ∈ turn)
  ∧ close_requested (snd (fst (fst run))) = snd (fst run)
  ∧ (snd (fst run) = false → snd run = []).
Proof. by apply run_loop_ends. Qed.

Lemma peers_keep_request rest : ∀ r,
  (∀ a, a ∈ rest → ∀ q, a ≠ RequestProcess q) →
  request (fold_left peer_step rest r) = request r.
Proof.
  induction rest as [|a rest IH]; intros r Hnone; [reflexivity|].
  simpl. rewrite IH.
  - destruct a as [req|frame|]; simpl; [|by
      destruct (stream_write_fields r frame) as (_ & _ & _ & _ & Hreq & _)|done].
    destruct (Hnone (RequestProcess req)) with req; [|reflexivity].
    apply elem_of_cons. by left.
  - intros a' Hin. apply Hnone. apply elem_of_cons. by right.
Qed.

(** X25.  The request slot holds one request.  Of the requests that the
    signaling thread stores during one wait of the recognition thread,
    the last is in the slot when the thread wakes, whatever frames and
    close requests come in between and after; the thread dispatches the
    request of the slot, so the earlier ones are overwritten without a
    response. *)
Theorem last_request_wins r turn b rest :
  (∀ a, a ∈ rest → ∀ q, a ≠ RequestProcess q) →
  request (fold_left peer_step (turn ++ RequestProcess b :: rest) r) = Some b.
Proof.
  intros Hnone. rewrite fold_left_app. simpl.
  by rewrite peers_keep_request.
Qed.

Lemma dispatch_sends_at_most_one fs r req :
  ∃ messages,
    sent (channel (snd (pocketsphinx_request_dispatch fs r req)))
    = sent (channel r) ++ messages
    ∧ (List.length messages ≤ 1)%nat.
Proof.
  destruct (decide (method_id req = MethodId RECOGNIZER_STOP
                    ∧ is_Some (inprogress_recog r))) as [[Hm [q Hq]]|Hnot].
  - rewrite (stop_dispatch_deferred fs r req q Hm Hq). exists []. simpl.
    split; [by rewrite app_nil_r|lia].
  - destruct (dispatch_answers fs r req Hnot) as (response & Hsent & _).
    exists [response]. split; [exact Hsent|simpl; lia].
Qed.

(** X26.  A turn of the thread sends at most two messages: at most one by
    the dispatch of the request in the slot, and at most one by the
    processing of the completion event. *)
Theorem turn_sends_at_most_two fs r :
  ∃ messages,
    sent (channel (snd (recognizer_run_iteration fs r)))
    = sent (channel r) ++ messages
    ∧ (List.length messages ≤ 2)%nat.
Proof.
  unfold recognizer_run_iteration.
  assert (Hd : ∃ first,
            sent (channel
                    (snd (match request r with
                          | Some req =>
                              pocketsphinx_request_dispatch fs
                                (set_request None r) req
                          | None => (fs, r)
                          end))) = sent (channel r) ++ first
            ∧ (List.length first ≤ 1)%nat).
  { destruct (request r) as [req|].
    - apply (dispatch_sends_at_most_one fs (set_request None r) req).
    - exists []. simpl. split; [by rewrite app_nil_r|lia]. }
  destruct Hd as (first & Hfirst & Hlen).
  destruct (match request r with Some _ => _ | None => _ end) as [fs1 r1].
  simpl in Hfirst. destruct (complete_event r1) as [ev|].
  - destruct (recognition_complete_sends_at_most_one r1 ev)
      as (second & Hsecond & Hlen2).
    destruct (pocketsphinx_recognition_complete r1 ev) as [[r2 ev'] ret].
    simpl in *. exists (first ++ second).
    rewrite Hsecond, Hfirst, <- app_assoc. split; [reflexivity|].
    rewrite length_app. lia.
  - exists first. simpl. split; [exact Hfirst|lia].
Qed.

End Coverage.

(** * Runs for the rest of the plugin *)

Ltac by_computation :=
  first [ reflexivity
        | vm_compute; reflexivity
        | apply (bool_decide_unpack _); vm_compute; exact I
        | vm_compute; discriminate ].

Lemma digits_definition :
  grammar_definition Sim.define_digits "digits" "application/x-jsgf".
Proof.
  exists Sim.digits_header.
  repeat (split; [by_computation|]). by_computation.
Qed.

Lemma digits_unload : grammar_unload Sim.unload_digits "digits".
Proof.
  eexists. split; [reflexivity|]. split; [by_computation|].
  split; [reflexivity|]. intros Hin. apply (bool_decide_pack _) in Hin.
  vm_compute in Hin. exact Hin.
Qed.

Lemma define_grammar_registers_witness :
  ∃ r', pocketsphinx_request_dispatch ∅ Sim.opened Sim.define_digits
        = (file_write (file_create ∅ Sim.digits_path) Sim.digits_path
             (body Sim.define_digits), r')
        ∧ grammar_id r' = Some "digits"%string
        ∧ apr_table_get (grammar_table r') "digits" = Some Sim.digits_path.
Proof.
  destruct (define_grammar_registers ∅ Sim.opened Sim.define_digits
              "digits" "application/x-jsgf")
    as (r' & Hrun & _ & _ & Hgid & Hget & _).
  - reflexivity.
  - exact digits_definition.
  - by_computation.
  - reflexivity.
  - by_computation.
  - exists r'. exact (conj Hrun (conj Hgid Hget)).
Defined.

Lemma define_grammar_keeps_other_grammars_witness :
  strcasecmp_eq "digits" "colours" = false
  ∧ apr_table_get
      (grammar_table
         (snd (pocketsphinx_request_dispatch ∅ Sim.opened Sim.define_digits)))
      "colours"
    = apr_table_get (grammar_table Sim.opened) "colours".
Proof.
  split; [by_computation|].
  destruct (define_grammar_keeps_other_grammars ∅ Sim.opened Sim.define_digits
              "digits" "application/x-jsgf")
    as (Hother & _).
  - reflexivity.
  - exact digits_definition.
  - by_computation.
  - reflexivity.
  - by_computation.
  - apply Hother. by_computation.
Defined.

Lemma define_grammar_unloads_witness :
  apr_table_get (grammar_table Sim.defined) "digits" = Some Sim.digits_path
  ∧ fst (pocketsphinx_request_dispatch Sim.data Sim.defined Sim.unload_digits)
    = delete Sim.digits_path Sim.data
  ∧ apr_table_get
      (grammar_table
         (snd (pocketsphinx_request_dispatch Sim.data Sim.defined
                 Sim.unload_digits)))
      "digits" = None.
Proof.
  assert (Hget : apr_table_get (grammar_table Sim.defined) "digits"
                 = Some Sim.digits_path) by by_computation.
  split; [exact Hget|].
  destruct (define_grammar_unloads Sim.data Sim.defined Sim.unload_digits
              "digits" eq_refl digits_unload)
    as (Hfs & Hgone & _).
  rewrite Hget in Hfs. exact (conj Hfs Hgone).
Defined.

Lemma define_then_unload_witness :
  let r2 :=
    snd (pocketsphinx_request_dispatch
           (fst (pocketsphinx_request_dispatch ∅ Sim.opened Sim.define_digits))
           (snd (pocketsphinx_request_dispatch ∅ Sim.opened Sim.define_digits))
           Sim.unload_digits) in
  apr_table_get (grammar_table r2) "digits" = None
  ∧ grammar_id r2 = Some "digits"%string
  ∧ is_Some (decoder r2).
Proof.
  destruct (define_then_unload ∅ Sim.opened Sim.define_digits
              Sim.unload_digits "digits" "application/x-jsgf")
    as (_ & _ & Hgone & Hgid & Hdec & _).
  - reflexivity.
  - exact digits_definition.
  - by_computation.
  - reflexivity.
  - by_computation.
  - reflexivity.
  - exact digits_unload.
  - exact (conj Hgone (conj Hgid Hdec)).
Defined.

Lemma define_grammar_file_failure_witness :
  pocketsphinx_request_dispatch (H1 := Sim.read_only) ∅ Sim.opened
    Sim.define_digits
  = (∅,
     mrcp_engine_channel_message_send Sim.opened
       (set_status_code MRCP_STATUS_CODE_METHOD_FAILED
          (mrcp_response_create Sim.define_digits))).
Proof.
  apply (define_grammar_file_failure (H1 := Sim.read_only) ∅ Sim.opened
           Sim.define_digits "digits" "application/x-jsgf").
  - reflexivity.
  - exact digits_definition.
  - by_computation.
  - reflexivity.
Defined.

Lemma define_grammar_missing_content_type_witness :
  pocketsphinx_request_dispatch Sim.data Sim.defined Sim.define_untyped
  = (Sim.data,
     mrcp_engine_channel_message_send Sim.defined
       (set_status_code MRCP_STATUS_CODE_MISSING_PARAM
          (mrcp_response_create Sim.define_untyped))).
Proof.
  apply (define_grammar_missing_content_type Sim.data Sim.defined
           Sim.define_untyped
           (Sim.grammar_header (Some "digits"%string) None
              [GENERIC_HEADER_CONTENT_ID; GENERIC_HEADER_CONTENT_LENGTH])
           "digits"%string).
  - reflexivity.
  - reflexivity.
  - by_computation.
  - reflexivity.
  - by_computation.
  - right. reflexivity.
Defined.

Lemma unhandled_request_answered_witness :
  pocketsphinx_request_dispatch Sim.data Sim.recognizing (Sim.get_result 7)
  = (Sim.data,
     mrcp_engine_channel_message_send Sim.recognizing
       (mrcp_response_create (Sim.get_result 7))).
Proof.
  apply (unhandled_request_answered Sim.data Sim.recognizing
           (Sim.get_result 7)); discriminate.
Defined.

Lemma stop_without_recognition_witness :
  inprogress_recog Sim.defined = None
  ∧ pocketsphinx_request_dispatch Sim.data Sim.defined (Sim.stop 3)
    = (Sim.data,
       mrcp_engine_channel_message_send Sim.defined
         (mrcp_response_create (Sim.stop 3))).
Proof.
  assert (Hq : inprogress_recog Sim.defined = None) by by_computation.
  split; [exact Hq|].
  apply (stop_without_recognition Sim.data Sim.defined (Sim.stop 3) eq_refl Hq).
Defined.

Lemma recognition_complete_without_result_witness :
  ∃ r',
    pocketsphinx_recognition_complete Sim.recognizing
      (Sim.completion (Sim.recognize 2)
         RECOGNIZER_COMPLETION_CAUSE_RECOGNITION_TIMEOUT)
    = (r',
       Sim.completion (Sim.recognize 2)
         RECOGNIZER_COMPLETION_CAUSE_RECOGNITION_TIMEOUT,
       true)
    ∧ last_result r' = last_result Sim.recognizing
    ∧ inprogress_recog r' = None.
Proof.
  destruct (recognition_complete_without_result Sim.recognizing
              (Sim.completion (Sim.recognize 2)
                 RECOGNIZER_COMPLETION_CAUSE_RECOGNITION_TIMEOUT)
              (Sim.recognize 2))
    as (r' & Hrun & _ & Hlast & _ & Hq).
  - by_computation.
  - by_computation.
  - discriminate.
  - exists r'. exact (conj Hrun (conj Hlast Hq)).
Defined.

Lemma stream_write_stop_pending_witness :
  complete_event Sim.stopping = None
  ∧ pocketsphinx_stream_write Sim.stopping Sim.speech
    = (set_complete_event
         (Some (recognition_complete_event (Sim.recognize 2)
                  RECOGNIZER_COMPLETION_CAUSE_SUCCESS))
         Sim.stopping, true).
Proof.
  assert (Hev : complete_event Sim.stopping = None) by by_computation.
  split; [exact Hev|].
  apply (stream_write_stop_pending Sim.stopping Sim.speech (Sim.recognize 2)
           (mrcp_response_create (Sim.stop 3))).
  - by_computation.
  - exact Hev.
  - by_computation.
Defined.

Lemma stream_write_detector_event_witness :
  detector Sim.speaking = Some true
  ∧ sent (channel (fst (pocketsphinx_stream_write Sim.speaking Sim.silence)))
    = sent (channel Sim.speaking)
  ∧ complete_event (fst (pocketsphinx_stream_write Sim.speaking Sim.silence))
    = Some (recognition_complete_event (Sim.recognize 2)
              RECOGNIZER_COMPLETION_CAUSE_SUCCESS).
Proof.
  assert (Hdet : detector Sim.speaking = Some true) by by_computation.
  split; [exact Hdet|].
  destruct (stream_write_detector_event Sim.speaking Sim.silence
              (Sim.recognize 2) true)
    as (_ & _ & Hsent & Hev).
  - by_computation.
  - by_computation.
  - by_computation.
  - exact Hdet.
  - by_computation.
  - simpl in Hsent, Hev. rewrite app_nil_r in Hsent. exact (conj Hsent Hev).
Defined.

Lemma stored_stop_released_by_next_frame_witness :
  close_requested Sim.stopping = false
  ∧ sent (channel (snd (recognizer_run_iteration Sim.data
                          (fst (pocketsphinx_stream_write Sim.stopping
                                  Sim.speech)))))
    = sent (channel Sim.stopping) ++ [mrcp_response_create (Sim.stop 3)].
Proof.
  assert (Hclose : close_requested Sim.stopping = false) by by_computation.
  split; [exact Hclose|].
  destruct (stored_stop_released_by_next_frame Sim.data Sim.stopping
              (Sim.recognize 2) (mrcp_response_create (Sim.stop 3)) Sim.speech)
    as (Hsent & _).
  - by_computation.
  - by_computation.
  - by_computation.
  - exact Hclose.
  - exact Hsent.
Defined.

Lemma wake_up_without_work_witness :
  is_Some (complete_event
             (snd (recognizer_run_iteration Sim.data Sim.heard_yes)))
  ∧ recognizer_run_iteration Sim.data
      (snd (recognizer_run_iteration Sim.data Sim.heard_yes))
    = (Sim.data, snd (recognizer_run_iteration Sim.data Sim.heard_yes)).
Proof.
  split; [eexists; vm_compute; reflexivity|].
  apply (wake_up_without_work Sim.data
           (snd (recognizer_run_iteration Sim.data Sim.heard_yes)));
    by_computation.
Defined.

Lemma recognizer_run_exit_silent_witness :
  close_requested Sim.closed_while_recognizing = true
  ∧ is_Some (inprogress_recog Sim.closed_while_recognizing)
  ∧ sent (channel (snd (recognizer_run_exit Sim.data
                          Sim.closed_while_recognizing
                          [StreamWrite Sim.speech])))
    = sent (channel Sim.closed_while_recognizing)
  ∧ fst (recognizer_run_exit Sim.data Sim.closed_while_recognizing
           [StreamWrite Sim.speech]) !! Sim.digits_path = None.
Proof.
  assert (Hclose : close_requested Sim.closed_while_recognizing = true)
    by by_computation.
  split; [exact Hclose|]. split; [eexists; vm_compute; reflexivity|].
  destruct (recognizer_run_exit_silent Sim.data Sim.closed_while_recognizing
              [StreamWrite Sim.speech] Hclose)
    as (Hsent & _ & _ & Hgone & _).
  split; [exact Hsent|].
  apply (Hgone "digits"%string). apply (bool_decide_unpack _).
  vm_compute. exact I.
Defined.

Lemma grammar_file_name_injective_witness :
  grammar_file_name Sim.opened "digits"
  = grammar_file_name Sim.opened ("dig" ++ "its")
  ∧ "digits"%string = ("dig" ++ "its")%string.
Proof.
  split; [reflexivity|].
  apply (grammar_file_name_injective Sim.opened). reflexivity.
Defined.

Lemma last_request_wins_witness :
  request
    (fold_left peer_step
       ([RequestProcess Sim.define_digits]
        ++ RequestProcess (Sim.recognize 2)
           :: [StreamWrite Sim.speech; CloseRequest])
       Sim.defined)
  = Some (Sim.recognize 2).
Proof.
  apply (last_request_wins Sim.defined [RequestProcess Sim.define_digits]
           (Sim.recognize 2) [StreamWrite Sim.speech; CloseRequest]).
  intros a Hin q.
  apply elem_of_cons in Hin as [->|Hin]; [discriminate|].
  apply elem_of_cons in Hin as [->|Hin]; [discriminate|].
  by apply elem_of_nil in Hin.
Defined.
